(** * mgaps: clustering and chaining of exact matches

    A shallow embedding of [src/tigr/mgaps.cc] (namespace [mummer_mgaps]):
    the match filter [Filter_Matches], the union-find structure [UnionFind],
    the chain selector [Process_Cluster], the per-query driver
    [Process_Matches] and the reading loop of [main], followed by the
    properties proved about them.

    Conventions of the embedding.
    - [long int] values are unbounded integers [Z] (signed overflow of
      [long] is undefined in C++, so no wrap-around is written for it);
      [LONG_MIN] and [LONG_MAX] are the LP64 constants.
    - a [long] value stored into an [int] variable is narrowed with [to_int]
      (two's complement, 32 bits); the 30-bit bit-field [cluster_id] is
      narrowed with [to_bits30].  Array indices and counters ([i], [j], [N],
      [best], [print_ct]) are bounded by the [int] [N] and are not narrowed.
    - the array [A] is a list, read with [!!] and written with [<[i:=x]>];
      array positions are [nat], stored indices ([Simple_From], the
      union-find entries) are [Z] as in the code.
    - [assert] is a failure: functions containing one return [option].
    - [double] is IEEE 754 binary64, the type [spec_float] of the standard
      library at precision 53: a [long] is converted and a product is
      rounded to nearest, ties to even, and nothing is kept in a wider
      format, as on x86-64.  The cast [(int) x] drops the fraction; for a
      value outside [int], where C++ leaves it undefined, it gives [INT_MIN]
      as the x86-64 conversion does.
    - the library calls [qsort], [sscanf] and [std::getline] are not part of
      the file: [qsort] is an insertion sort that keeps the order of equal
      elements, [sscanf] is a parameter, [std::cin] is the text not yet
      read. *)

From Stdlib Require Import ZArith Lia Bool String Ascii Permutation Sorted Relations.
From Stdlib Require Import SpecFloat QArith Qminmax.
From stdpp Require Import base list.

Close Scope Q_scope.
Open Scope Z_scope.

(** ** Machine integers *)

Definition to_int (x : Z) : Z := (x + 2 ^ 31) mod 2 ^ 32 - 2 ^ 31.
Definition to_bits30 (x : Z) : Z := (x + 2 ^ 29) mod 2 ^ 30 - 2 ^ 29.
Definition LONG_MAX : Z := 2 ^ 63 - 1.
Definition LONG_MIN : Z := - 2 ^ 63.
Definition INT_MIN : Z := - 2 ^ 31.

(** ** Doubles

    A [double] is a [spec_float]; the operations are those the standard
    library specifies for IEEE 754, at the precision and exponent range of
    binary64. *)

Definition prec : Z := 53.
Definition emax : Z := 1024.

(** The conversion of a [long] to [double]. *)
Definition long_to_double (x : Z) : spec_float :=
  binary_normalize prec emax x 0 false.

(** The product of two doubles. *)
Definition double_mul (x y : spec_float) : spec_float := SFmul prec emax x y.

(** The cast [(int) x]. *)
Definition double_to_int (x : spec_float) : Z :=
  match x with
  | S754_zero _ => 0
  | S754_finite s m e =>
    let t := if 0 <=? e then Z.shiftl (Z.pos m) e else Z.shiftr (Z.pos m) (- e) in
    let v := if s then - t else t in
    if (INT_MIN <=? v) && (v <? 2 ^ 31) then v else INT_MIN
  | _ => INT_MIN
  end.

(** The double nearest to [num / den], which is what the compiler makes of a
    decimal literal and [strtod] of a decimal text. *)
Definition double_of_ratio (num den : Z) : spec_float :=
  SFdiv prec emax (long_to_double num) (long_to_double den).

Notation "'do' x <- m ; k" :=
  (match m with Some x => k | None => None end)
  (at level 10, x pattern, m at level 100, k at level 200, only parsing).

(** ** The match record *)

Record Match_t := mkMatch {
  Start1 : Z;
  Start2 : Z;
  Len : Z;
  Simple_Score : Z;
  Simple_From : Z;
  Simple_Adj : Z;
  cluster_id : Z;
  Good : bool;
  Tentative : bool
}.

(** [Match_t(S1, S2, L)]: the constructor clears both flags; the fields it
    leaves uninitialised are written before they are read, here they are 0. *)
Definition new_Match (S1 S2 L : Z) : Match_t :=
  mkMatch S1 S2 L 0 0 0 0 false false.

Definition set_Len (l : Z) (m : Match_t) : Match_t :=
  mkMatch (Start1 m) (Start2 m) l (Simple_Score m) (Simple_From m)
          (Simple_Adj m) (cluster_id m) (Good m) (Tentative m).
Definition set_Good (b : bool) (m : Match_t) : Match_t :=
  mkMatch (Start1 m) (Start2 m) (Len m) (Simple_Score m) (Simple_From m)
          (Simple_Adj m) (cluster_id m) b (Tentative m).
Definition set_Tentative (b : bool) (m : Match_t) : Match_t :=
  mkMatch (Start1 m) (Start2 m) (Len m) (Simple_Score m) (Simple_From m)
          (Simple_Adj m) (cluster_id m) (Good m) b.
Definition set_cluster_id (c : Z) (m : Match_t) : Match_t :=
  mkMatch (Start1 m) (Start2 m) (Len m) (Simple_Score m) (Simple_From m)
          (Simple_Adj m) c (Good m) (Tentative m).
Definition set_Simple (score from adj : Z) (m : Match_t) : Match_t :=
  mkMatch (Start1 m) (Start2 m) (Len m) score from adj
          (cluster_id m) (Good m) (Tentative m).

(** The diagonal of a match, [Start2 - Start1], as a [long]. *)
Definition diag (m : Match_t) : Z := Start2 m - Start1 m.

(** ** Comparators and [qsort] *)

Definition By_Start2 (x y : Match_t) : Z :=
  if Start2 x <? Start2 y then -1
  else if Start2 x >? Start2 y then 1
  else if Start1 x <? Start1 y then -1
  else if Start1 x >? Start1 y then 1
  else 0.

Definition By_Cluster (x y : Match_t) : Z :=
  if cluster_id x <? cluster_id y then -1
  else if cluster_id x >? cluster_id y then 1
  else if Start2 x <? Start2 y then -1
  else if Start2 x >? Start2 y then 1
  else if Start1 x <? Start1 y then -1
  else if Start1 x >? Start1 y then 1
  else 0.

(** [qsort] leaves the order of elements that compare equal unspecified;
    the embedding sorts by insertion and keeps their input order: an element
    goes in front of the first one that is not smaller than it, and the
    elements are inserted from the last to the first. *)
Fixpoint qsort_insert (cmp : Match_t -> Match_t -> Z) (x : Match_t)
    (l : list Match_t) : list Match_t :=
  match l with
  | [] => [x]
  | y :: l' => if cmp x y <=? 0 then x :: l else y :: qsort_insert cmp x l'
  end.

Definition qsort (cmp : Match_t -> Match_t -> Z) (l : list Match_t) : list Match_t :=
  foldr (qsort_insert cmp) [] l.

(** ** In-place compaction

    [for (i = k = 0; i < N; i++) if (keep A[i]) { if (i != k) A[k] = A[i]; k++; }  N = k;]
    The survivors are the first [k] cells. *)
Fixpoint pack_loop (keep : Match_t -> bool) (fuel : nat) (A : list Match_t)
    (i k : nat) : list Match_t * nat :=
  match fuel with
  | O => (A, k)
  | S fuel' =>
    match A !! i with
    | Some x =>
      if keep x
      then pack_loop keep fuel' (if Nat.eqb i k then A else <[k := x]> A) (S i) (S k)
      else pack_loop keep fuel' A (S i) k
    | None => (A, k)
    end
  end.

Definition pack (keep : Match_t -> bool) (A : list Match_t) : list Match_t :=
  let '(A', k) := pack_loop keep (length A) A 0 0 in take k A'.

(** ** Filter_Matches *)

Inductive flow := Continue | Break.

(** The body shared by the two branches [Start1] equal and [Start2] equal of
    the scan; [olap] is the overlap computed by the branch. *)
Definition overlap_rule (A : list Match_t) (i j : nat) (ai aj : Match_t)
    (olap : Z) : list Match_t * flow :=
  if Len ai <? Len aj then
    if olap >=? Z.quot (Len ai) 2
    then (<[i := set_Good false ai]> A, Break)
    else (A, Continue)
  else if Len aj <? Len ai then
    if olap >=? Z.quot (Len aj) 2
    then (<[j := set_Good false aj]> A, Continue)
    else (A, Continue)
  else
    if olap >=? Z.quot (Len ai) 2
    then
      let A1 := <[j := set_Tentative true aj]> A in
      if Tentative ai
      then (<[i := set_Good false ai]> A1, Break)
      else (A1, Continue)
    else (A, Continue).

(** One round of the inner loop at index [j]: the loop goes on with a new
    array and a new [i_end], or it ends (loop test false, or [break]), or
    [assert (A[i].Start2 <= A[j].Start2)] fails. *)
Inductive scan_result :=
| Scan_next (A : list Match_t) (i_end : Z)
| Scan_stop (A : list Match_t)
| Scan_fail.

Definition scan_body (A : list Match_t) (i : nat) (i_diag i_end : Z) (j : nat)
    : scan_result :=
  match A !! j, A !! i with
  | Some aj, Some ai =>
    if Start2 aj <=? i_end then
      if negb (Start2 ai <=? Start2 aj) then Scan_fail
      else if negb (Good aj) then Scan_next A i_end
      else
        let j_diag := to_int (Start2 aj - Start1 aj) in
        if i_diag =? j_diag then
          let j_extent := to_int (Len aj + Start2 aj - Start2 ai) in
          if j_extent >? Len ai
          then Scan_next (<[j := set_Good false aj]> (<[i := set_Len j_extent ai]> A))
                         (to_int (Start2 ai + j_extent))
          else Scan_next (<[j := set_Good false aj]> A) i_end
        else if Start1 ai =? Start1 aj then
          match overlap_rule A i j ai aj
                  (to_int (Start2 ai + Len ai - Start2 aj)) with
          | (A', Break) => Scan_stop A'
          | (A', Continue) => Scan_next A' i_end
          end
        else if Start2 ai =? Start2 aj then
          match overlap_rule A i j ai aj
                  (to_int (Start1 ai + Len ai - Start1 aj)) with
          | (A', Break) => Scan_stop A'
          | (A', Continue) => Scan_next A' i_end
          end
        else Scan_next A i_end
    else Scan_stop A
  | _, _ => Scan_stop A
  end.

(** The inner loop [for (j = i + 1; j < N && A[j].Start2 <= i_end; j++)];
    [fuel] is [N - j]. *)
Fixpoint scan (fuel : nat) (A : list Match_t) (i : nat) (i_diag i_end : Z)
    (j : nat) : option (list Match_t) :=
  match fuel with
  | O => Some A
  | S fuel' =>
    match scan_body A i i_diag i_end j with
    | Scan_next A' i_end' => scan fuel' A' i i_diag i_end' (S j)
    | Scan_stop A' => Some A'
    | Scan_fail => None
    end
  end.

(** The outer loop [for (i = 0; i < N - 1; i++)]; [fuel] is [N - 1 - i]. *)
Fixpoint filter_loop (fuel : nat) (A : list Match_t) (i : nat)
    : option (list Match_t) :=
  match fuel with
  | O => Some A
  | S fuel' =>
    match A !! i with
    | Some ai =>
      do A' <- (if Good ai
                then scan (length A - S i) A i
                          (to_int (Start2 ai - Start1 ai))
                          (to_int (Start2 ai + Len ai)) (S i)
                else Some A);
      filter_loop fuel' A' (S i)
    | None => Some A
    end
  end.

(** [Filter_Matches (A, N)]: the result is the packed prefix [A[0 .. N-1]]
    for the new value of [N]. *)
Definition Filter_Matches (A : list Match_t) : option (list Match_t) :=
  do A' <- filter_loop (length A - 1) (map (set_Good true) A) 0;
  Some (map (set_Good false) (pack Good A')).

Definition triple (m : Match_t) : Z * Z * Z := (Start1 m, Start2 m, Len m).


(** ** Configuration

    The static variables set by the command line. *)
Record config := mkConfig {
  Fixed_Separation : Z;
  Max_Separation : Z;
  Min_Output_Score : Z;
  Separation_Factor : spec_float;
  Use_Extents : bool
}.

Definition DEFAULT_FIXED_SEPARATION : Z := 5.
Definition DEFAULT_MAX_SEPARATION : Z := 1000.
Definition DEFAULT_MIN_OUTPUT_SCORE : Z := 200.

(** The literal [0.05]: [7205759403792794 * 2^-57]. *)
Definition DEFAULT_SEPARATION_FACTOR : spec_float :=
  S754_finite false 7205759403792794 (-57).

Definition default_config : config :=
  mkConfig DEFAULT_FIXED_SEPARATION DEFAULT_MAX_SEPARATION
           DEFAULT_MIN_OUTPUT_SCORE DEFAULT_SEPARATION_FACTOR false.

(** ** Output records

    One value per output line: the label line, the first match of a chain
    (printed with [none - -]) and a later match of a chain, whose adjustment
    column is [None] for the text [none] and [Some (-adj)] otherwise. *)
Inductive out_line :=
| Label_line (label : string)
| First_line (s1 s2 len : Z)
| Next_line (s1 s2 len : Z) (adj : option Z) (gap1 gap2 : Z).

(** ** Process_Cluster *)

(** The body of the loop over [j]: candidate predecessor [A[j]] for [A[i]]. *)
Definition score_step (j : nat) (aj ai : Match_t) : Match_t :=
  let Olap1 := Start1 aj + Len aj - Start1 ai in
  let Olap := Z.max 0 Olap1 in
  let Olap2 := Start2 aj + Len aj - Start2 ai in
  let Olap := Z.max Olap Olap2 in
  let Pen := Olap + Z.abs ((Start2 ai - Start1 ai) - (Start2 aj - Start1 aj)) in
  if Simple_Score aj + Len ai - Pen >? Simple_Score ai
  then set_Simple (Simple_Score aj + Len ai - Pen) (Z.of_nat j) Olap ai
  else ai.

(** [for (j = 0; j < i; j++)]; [fuel] is [i - j]. *)
Fixpoint score_inner (fuel : nat) (A : list Match_t) (i j : nat) : list Match_t :=
  match fuel with
  | O => A
  | S fuel' =>
    match A !! j, A !! i with
    | Some aj, Some ai => score_inner fuel' (<[i := score_step j aj ai]> A) i (S j)
    | _, _ => A
    end
  end.

(** [for (i = 0; i < N; i++)]; [fuel] is [N - i]. *)
Fixpoint score_loop (fuel : nat) (A : list Match_t) (i : nat) : list Match_t :=
  match fuel with
  | O => A
  | S fuel' =>
    match A !! i with
    | Some ai =>
      score_loop fuel'
        (score_inner i (<[i := set_Simple (Len ai) (-1) 0 ai]> A) i 0) (S i)
    | None => A
    end
  end.

(** [best = 0; for (i = 1; i < N; i++) if (A[i].Simple_Score > A[best].Simple_Score) best = i;] *)
Fixpoint best_loop (fuel : nat) (A : list Match_t) (best i : nat) : nat :=
  match fuel with
  | O => best
  | S fuel' =>
    match A !! i, A !! best with
    | Some ai, Some ab =>
      best_loop fuel' A (if Simple_Score ai >? Simple_Score ab then i else best) (S i)
    | _, _ => best
    end
  end.

(** [for (i = best; i >= 0; i = A[i].Simple_From)]: marks the chain [Good]
    and accumulates [total], [hi], [lo].  [None] is a read outside the
    array or a walk longer than [fuel] steps. *)
Fixpoint walk (fuel : nat) (A : list Match_t) (i : Z) (total hi lo : Z)
    : option (list Match_t * Z * Z * Z) :=
  if i <? 0 then Some (A, total, hi, lo)
  else
    match fuel with
    | O => None
    | S fuel' =>
      match A !! Z.to_nat i with
      | Some ai =>
        let hi' := if Start1 ai + Len ai >? hi then Start1 ai + Len ai else hi in
        let lo' := if Start1 ai <? lo then Start1 ai else lo in
        walk fuel' (<[Z.to_nat i := set_Good true ai]> A) (Simple_From ai)
             (total + Len ai) hi' lo'
      | None => None
      end
    end.

(** The line printed for [A[i]] when the previous printed match is [prev]. *)
Definition print_match (A : list Match_t) (ai : Match_t) (prev : Z) : out_line :=
  if prev =? -1 then First_line (Start1 ai) (Start2 ai) (Len ai)
  else
    let adj := Simple_Adj ai in
    let ap := default ai (A !! Z.to_nat prev) in
    Next_line (Start1 ai + adj) (Start2 ai + adj) (Len ai - adj)
              (if adj =? 0 then None else Some (- adj))
              (Start1 ai + adj - Start1 ap - Len ap)
              (Start2 ai + adj - Start2 ap - Len ap).

(** [prev = -1; for (i = 0; i < N; i++) if (A[i].Good) { ...; prev = i; }] *)
Fixpoint print_loop (fuel : nat) (A : list Match_t) (i : nat) (prev : Z)
    : list out_line :=
  match fuel with
  | O => []
  | S fuel' =>
    match A !! i with
    | Some ai =>
      if Good ai
      then print_match A ai prev :: print_loop fuel' A (S i) (Z.of_nat i)
      else print_loop fuel' A (S i) prev
    | None => []
    end
  end.

(** Scoring, choice of the best end and the walk back: the array with the
    chain marked, and [total], [hi], [lo]. *)
Definition select_chain (A : list Match_t) : option (list Match_t * Z * Z * Z) :=
  let A1 := score_loop (length A) A 0 in
  let best := best_loop (length A - 1) A1 0 1 in
  walk (length A) A1 (Z.of_nat best) 0 LONG_MIN LONG_MAX.

Definition chain_score (cfg : config) (total hi lo : Z) : Z :=
  let extent := hi - lo in
  if Use_Extents cfg then extent else total.

(** The [do { ... } while (N > 0)] loop; the result is [print_ct] and the
    lines written.  [None] is a failure of [walk] or more than [fuel]
    iterations. *)
Fixpoint cluster_loop (fuel : nat) (cfg : config) (A : list Match_t)
    (label : string) (print_ct : Z) : option (Z * list out_line) :=
  match fuel with
  | O => None
  | S fuel' =>
    do (A1, total, hi, lo) <- select_chain A;
    let score := chain_score cfg total hi lo in
    let '(print_ct', out, label') :=
      if score >=? Min_Output_Score cfg
      then (print_ct + 1,
            Label_line label :: print_loop (length A1) A1 0 (-1), "#"%string)
      else (print_ct, [], label) in
    let A2 := pack (fun m => negb (Good m)) A1 in
    if (0 <? length A2)%nat
    then do (ct, out') <- cluster_loop fuel' cfg A2 label' print_ct';
         Some (ct, out ++ out')
    else Some (print_ct', out)
  end.

Definition Process_Cluster (cfg : config) (A : list Match_t) (label : string)
    : option (Z * list out_line) :=
  cluster_loop (length A) cfg A label 0.

(** ** UnionFind

    [m_UF] is a list of [int]; a negative entry is a root holding minus the
    size of its set, a positive entry is the parent.  A read outside the
    vector is a failure. *)
Definition uf_get (uf : list Z) (a : Z) : option Z :=
  if a <? 0 then None else uf !! Z.to_nat a.

(** A write [m_UF[a] = v].  In [find] and [union_sets] every write follows a
    read of the same cell, so it is inside the vector whenever the function
    has not failed. *)
Definition uf_set (uf : list Z) (a v : Z) : list Z := <[Z.to_nat a := v]> uf.

(** [reset(s)]: [s + 1] entries [-1]; [None] is [assert (s >= 1 && m_UF[1] == -1)]. *)
Definition reset (s : nat) : option (list Z) :=
  if (1 <=? s)%nat then Some (replicate (S s) (-1)) else None.

(** [for (i = a; m_UF[i] > 0; i = m_UF[i]);] *)
Fixpoint find_root (fuel : nat) (uf : list Z) (i : Z) : option Z :=
  match fuel with
  | O => None
  | S fuel' =>
    do p <- uf_get uf i;
    if p >? 0 then find_root fuel' uf p else Some i
  end.

(** [for (int k, j = a; m_UF[j] != i; j = k) { k = m_UF[j]; m_UF[j] = i; }] *)
Fixpoint compress (fuel : nat) (uf : list Z) (j i : Z) : option (list Z) :=
  match fuel with
  | O => None
  | S fuel' =>
    do k <- uf_get uf j;
    if negb (k =? i) then compress fuel' (uf_set uf j i) k i else Some uf
  end.

(** [find(a)]: the vector after path compression and the root. *)
Definition find (uf : list Z) (a : Z) : option (list Z * Z) :=
  do p <- uf_get uf a;
  if p <? 0 then Some (uf, a)
  else
    do i <- find_root (length uf) uf a;
    do uf' <- compress (length uf) uf a i;
    Some (uf', i).

(** [union_sets(a, b)]; [None] is the failure of
    [assert (m_UF[a] < 0 && m_UF[b] < 0)] or a read outside the vector. *)
Definition union_sets (uf : list Z) (a b : Z) : option (list Z) :=
  if a =? b then Some uf
  else
    do pa <- uf_get uf a;
    do pb <- uf_get uf b;
    if negb ((pa <? 0) && (pb <? 0)) then None
    else if pa <? pb
         then Some (uf_set (uf_set uf a (pa + pb)) b a)
         else Some (uf_set (uf_set uf b (pb + pa)) a b).

(** ** Process_Matches

    The code addresses the matches as [A[1 .. N]]; the list holds them at
    positions [0 .. N-1], so the match at list position [p] is the element
    [p + 1] of the union-find structure. *)

(** The test of the clustering loop for the pair [A[i]], [A[j]]:
    [diag_diff <= std::max (Fixed_Separation, (int)(Separation_Factor * sep))]. *)
Definition joinable (cfg : config) (i_diag sep : Z) (aj : Match_t) : bool :=
  let diag_diff := Z.abs ((Start2 aj - Start1 aj) - i_diag) in
  diag_diff <=? Z.max (Fixed_Separation cfg)
                      (double_to_int (double_mul (Separation_Factor cfg)
                                                 (long_to_double sep))).

(** [UF.union_sets(UF.find(i), UF.find(j))].  C++ leaves the order of the
    two calls of [find] open; here the left one is made first.  A call of
    [find] changes no root, so the two roots passed on are the same in either
    order. *)
Definition join (uf : list Z) (i j : Z) : option (list Z) :=
  do (uf1, ri) <- find uf i;
  do (uf2, rj) <- find uf1 j;
  union_sets uf2 ri rj.

(** [for (j = i + 1; j <= N; j++)] with its [break]; [fuel] is [N + 1 - j]. *)
Fixpoint join_inner (fuel : nat) (cfg : config) (A : list Match_t)
    (uf : list Z) (i : nat) (i_end i_diag : Z) (j : nat) : option (list Z) :=
  match fuel with
  | O => Some uf
  | S fuel' =>
    match A !! j with
    | Some aj =>
      let sep := Start2 aj - i_end in
      if sep >? Max_Separation cfg then Some uf
      else
        do uf' <- (if joinable cfg i_diag sep aj
                   then join uf (Z.of_nat (S i)) (Z.of_nat (S j))
                   else Some uf);
        join_inner fuel' cfg A uf' i i_end i_diag (S j)
    | None => Some uf
    end
  end.

(** [for (i = 1; i < N; i++)]; [fuel] is [N - i]. *)
Fixpoint join_loop (fuel : nat) (cfg : config) (A : list Match_t)
    (uf : list Z) (i : nat) : option (list Z) :=
  match fuel with
  | O => Some uf
  | S fuel' =>
    match A !! i with
    | Some ai =>
      let i_end := Start2 ai + Len ai in
      let i_diag := Start2 ai - Start1 ai in
      do uf' <- join_inner (length A - S i) cfg A uf i i_end i_diag (S i);
      join_loop fuel' cfg A uf' (S i)
    | None => Some uf
    end
  end.

(** [for (i = 1; i <= N; i++) A[i].cluster_id = UF.find(i);] *)
Fixpoint assign_loop (fuel : nat) (A : list Match_t) (uf : list Z) (i : nat)
    : option (list Match_t * list Z) :=
  match fuel with
  | O => Some (A, uf)
  | S fuel' =>
    match A !! i with
    | Some ai =>
      do (uf', r) <- find uf (Z.of_nat (S i));
      assign_loop fuel' (<[i := set_cluster_id (to_bits30 r) ai]> A) uf' (S i)
    | None => Some (A, uf)
    end
  end.

(** The clustering stage on the filtered matches: unions, then cluster ids. *)
Definition Build_Clusters (cfg : config) (A : list Match_t) (uf : list Z)
    : option (list Match_t * list Z) :=
  do uf' <- join_loop (length A - 1) cfg A uf 0;
  assign_loop (length A) A uf' 0.

(** [for (j = i + 1; j <= N && A[i].cluster_id == A[j].cluster_id; j++);] *)
Fixpoint run_end (fuel : nat) (A : list Match_t) (ci : Z) (j : nat) : nat :=
  match fuel with
  | O => j
  | S fuel' =>
    match A !! j with
    | Some aj => if ci =? cluster_id aj then run_end fuel' A ci (S j) else j
    | None => j
    end
  end.

(** [for (i = 1; i <= N; i += cluster_size)]: each run of equal cluster ids
    is handed to [Process_Cluster], which works inside its own slice.
    [None] is a failure of [Process_Cluster] or a loop of more than [fuel]
    rounds. *)
Fixpoint clusters_loop (fuel : nat) (cfg : config) (A : list Match_t) (i : nat)
    (label : string) (print_ct : Z) : option (Z * list out_line) :=
  match A !! i with
  | None => Some (print_ct, [])
  | Some ai =>
    match fuel with
    | O => None
    | S fuel' =>
      let j := run_end (length A - S i) A (cluster_id ai) (S i) in
      let cluster_size := (j - i)%nat in
      do (ct, out) <- Process_Cluster cfg (take cluster_size (drop i A)) label;
      let print_ct' := print_ct + ct in
      let label' := if print_ct' >? 0 then "#"%string else label in
      do (ct', out') <- clusters_loop fuel' cfg A (i + cluster_size) label' print_ct';
      Some (ct', out ++ out')
    end
  end.

(** The part of [Process_Matches] before the loop over the clusters, for
    [N > 0]: [UF.reset(N)], [qsort] by [Start2], [Filter_Matches], the
    clustering stage and [qsort] by cluster.  The result is [A[1 .. N]] for
    the new value of [N]. *)
Definition Query_Clusters (cfg : config) (A : list Match_t)
    : option (list Match_t) :=
  do uf <- reset (length A);
  let A1 := qsort By_Start2 A in
  do A2 <- Filter_Matches A1;
  do (A3, _) <- Build_Clusters cfg A2 uf;
  Some (qsort By_Cluster A3).

Definition Process_Matches (cfg : config) (A : list Match_t) (label : string)
    : option (list out_line) :=
  if (length A =? 0)%nat then Some [Label_line label]
  else
    do A4 <- Query_Clusters cfg A;
    do (print_ct, out) <- clusters_loop (length A4) cfg A4 0 label 0;
    Some (if print_ct =? 0 then out ++ [Label_line label] else out).

(** ** main

    [std::cin] is the text not yet read.  [Parse_Command_Line] has set the
    statics before the first read; they are the parameters [cfg] and
    [Check_Labels] here. *)

(** [std::cin.peek()]: the next character, [None] for [EOF]. *)
Definition peek (s : string) : option ascii :=
  match s with
  | EmptyString => None
  | String c _ => Some c
  end.

(** [std::getline(std::cin, line)]: the characters before the first newline
    and the text after it.  On exhausted input the call fails; [main] makes
    such a call only in its first loop, where the line is not looked at. *)
Fixpoint getline (s : string) : string * string :=
  match s with
  | EmptyString => (EmptyString, EmptyString)
  | String c s' =>
    if Ascii.eqb c "010"%char then (EmptyString, s')
    else let '(l, r) := getline s' in (String c l, r)
  end.

(** [s.c_str()] read as a C string: the characters before the first NUL. *)
Fixpoint c_str (s : string) : string :=
  match s with
  | EmptyString => EmptyString
  | String c s' => if Ascii.eqb c "000"%char then EmptyString else String c (c_str s')
  end.

(** [strstr (hay, needle) != NULL]. *)
Fixpoint strstr (hay needle : string) : bool :=
  String.prefix needle hay ||
  match hay with
  | EmptyString => false
  | String _ hay' => strstr hay' needle
  end.

(** The loop test [c != '>' && c != EOF]. *)
Definition not_header (c : option ascii) : bool :=
  match c with
  | Some ch => negb (Ascii.eqb ch ">"%char)
  | None => false
  end.

(** How a run of [main] ends: normally with the lines written, by a failed
    assertion, or not within the given number of loop rounds. *)
Inductive run :=
| Finished (out : list out_line)
| Aborted
| Unfinished.

Section Main.

(** [sscanf (line.c_str(), "%ld %ld %ld", &S1, &S2, &Len) == 3], with the
    three numbers read. *)
Variable sscanf : string -> option (Z * Z * Z).
Variable cfg : config.
Variable Check_Labels : bool.

(** [while (c != '>' && c != EOF) std::getline(std::cin, line);] -- the
    loop does not assign [c]. *)
Fixpoint skip_loop (fuel : nat) (c : option ascii) (s : string) : option string :=
  if not_header c then
    match fuel with
    | O => None
    | S fuel' => skip_loop fuel' c (snd (getline s))
    end
  else Some s.

(** [for (c = peek(); c != '>' && c != EOF; c = peek()) { getline; sscanf; push_back }]:
    the rest of the input and the vector. *)
Fixpoint read_matches (fuel : nat) (s : string) (A : list Match_t)
    : option (string * list Match_t) :=
  if not_header (peek s) then
    match fuel with
    | O => None
    | S fuel' =>
      let '(line, s') := getline s in
      read_matches fuel' s'
        (match sscanf (c_str line) with
         | Some (S1, S2, L) => A ++ [new_Match S1 S2 L]
         | None => A
         end)
    end
  else Some (s, A).

(** The body of [while (c != EOF)], entered with unread input [s]. *)
Fixpoint query_loop (fuel : nat) (s : string) (header_line_ct : Z) : run :=
  match fuel with
  | O => Unfinished
  | S fuel' =>
    let '(header, s1) := getline s in
    let ct := if Check_Labels then header_line_ct + 1 else header_line_ct in
    if Check_Labels && (Z.rem ct 2 =? 0) && negb (strstr (c_str header) "Reverse")
    then Aborted
    else
      match read_matches (String.length s1) s1 [] with
      | None => Unfinished
      | Some (s2, A) =>
        match Process_Matches cfg A (c_str header) with
        | None => Aborted
        | Some out =>
          match peek s2 with
          | None => Finished out
          | Some _ =>
            match query_loop fuel' s2 ct with
            | Finished rest => Finished (out ++ rest)
            | r => r
            end
          end
        end
      end
  end.

Definition main (fuel : nat) (input : string) : run :=
  let c := peek input in
  match skip_loop fuel c input with
  | None => Unfinished
  | Some s =>
    match c with
    | None => Finished []
    | Some _ => query_loop fuel s 0
    end
  end.

End Main.

(** * Specification vocabulary *)

(** Boolean tests of the code as propositions. *)
Ltac zbool :=
  repeat match goal with
  | H : negb _ = true |- _ => apply negb_true_iff in H
  | H : negb _ = false |- _ => apply negb_false_iff in H
  | H : andb _ _ = true |- _ => apply andb_true_iff in H; destruct H
  | H : (_ <=? _) = true |- _ => apply Z.leb_le in H
  | H : (_ <=? _) = false |- _ => apply Z.leb_gt in H
  | H : (_ <? _) = true |- _ => apply Z.ltb_lt in H
  | H : (_ <? _) = false |- _ => apply Z.ltb_ge in H
  | H : (_ =? _) = true |- _ => apply Z.eqb_eq in H
  | H : (_ =? _) = false |- _ => apply Z.eqb_neq in H
  | H : (_ >? _) = _ |- _ => rewrite Z.gtb_ltb in H
  | H : (_ >=? _) = _ |- _ => rewrite Z.geb_leb in H
  end.

(** ** For [Filter_Matches] *)

(** [x'] differs from [x] in its flags at most, and is not more [Good]. *)
Definition flag_only (x x' : Match_t) : Prop :=
  Start1 x' = Start1 x /\ Start2 x' = Start2 x /\ Len x' = Len x /\
  (Good x' = true -> Good x = true).

(** [R] holds of every two elements, the earlier one first. *)
Definition ordpairs {T} (R : T -> T -> Prop) (l : list T) : Prop :=
  forall a b x y, (a < b)%nat -> l !! a = Some x -> l !! b = Some y -> R x y.

(** The precondition of [Filter_Matches]: sorted by [Start2]. *)
Definition sorted2 (A : list Match_t) : Prop :=
  ordpairs (fun x y => Start2 x <= Start2 y) A.

(** Matches whose coordinates and ends fit the [int] temporaries of
    [Filter_Matches]. *)
Definition valid (m : Match_t) : Prop :=
  0 <= Start1 m /\ 0 <= Start2 m /\ 0 <= Len m /\
  Start1 m + Len m < 2 ^ 31 /\ Start2 m + Len m < 2 ^ 31.

(** Two matches on one diagonal: the later one starts after the end of the
    earlier one on the query axis. *)
Definition apart (x y : Match_t) : Prop :=
  diag x = diag y -> Start2 x + Len x < Start2 y.

(** The diagonal invariant: any two matches on one diagonal are apart. *)
Definition separated (A : list Match_t) : Prop := ordpairs apart A.

(** The same for the live matches, the earlier one before index [i]. *)
Definition sep_upto (i : nat) (A : list Match_t) : Prop :=
  forall a b x y, (a < i)%nat -> (a < b)%nat ->
    A !! a = Some x -> A !! b = Some y ->
    Good x = true -> Good y = true -> apart x y.

(** The invariant of the inner loop of [Filter_Matches] at index [j], on
    sorted matches that fit [int]. *)
Definition scan_inv (N i : nat) (i_diag : Z) (A : list Match_t) (e : Z)
    (j : nat) : Prop :=
  length A = N /\ sorted2 A /\ Forall valid A /\ (i < j)%nat /\ sep_upto i A /\
  exists ai, A !! i = Some ai /\ Good ai = true /\ i_diag = diag ai /\
    e = Start2 ai + Len ai /\
    forall b y, (i < b < j)%nat -> A !! b = Some y -> Good y = true ->
      diag y <> diag ai.

(** What the inner loop for [A[i]] leaves behind. *)
Definition scan_post (N i : nat) (A : list Match_t) : Prop :=
  length A = N /\ sorted2 A /\ Forall valid A /\ sep_upto (S i) A.

(** The same two notions as the filter sees them through its [int]
    temporaries [i_diag], [j_diag] and [i_end]: the later match starts past
    the [int] end of the earlier one, or lies on another [int] diagonal.  On
    matches that fit [int] this is [apart]. *)
Definition apart_int (x y : Match_t) : Prop :=
  Start2 y <= to_int (Start2 x + Len x) -> to_int (diag x) <> to_int (diag y).

Definition separated_int (A : list Match_t) : Prop := ordpairs apart_int A.

Definition sep_upto_int (i : nat) (A : list Match_t) : Prop :=
  forall a b x y, (a < i)%nat -> (a < b)%nat ->
    A !! a = Some x -> A !! b = Some y ->
    Good x = true -> Good y = true -> apart_int x y.

(** The invariant of the inner loop of [Filter_Matches] at index [j], on
    sorted matches of any size. *)
Definition scan_inv_int (N i : nat) (i_diag : Z) (A : list Match_t) (e : Z)
    (j : nat) : Prop :=
  length A = N /\ sorted2 A /\ (i < j)%nat /\ sep_upto_int i A /\
  exists ai, A !! i = Some ai /\ Good ai = true /\ i_diag = to_int (diag ai) /\
    e = to_int (Start2 ai + Len ai) /\
    forall b y, (i < b < j)%nat -> A !! b = Some y -> Good y = true ->
      to_int (diag y) <> i_diag.

Definition scan_post_int (N i : nat) (A : list Match_t) : Prop :=
  length A = N /\ sorted2 A /\ sep_upto_int (S i) A.

(** The inner loop on matches that are [separated_int]: no merge happens,
    only flags change. *)
Definition quiet_inv (A0 : list Match_t) (i : nat) (i_diag : Z) (e0 : Z)
    (A : list Match_t) (e : Z) (j : nat) : Prop :=
  map triple A = map triple A0 /\ (i < j)%nat /\ e = e0 /\
  exists ai, A !! i = Some ai /\ i_diag = to_int (diag ai) /\
             e = to_int (Start2 ai + Len ai).

(** Decidable form of [sorted2], for concrete inputs. *)
Fixpoint sorted2b (A : list Match_t) : bool :=
  match A with
  | [] => true
  | x :: l => forallb (fun y => Start2 x <=? Start2 y) l && sorted2b l
  end.

(** Decidable form of [Forall valid]. *)
Fixpoint validb (A : list Match_t) : bool :=
  match A with
  | [] => true
  | m :: l =>
    (0 <=? Start1 m) && (0 <=? Start2 m) && (0 <=? Len m)
    && (Start1 m + Len m <? 2 ^ 31) && (Start2 m + Len m <? 2 ^ 31) && validb l
  end.

(** ** For [Process_Cluster] *)

(** The adjustment recorded for [ai] when its predecessor is [aj]. *)
Definition olap (aj ai : Match_t) : Z :=
  Z.max (Z.max 0 (Start1 aj + Len aj - Start1 ai))
        (Start2 aj + Len aj - Start2 ai).

(** [x'] is [x] up to the three [Simple_] fields. *)
Definition same_base (x x' : Match_t) : Prop :=
  triple x' = triple x /\ Good x' = Good x.

(** What scoring leaves in [A[i]]: no predecessor, or an earlier index and
    the overlap with the match there. *)
Definition linkdata (A : list Match_t) (i : nat) (x : Match_t) : Prop :=
  Simple_From x = -1 \/
  exists j aj, Simple_From x = Z.of_nat j /\ (j < i)%nat /\
               A !! j = Some aj /\ Simple_Adj x = olap aj x.

(** The array after the scoring loops. *)
Definition scored (A : list Match_t) : Prop :=
  forall i x, A !! i = Some x -> linkdata A i x.

(** The state of the scoring loop at index [i]: the cells below [i] are
    scored, every cell has its coordinates, length and [Good] flag. *)
Definition score_inv (A0 A : list Match_t) (i : nat) : Prop :=
  Forall2 same_base A0 A /\
  forall p x, (p < i)%nat -> A !! p = Some x -> linkdata A p x.

(** The marked matches form one chain: each one names the previous marked
    match as its predecessor, the first one has none. *)
Definition chained_to (i : Z) (A : list Match_t) : Prop :=
  forall q x, A !! q = Some x -> Good x = true ->
    (forall p y, Simple_From x < Z.of_nat p -> (p < q)%nat ->
                 A !! p = Some y -> Good y = false) /\
    (Simple_From x = i \/
     exists j aj, Simple_From x = Z.of_nat j /\ A !! j = Some aj /\ Good aj = true).

(** The invariant of the walk when [i] is the next index to mark: nothing
    at or below [i] is marked, and the marked matches are chained to [i]. *)
Definition walk_inv (A : list Match_t) (i : Z) : Prop :=
  scored A /\ i < Z.of_nat (length A) /\
  (forall p y, Z.of_nat p <= i -> A !! p = Some y -> Good y = false) /\
  chained_to i A.

(** [x'] is [x], possibly marked. *)
Definition marked (x x' : Match_t) : Prop := x' = x \/ x' = set_Good true x.

(** The output read as chains: [last] holds the two ends of the record just
    written, [None] after a label line.  A record that is not the first of
    its chain starts, on both axes, at or after the end of the one before. *)
Inductive well_chained : option (Z * Z) -> list out_line -> Prop :=
| wc_nil last : well_chained last []
| wc_label last l rest :
    well_chained None rest -> well_chained last (Label_line l :: rest)
| wc_first s1 s2 len rest :
    well_chained (Some (s1 + len, s2 + len)) rest ->
    well_chained None (First_line s1 s2 len :: rest)
| wc_next e1 e2 s1 s2 len adj g1 g2 rest :
    e1 <= s1 -> e2 <= s2 ->
    well_chained (Some (s1 + len, s2 + len)) rest ->
    well_chained (Some (e1, e2)) (Next_line s1 s2 len adj g1 g2 :: rest).

(** Two consecutive output lines: a later record of a chain follows a record
    and does not overlap it. *)
Definition follows (r1 r2 : out_line) : Prop :=
  match r2 with
  | Next_line s1 s2 len _ _ _ =>
    match r1 with
    | First_line p1 p2 plen | Next_line p1 p2 plen _ _ _ =>
      p1 + plen <= s1 /\ p2 + plen <= s2
    | Label_line _ => False
    end
  | _ => True
  end.

(** Output that is empty or begins with a label line. *)
Definition starts_with_label (out : list out_line) : Prop :=
  match out with
  | [] | Label_line _ :: _ => True
  | _ => False
  end.

(** The previous printed match, as the print loop knows it at index [i]. *)
Definition prev_ok (A : list Match_t) (i : nat) (prev : Z) : Prop :=
  (prev = -1 /\
   forall p y, (p < i)%nat -> A !! p = Some y -> Good y = false)
  \/ (exists n ap, prev = Z.of_nat n /\ (n < i)%nat /\ A !! n = Some ap /\
        Good ap = true /\
        forall p y, (n < p < i)%nat -> A !! p = Some y -> Good y = false).

(** The two ends of the record printed for [A[prev]]. *)
Definition prev_end (A : list Match_t) (prev : Z) : option (Z * Z) :=
  if prev =? -1 then None
  else (fun ap => (Start1 ap + Len ap, Start2 ap + Len ap)) <$> A !! Z.to_nat prev.

(** The match an output record was printed from: the adjustment is undone. *)
Definition source_of (r : out_line) : option (Z * Z * Z) :=
  match r with
  | Label_line _ => None
  | First_line s1 s2 len => Some (s1, s2, len)
  | Next_line s1 s2 len adj _ _ =>
    let a := match adj with None => 0 | Some v => - v end in
    Some (s1 - a, s2 - a, len + a)
  end.

(** The chains selected by the rounds of the loop of [Process_Cluster], in
    order: the marked matches of the round with [total], [hi] and [lo]. *)
Fixpoint selected_chains (fuel : nat) (A : list Match_t)
    : option (list (list Match_t * Z * Z * Z)) :=
  match fuel with
  | O => None
  | S fuel' =>
    do (A1, total, hi, lo) <- select_chain A;
    let A2 := pack (fun m => negb (Good m)) A1 in
    if (0 <? length A2)%nat
    then do rest <- selected_chains fuel' A2;
         Some ((List.filter Good A1, total, hi, lo) :: rest)
    else Some [(List.filter Good A1, total, hi, lo)]
  end.

(** The matches of a selected chain, as [(Start1, Start2, Len)]. *)
Definition members (c : list Match_t * Z * Z * Z) : list (Z * Z * Z) :=
  map triple (fst (fst (fst c))).

(** The test [score >= Min_Output_Score] for a selected chain. *)
Definition emitted (cfg : config) (c : list Match_t * Z * Z * Z) : bool :=
  let '(_, total, hi, lo) := c in
  chain_score cfg total hi lo >=? Min_Output_Score cfg.

(** ** For [UnionFind] and the clustering loops *)

(** [root_n uf a r d]: following the parents from [a] reaches the root [r]
    in [d] steps. *)
Inductive root_n (uf : list Z) : Z -> Z -> nat -> Prop :=
| rn_root a p : uf_get uf a = Some p -> p < 0 -> root_n uf a a 0
| rn_step a p r d :
    uf_get uf a = Some p -> 0 < p -> root_n uf p r d -> root_n uf a r (S d).

(** [r] is the root of the set of [a], what [find(a)] returns. *)
Definition root_of (uf : list Z) (a r : Z) : Prop := exists d, root_n uf a r d.

(** The representation invariant for [N] elements: [N + 1] entries; each of
    the elements [1 .. N] is a root or has a parent among them of larger
    [rank]. *)
Definition uf_ranked (N : nat) (uf : list Z) (rank : Z -> nat) : Prop :=
  length uf = S N /\
  forall a, 1 <= a <= Z.of_nat N ->
    exists p, uf_get uf a = Some p /\
      (p < 0 \/ (1 <= p <= Z.of_nat N /\ (rank a < rank p)%nat)).

Definition uf_wf (N : nat) (uf : list Z) : Prop := exists rank, uf_ranked N uf rank.

(** What [union_sets] asserts of each argument: a negative entry. *)
Definition is_root (uf : list Z) (a : Z) : Prop :=
  exists p, uf_get uf a = Some p /\ p < 0.

(** [x] and [y] have the same root. *)
Definition same_set (uf : list Z) (x y : Z) : Prop :=
  exists r, root_of uf x r /\ root_of uf y r.

(** Two vectors with the same roots for the elements [1 .. N]. *)
Definition same_roots (N : nat) (uf uf' : list Z) : Prop :=
  forall x r, 1 <= x <= Z.of_nat N -> (root_of uf x r <-> root_of uf' x r).

(** The union-find element of the match at list position [p]. *)
Definition node (p : nat) : Z := Z.of_nat (S p).

(** The product [factor * sep] as the machine forms it: both operands in
    [double], the product rounded to [double], the fraction dropped and the
    result stored in an [int]. *)
Definition machine_product (factor : spec_float) (sep : Z) : Z :=
  double_to_int (double_mul factor (long_to_double sep)).

(** The later match [A[q]] is proximate to the earlier match [A[p]]: the gap
    between them on the query axis is at most the maximum separation, and
    their diagonals differ by at most the larger of the fixed separation and
    the machine product of the separation factor and the gap. *)
Definition proximate (cfg : config) (A : list Match_t) (p q : nat) : Prop :=
  exists ap aq, A !! p = Some ap /\ A !! q = Some aq /\ (p < q)%nat /\
    let sep := Start2 aq - (Start2 ap + Len ap) in
    sep <= Max_Separation cfg /\
    Z.abs (diag aq - diag ap)
      <= Z.max (Fixed_Separation cfg) (machine_product (Separation_Factor cfg) sep).

(** Connected by a chain of proximate pairs. *)
Definition connected (cfg : config) (A : list Match_t) : nat -> nat -> Prop :=
  clos_refl_sym_trans nat (proximate cfg A).

(** The number a finite double stands for. *)
Definition double_value (x : spec_float) : option Q :=
  match x with
  | S754_zero _ => Some 0%Q
  | S754_finite s m e =>
    Some (inject_Z (if s then Z.neg m else Z.pos m) * Qpower 2 e)%Q
  | _ => None
  end.

(** Proximity with the product taken exactly: the diagonals differ by at
    most the larger of the fixed separation and [factor * sep], a rational
    number. *)
Definition proximate_exact (fixed max_sep : Z) (factor : Q) (A : list Match_t)
    (p q : nat) : Prop :=
  exists ap aq, A !! p = Some ap /\ A !! q = Some aq /\ (p < q)%nat /\
    let sep := Start2 aq - (Start2 ap + Len ap) in
    sep <= max_sep /\
    (inject_Z (Z.abs (diag aq - diag ap))
       <= Qmax (inject_Z fixed) (factor * inject_Z sep))%Q.

Definition connected_exact (fixed max_sep : Z) (factor : Q) (A : list Match_t)
    : nat -> nat -> Prop :=
  clos_refl_sym_trans nat (proximate_exact fixed max_sep factor A).

(** The pairs the clustering loops have looked at when the outer loop is at
    [i] and the inner loop at [j]. *)
Definition joined_upto (cfg : config) (A : list Match_t) (i j : nat)
    (p q : nat) : Prop :=
  proximate cfg A p q /\ ((p < i)%nat \/ (p = i /\ (q < j)%nat)).

(** The sets of the structure are the components of the edges [E]. *)
Definition cluster_inv (N : nat) (A : list Match_t) (uf : list Z)
    (E : nat -> nat -> Prop) : Prop :=
  uf_wf N uf /\
  forall p q, (p < length A)%nat -> (q < length A)%nat ->
    (same_set uf (node p) (node q) <-> clos_refl_sym_trans nat E p q).

(** ** For [Process_Matches] *)

(** What the lines say about the counter: lines are written only together
    with an increment, and the first line written is the label. *)
Definition counted (label : string) (print_ct ct : Z) (out : list out_line) : Prop :=
  print_ct <= ct /\ (ct = print_ct -> out = []) /\
  (print_ct < ct -> exists rest, out = Label_line label :: rest).

(** The chains selected for one cluster and for a whole query: those of
    every cluster, in the order of the loop over the clusters. *)
Definition cluster_chains (A : list Match_t)
    : option (list (list Match_t * Z * Z * Z)) :=
  selected_chains (length A) A.

Fixpoint clusters_chains (fuel : nat) (A : list Match_t) (i : nat)
    : option (list (list Match_t * Z * Z * Z)) :=
  match A !! i with
  | None => Some []
  | Some ai =>
    match fuel with
    | O => None
    | S fuel' =>
      let j := run_end (length A - S i) A (cluster_id ai) (S i) in
      let cluster_size := (j - i)%nat in
      do cs <- cluster_chains (take cluster_size (drop i A));
      do rest <- clusters_chains fuel' A (i + cluster_size);
      Some (cs ++ rest)
    end
  end.

(** ** More for [Filter_Matches] *)

(** [x'] is [x] with a length that has not shrunk: what the merging of
    [Filter_Matches] does to a match it keeps. *)
Definition grown (x x' : Match_t) : Prop :=
  Start1 x' = Start1 x /\ Start2 x' = Start2 x /\ Len x <= Len x'.

(** Two matches that share no diagonal and no start: the filter has no rule
    for such a pair. *)
Definition unrelated (x y : Match_t) : Prop :=
  diag x <> diag y /\ Start1 x <> Start1 y /\ Start2 x <> Start2 y.

(** Some match of the array is still [Good]. *)
Definition some_Good (A : list Match_t) : Prop :=
  exists p x, A !! p = Some x /\ Good x = true.

(** ** More for [UnionFind] *)

(** [l] lists, without repetition, the elements of [1 .. N] whose root is [r]. *)
Definition set_of (N : nat) (uf : list Z) (r : Z) (l : list Z) : Prop :=
  NoDup l /\ forall x, x ∈ l <-> 1 <= x <= Z.of_nat N /\ root_of uf x r.

(** Every root holds minus the number of elements of its set. *)
Definition uf_sized (N : nat) (uf : list Z) : Prop :=
  forall r p, 1 <= r <= Z.of_nat N -> uf_get uf r = Some p -> p < 0 ->
    exists l, set_of N uf r l /\ p = - Z.of_nat (length l).

(** The vectors a caller can build: [reset(N)], then calls of [find] and
    [union_sets] on elements of [1 .. N] that return normally. *)
Inductive uf_reachable (N : nat) : list Z -> Prop :=
| ur_reset uf : reset N = Some uf -> uf_reachable N uf
| ur_find uf a uf' r :
    uf_reachable N uf -> 1 <= a <= Z.of_nat N ->
    find uf a = Some (uf', r) -> uf_reachable N uf'
| ur_union uf a b uf' :
    uf_reachable N uf -> 1 <= a <= Z.of_nat N -> 1 <= b <= Z.of_nat N ->
    union_sets uf a b = Some uf' -> uf_reachable N uf'.

(** Union by size keeps the trees shallow: an element [d] steps below its
    root belongs to a set of at least [2^d] elements. *)
Definition uf_balanced (uf : list Z) : Prop :=
  forall x r d p, root_n uf x r d -> uf_get uf r = Some p ->
    2 ^ Z.of_nat d <= - p.

(** ** More for [Process_Cluster] *)

(** The penalty [Pen] of the scoring loop for placing [ai] directly after
    [aj] in a chain: their overlap plus the distance of their diagonals. *)
Definition penalty (aj ai : Match_t) : Z :=
  olap aj ai + Z.abs (diag ai - diag aj).

(** The value of the chain that ends with [x] and visits, before it and
    from the last one back to the first, the matches [c]: the lengths minus
    the penalties of neighbours. *)
Fixpoint chain_value (x : Match_t) (c : list Match_t) : Z :=
  match c with
  | [] => Len x
  | y :: c' => chain_value y c' + Len x - penalty y x
  end.

(** [chain_to A i s]: a chain of matches of [A], taken in array order and
    ending with [A[i]], has value [s]. *)
Inductive chain_to (A : list Match_t) : nat -> Z -> Prop :=
| ct_single i x : A !! i = Some x -> chain_to A i (Len x)
| ct_link j i aj ai s :
    (j < i)%nat -> A !! j = Some aj -> A !! i = Some ai ->
    chain_to A j s -> chain_to A i (s + Len ai - penalty aj ai).

(** [Simple_From], [Simple_Score] and [Simple_Adj] of [x] agree: no
    predecessor, the length and no adjustment, or a predecessor below [j],
    what it offers and the overlap with it. *)
Definition explained (A : list Match_t) (j : nat) (x : Match_t) : Prop :=
  (Simple_From x = -1 /\ Simple_Score x = Len x /\ Simple_Adj x = 0) \/
  exists k ak, Simple_From x = Z.of_nat k /\ (k < j)%nat /\ A !! k = Some ak /\
    Simple_Score x = Simple_Score ak + Len x - penalty ak x /\
    Simple_Adj x = olap ak x.

(** The scoring loop has compared [x] with the candidates below [j]:
    [Simple_Score] is at least the length and at least what each of them
    offers, and it is what [Simple_From] offers. *)
Definition best_upto (A : list Match_t) (j : nat) (x : Match_t) : Prop :=
  Len x <= Simple_Score x /\
  (forall k ak, (k < j)%nat -> A !! k = Some ak ->
     Simple_Score ak + Len x - penalty ak x <= Simple_Score x) /\
  explained A j x.

(** The array after the scoring loops. *)
Definition dp_done (A : list Match_t) : Prop :=
  forall i x, A !! i = Some x -> best_upto A i x.

(** What the walk and the print loop need of it. *)
Definition linked (A : list Match_t) : Prop :=
  forall i x, A !! i = Some x -> explained A i x.

(** [total], [hi] and [lo] of the walk, for the marked matches [ms] in array
    order and the values [t], [h], [l] before the walk. *)
Definition walk_total_of (ms : list Match_t) (t : Z) : Z :=
  foldr (fun m s => s + Len m) t ms.
Definition walk_hi_of (ms : list Match_t) (h : Z) : Z :=
  foldr (fun m h => Z.max (Start1 m + Len m) h) h ms.
Definition walk_lo_of (ms : list Match_t) (l : Z) : Z :=
  foldr (fun m l => Z.min (Start1 m) l) l ms.

(** ** For the lines of the output *)

(** The label lines of the output, in order. *)
Definition label_of (r : out_line) : option string :=
  match r with Label_line l => Some l | _ => None end.

Definition labels (out : list out_line) : list string := omap label_of out.

(** The labels of [n] chains printed from the state where the next label
    is [label]: that label once, then ["#"]. *)
Definition labels_from (label : string) (n : nat) : list string :=
  match n with
  | O => []
  | S m => label :: replicate m "#"%string
  end.

Definition is_next (r : out_line) : Prop :=
  match r with Next_line _ _ _ _ _ _ => True | _ => False end.

(** Output made of chains only: each one a label line, the first record
    and the later records. *)
Inductive chains_only : list out_line -> Prop :=
| co_nil : chains_only []
| co_chain l s1 s2 len nexts rest :
    Forall is_next nexts -> chains_only rest ->
    chains_only (Label_line l :: First_line s1 s2 len :: nexts ++ rest).

(** The last three columns of a later record [r2] of a chain, printed after
    [r1]: the adjustment is [none] or negative, and the two gaps are the
    distances from the end of [r1] to the start of [r2]. *)
Definition columns (r1 r2 : out_line) : Prop :=
  match r2 with
  | Next_line s1 s2 len adj g1 g2 =>
    match adj with None => True | Some v => v < 0 end /\
    match r1 with
    | First_line p1 p2 plen | Next_line p1 p2 plen _ _ _ =>
      g1 = s1 - (p1 + plen) /\ g2 = s2 - (p2 + plen)
    | Label_line _ => False
    end
  | _ => True
  end.

(** The same along the output, [last] holding the two ends of the record
    just written. *)
Inductive columns_ok : option (Z * Z) -> list out_line -> Prop :=
| cl_nil last : columns_ok last []
| cl_label last l rest :
    columns_ok None rest -> columns_ok last (Label_line l :: rest)
| cl_first s1 s2 len rest :
    columns_ok (Some (s1 + len, s2 + len)) rest ->
    columns_ok None (First_line s1 s2 len :: rest)
| cl_next e1 e2 s1 s2 len adj g1 g2 rest :
    match adj with None => True | Some v => v < 0 end ->
    g1 = s1 - e1 -> g2 = s2 - e2 ->
    columns_ok (Some (s1 + len, s2 + len)) rest ->
    columns_ok (Some (e1, e2)) (Next_line s1 s2 len adj g1 g2 :: rest).

(** ** For the loop over the clusters *)

(** Sorted as [qsort] with [By_Cluster] leaves the array. *)
Definition cluster_sorted (A : list Match_t) : Prop :=
  ordpairs (fun x y => By_Cluster x y <= 0) A.

(** The slices the loop over the clusters hands to [Process_Cluster], in
    order: the same walk as [clusters_loop]. *)
Fixpoint cluster_runs (fuel : nat) (A : list Match_t) (i : nat)
    : list (list Match_t) :=
  match A !! i with
  | None => []
  | Some ai =>
    match fuel with
    | O => []
    | S fuel' =>
      let j := run_end (length A - S i) A (cluster_id ai) (S i) in
      let cluster_size := (j - i)%nat in
      take cluster_size (drop i A) :: cluster_runs fuel' A (i + cluster_size)
    end
  end.

(** One cluster, whole and in query order: not empty, one cluster id,
    sorted by [Start2]. *)
Definition one_cluster (r : list Match_t) : Prop :=
  r <> [] /\ sorted2 r /\
  forall x y, x ∈ r -> y ∈ r -> cluster_id x = cluster_id y.

(** A match long enough to be printed on its own: its length is not
    negative and reaches [Min_Output_Score]. *)
Definition long_enough (cfg : config) (m : Match_t) : Prop :=
  0 <= Len m /\ Min_Output_Score cfg <= Len m.

(** [n] matches of length 0, the one at position [k] at [(n - k, k)]: no two
    of them share a diagonal or a start, and each starts behind the end of
    the one before it. *)
Definition spread (n : nat) : list Match_t :=
  map (fun k : nat => new_Match (Z.of_nat n - Z.of_nat k) (Z.of_nat k) 0) (seq 0 n).

(** ** For [main] *)

(** The lines of a text, as [getline] splits it. *)
Fixpoint lines_of (fuel : nat) (s : string) : list string :=
  match fuel with
  | O => []
  | S fuel' =>
    match s with
    | EmptyString => []
    | _ => let '(l, r) := getline s in l :: lines_of fuel' r
    end
  end.

Definition lines (s : string) : list string := lines_of (String.length s) s.

(** A line that begins with ['>']. *)
Definition is_header (l : string) : bool :=
  match l with
  | String c _ => Ascii.eqb c ">"%char
  | EmptyString => false
  end.

(** The label lines other than ["#"]. *)
Definition headers_printed (out : list out_line) : list string :=
  List.filter (fun l => negb (l =? "#")%string) (labels out).

(** * Properties *)

(** ** Machine integers and compaction *)

Lemma to_int_id (x : Z) : - 2 ^ 31 <= x < 2 ^ 31 -> to_int x = x.
Proof.
  intros H. unfold to_int.
  rewrite Z.mod_small by lia. lia.
Qed.

(** Narrowing to the bit-field tells [2^30] consecutive numbers apart. *)
Lemma to_bits30_inj (x y : Z) :
  1 <= x <= 2 ^ 30 -> 1 <= y <= 2 ^ 30 -> to_bits30 x = to_bits30 y -> x = y.
Proof.
  unfold to_bits30. change (2 ^ 30) with 1073741824. change (2 ^ 29) with 536870912.
  intros Hx Hy H.
  pose proof (Z.div_mod (x + 536870912) 1073741824 ltac:(lia)).
  pose proof (Z.div_mod (y + 536870912) 1073741824 ltac:(lia)).
  pose proof (Z.mod_pos_bound (x + 536870912) 1073741824 ltac:(lia)).
  pose proof (Z.mod_pos_bound (y + 536870912) 1073741824 ltac:(lia)).
  lia.
Qed.

Lemma pack_loop_spec (keep : Match_t -> bool) (fuel : nat) :
  forall (A : list Match_t) (i k : nat) A' k',
    pack_loop keep fuel A i k = (A', k') ->
    (k <= i)%nat -> (length A <= i + fuel)%nat ->
    take k' A' = take k A ++ List.filter keep (drop i A).
Proof.
  induction fuel as [|fuel IH]; intros A i k A' k' Hrun Hki Hlen; simpl in Hrun.
  - inversion Hrun; subst. rewrite drop_ge by lia. simpl. by rewrite app_nil_r.
  - destruct (A !! i) as [x|] eqn:Hi.
    + rewrite (drop_S _ _ _ Hi). simpl.
      destruct (keep x) eqn:Hk.
      * apply IH in Hrun; [|lia|].
        2:{ destruct (i =? k)%nat; rewrite ?length_insert; lia. }
        rewrite Hrun. clear Hrun.
        destruct (Nat.eqb_spec i k) as [->|Hne].
        -- rewrite (take_S_r _ _ _ Hi). by rewrite <- app_assoc.
        -- assert (Hk' : (<[k:=x]> A) !! k = Some x).
           { apply list_lookup_insert_eq. apply lookup_lt_Some in Hi. lia. }
           rewrite (take_S_r _ _ _ Hk'), take_insert_ge by lia.
           rewrite drop_insert_lt by lia. by rewrite <- app_assoc.
      * by apply IH in Hrun; [|lia|lia].
    + inversion Hrun; subst. apply lookup_ge_None in Hi.
      rewrite drop_ge by lia. simpl. by rewrite app_nil_r.
Qed.

Lemma pack_filter (keep : Match_t -> bool) (A : list Match_t) :
  pack keep A = List.filter keep A.
Proof.
  unfold pack. destruct (pack_loop keep (length A) A 0 0) as [A' k'] eqn:Hrun.
  apply pack_loop_spec in Hrun; [|lia|lia]. by rewrite Hrun.
Qed.

(** ** Relations on the ordered pairs of a list *)

Lemma ordpairs_cons {T} (R : T -> T -> Prop) x l :
  ordpairs R (x :: l) <-> Forall (R x) l /\ ordpairs R l.
Proof.
  split.
  - intros H. split.
    + apply Forall_lookup. intros i y Hy. by apply (H 0%nat (S i) x y); [lia| |].
    + intros a b u v Hab Hu Hv. by apply (H (S a) (S b) u v); [lia| |].
  - intros [Hx Hl] a b u v Hab Hu Hv.
    destruct b as [|b]; [lia|]. destruct a as [|a]; simpl in *.
    + inversion Hu; subst. rewrite Forall_lookup in Hx. eauto.
    + apply (Hl a b); [lia|done|done].
Qed.

Lemma ordpairs_nil {T} (R : T -> T -> Prop) : ordpairs R [].
Proof. intros a b x y _ H. by rewrite lookup_nil in H. Qed.

Lemma ordpairs_filter {T} (R : T -> T -> Prop) (keep : T -> bool) l :
  ordpairs (fun x y => keep x = true -> keep y = true -> R x y) l ->
  ordpairs R (List.filter keep l).
Proof.
  induction l as [|x l IH]; simpl; intros H; [apply ordpairs_nil|].
  apply ordpairs_cons in H as [Hx Hl].
  destruct (keep x) eqn:Hk; [|by apply IH].
  apply ordpairs_cons. split; [|by apply IH].
  apply List.Forall_forall. intros y Hy. apply List.filter_In in Hy as [Hy Hky].
  rewrite List.Forall_forall in Hx. by apply Hx.
Qed.

Lemma ordpairs_map {T U} (R : U -> U -> Prop) (f : T -> U) l :
  ordpairs (fun x y => R (f x) (f y)) l -> ordpairs R (map f l).
Proof.
  induction l as [|x l IH]; simpl; intros H; [apply ordpairs_nil|].
  apply ordpairs_cons in H as [Hx Hl]. apply ordpairs_cons.
  split; [|by apply IH]. apply List.Forall_forall. intros y Hy.
  apply List.in_map_iff in Hy as (z & <- & Hz).
  rewrite List.Forall_forall in Hx. by apply Hx.
Qed.

Lemma ordpairs_impl {T} (R R' : T -> T -> Prop) l :
  (forall x y, R x y -> R' x y) -> ordpairs R l -> ordpairs R' l.
Proof. intros HR H a b x y Hab Hx Hy. eauto. Qed.

Lemma lookup_map {T U} (f : T -> U) (l : list T) (i : nat) :
  map f l !! i = f <$> (l !! i).
Proof. exact (list_lookup_fmap f l i). Qed.

Lemma map_insert_same {T U} (f : T -> U) (l : list T) (i : nat) x x' :
  l !! i = Some x -> f x' = f x -> map f (<[i := x']> l) = map f l.
Proof.
  intros Hi Hf. change (f <$> <[i := x']> l = f <$> l).
  rewrite list_fmap_insert, Hf. apply list_insert_id.
  by rewrite list_lookup_fmap, Hi.
Qed.

(** A relation that looks at coordinates and length only holds on every
    array with the same triples. *)
Lemma ordpairs_triple (R : Match_t -> Match_t -> Prop) A A' :
  (forall x x' y y', triple x = triple x' -> triple y = triple y' ->
                     R x y -> R x' y') ->
  map triple A = map triple A' -> ordpairs R A -> ordpairs R A'.
Proof.
  intros HR Hmap H a b x' y' Hab Hx Hy.
  assert (Hx1 : map triple A !! a = Some (triple x'))
    by (rewrite Hmap, lookup_map, Hx; done).
  assert (Hy1 : map triple A !! b = Some (triple y'))
    by (rewrite Hmap, lookup_map, Hy; done).
  rewrite lookup_map in Hx1, Hy1.
  destruct (A !! a) as [x|] eqn:Ha; [|done].
  destruct (A !! b) as [y|] eqn:Hb; [|done].
  assert (Htx : triple x = triple x') by (simpl in Hx1; congruence).
  assert (Hty : triple y = triple y') by (simpl in Hy1; congruence).
  eapply HR; [done|done|]. by apply (H a b).
Qed.

Lemma sorted2_triple A A' : map triple A = map triple A' -> sorted2 A -> sorted2 A'.
Proof.
  apply ordpairs_triple. unfold triple. intros x x' y y' [=] [=]. lia.
Qed.

Lemma valid_triple x y : triple x = triple y -> valid x -> valid y.
Proof. unfold triple, valid. intros [= -> -> ->]. done. Qed.

Lemma Forall_valid_map (f : Match_t -> Match_t) A :
  (forall m, triple (f m) = triple m) -> Forall valid A -> Forall valid (map f A).
Proof.
  intros Hf H. apply List.Forall_map. eapply List.Forall_impl; [|done].
  intros m. by apply valid_triple.
Qed.

Lemma sorted2_insert A p x x' :
  sorted2 A -> A !! p = Some x -> Start2 x' = Start2 x ->
  sorted2 (<[p := x']> A).
Proof.
  intros HA Hp Hs a b u v Hab Hu Hv.
  assert (Hlen : (p < length A)%nat) by by eapply lookup_lt_Some.
  destruct (decide (a = p)) as [Ha|Ha], (decide (b = p)) as [Hb|Hb]; try lia.
  - subst a. rewrite list_lookup_insert_eq in Hu by done.
    rewrite list_lookup_insert_ne in Hv by done.
    simplify_eq. rewrite Hs. by apply (HA p b).
  - subst b. rewrite list_lookup_insert_eq in Hv by done.
    rewrite list_lookup_insert_ne in Hu by done.
    simplify_eq. rewrite Hs. by apply (HA a p).
  - rewrite list_lookup_insert_ne in Hu, Hv by done. by apply (HA a b).
Qed.

Lemma sorted2_map (f : Match_t -> Match_t) A :
  (forall m, Start2 (f m) = Start2 m) -> sorted2 A -> sorted2 (map f A).
Proof.
  intros Hf H. apply ordpairs_map. eapply ordpairs_impl; [|done].
  intros x y. simpl. by rewrite !Hf.
Qed.

Lemma flag_only_refl x : flag_only x x.
Proof. by unfold flag_only. Qed.

Lemma valid_flag_only x x' : flag_only x x' -> valid x -> valid x'.
Proof. unfold flag_only, valid. intros (-> & -> & -> & _). done. Qed.

Lemma sorted2b_sorted2 A : sorted2b A = true -> sorted2 A.
Proof.
  induction A as [|x l IH]; simpl; intros H; [apply ordpairs_nil|].
  apply andb_true_iff in H as [H1 H2]. apply ordpairs_cons. split; [|by apply IH].
  apply List.Forall_forall. intros y Hy.
  rewrite List.forallb_forall in H1. apply Z.leb_le. by apply H1.
Qed.

Lemma validb_valid A : validb A = true -> Forall valid A.
Proof.
  induction A as [|x l IH]; simpl; intros H; [constructor|].
  repeat (apply andb_true_iff in H as [H ?]). zbool.
  constructor; [by unfold valid|by apply IH].
Qed.

Lemma sublist_map_filter {T U} (f : T -> U) (keep : T -> bool) l :
  sublist (map f (List.filter keep l)) (map f l).
Proof.
  induction l as [|x l IH]; simpl; [constructor|].
  destruct (keep x); simpl; by constructor.
Qed.

Lemma filter_split_perm {T} (f : T -> bool) (l : list T) :
  Permutation (List.filter f l ++ List.filter (fun x => negb (f x)) l) l.
Proof.
  induction l as [|x l IH]; simpl; [done|].
  destruct (f x); simpl.
  - by constructor.
  - rewrite <- Permutation_middle. by constructor.
Qed.

Lemma filter_drops_one {T} (f : T -> bool) (l : list T) n x :
  l !! n = Some x -> f x = false ->
  (length (List.filter f l) < length l)%nat.
Proof.
  revert n. induction l as [|y l IH]; intros n Hx Hf; [done|].
  destruct n as [|n]; simpl in *.
  - simplify_eq. rewrite Hf.
    pose proof (List.filter_length_le f l). lia.
  - specialize (IH n Hx Hf). destruct (f y); simpl; lia.
Qed.

(** ** [qsort] *)

Lemma qsort_insert_perm cmp x l : Permutation (qsort_insert cmp x l) (x :: l).
Proof.
  induction l as [|y l IH]; simpl; [done|].
  destruct (cmp x y <=? 0); [done|].
  rewrite IH. apply perm_swap.
Qed.

Lemma qsort_perm cmp l : Permutation (qsort cmp l) l.
Proof.
  induction l as [|x l IH]; simpl; [done|].
  rewrite qsort_insert_perm. by constructor.
Qed.

Lemma qsort_length cmp l : length (qsort cmp l) = length l.
Proof. apply Permutation_length, qsort_perm. Qed.

(** Two matches that compare equal stay in their input order. *)
Example qsort_keeps_ties :
  By_Start2 (new_Match 3 7 1) (new_Match 3 7 2) = 0
  /\ qsort By_Start2 [new_Match 3 7 1; new_Match 3 7 2; new_Match 0 1 5]
     = [new_Match 0 1 5; new_Match 3 7 1; new_Match 3 7 2].
Proof. split; reflexivity. Qed.

Lemma By_Start2_le x y : (By_Start2 x y <=? 0) = true -> Start2 x <= Start2 y.
Proof.
  unfold By_Start2. repeat case_match; zbool; lia.
Qed.

Lemma By_Start2_ge x y : (By_Start2 x y <=? 0) = false -> Start2 y <= Start2 x.
Proof.
  unfold By_Start2. repeat case_match; zbool; lia.
Qed.

Lemma qsort_insert_sorted x l :
  sorted2 l -> sorted2 (qsort_insert By_Start2 x l).
Proof.
  induction l as [|y l IH]; simpl; intros Hs.
  - apply ordpairs_cons. split; [constructor|apply ordpairs_nil].
  - apply ordpairs_cons in Hs as [Hy Hl].
    destruct (By_Start2 x y <=? 0) eqn:E.
    + apply By_Start2_le in E. apply ordpairs_cons. split.
      * constructor; [done|]. eapply List.Forall_impl; [|exact Hy].
        intros z Hz. simpl in *. lia.
      * apply ordpairs_cons. by split.
    + apply By_Start2_ge in E. apply ordpairs_cons. split; [|by apply IH].
      eapply Permutation_Forall; [symmetry; apply qsort_insert_perm|].
      by constructor.
Qed.

Lemma qsort_sorted l : sorted2 (qsort By_Start2 l).
Proof.
  induction l as [|x l IH]; simpl; [apply ordpairs_nil|].
  by apply qsort_insert_sorted.
Qed.

(** ** [Filter_Matches]: one round of the scan *)

Lemma list_insert_twice_id (A : list Match_t) i j ai aj :
  A !! i = Some ai -> A !! j = Some aj -> i <> j ->
  A = <[j := aj]> (<[i := ai]> A).
Proof.
  intros Hi Hj Hne. rewrite (list_insert_id A i ai Hi).
  by rewrite (list_insert_id A j aj Hj).
Qed.

Lemma scan_body_next_spec A i i_diag e j A' e' :
  scan_body A i i_diag e j = Scan_next A' e' -> i <> j ->
  exists ai aj ai' aj',
    A !! i = Some ai /\ A !! j = Some aj /\
    A' = <[j := aj']> (<[i := ai']> A) /\
    Start2 aj <= e /\ Start2 ai <= Start2 aj /\
    flag_only aj aj' /\
    Start1 ai' = Start1 ai /\ Start2 ai' = Start2 ai /\ Good ai' = Good ai /\
    ((Good aj = true /\ i_diag = to_int (diag aj) /\ Good aj' = false /\
      let jx := to_int (Len aj + Start2 aj - Start2 ai) in
      ((Len ai < jx /\ Len ai' = jx /\ e' = to_int (Start2 ai + jx)) \/
       (jx <= Len ai /\ Len ai' = Len ai /\ e' = e)))
     \/ (Len ai' = Len ai /\ e' = e /\
         (Good aj' = true -> i_diag <> to_int (diag aj)))).
Proof.
  intros H Hne. unfold scan_body, overlap_rule in H.
  destruct (A !! j) as [aj|] eqn:Hj; [|done].
  destruct (A !! i) as [ai|] eqn:Hi; [|done].
  repeat case_match; simplify_eq; zbool;
    first
      [ (* nothing written *)
        exists ai, aj, ai, aj;
        split_and!; try done; try lia;
        [ by apply list_insert_twice_id
        | first [ right; split_and!; try done; intros; unfold diag; congruence
                | right; split_and!; try done; intros; unfold diag; lia ] ]
      | idtac ].
  - exists ai, aj, (set_Len (to_int (Len aj + Start2 aj - Start2 ai)) ai),
      (set_Good false aj).
    split_and!; try done; try lia. left. split_and!; try done.
    left. simpl. by split_and!.
  - exists ai, aj, ai, (set_Good false aj).
    rewrite (list_insert_id A i ai Hi).
    split_and!; try done; try lia. left. split_and!; try done.
    right. simpl. split_and!; try done; lia.
  - exists ai, aj, ai, (set_Good false aj).
    rewrite (list_insert_id A i ai Hi).
    split_and!; try done; try lia. right. by split_and!.
  - exists ai, aj, ai, (set_Tentative true aj).
    rewrite (list_insert_id A i ai Hi).
    split_and!; try done; try lia. right. by split_and!.
  - exists ai, aj, ai, (set_Good false aj).
    rewrite (list_insert_id A i ai Hi).
    split_and!; try done; try lia. right. by split_and!.
  - exists ai, aj, ai, (set_Tentative true aj).
    rewrite (list_insert_id A i ai Hi).
    split_and!; try done; try lia. right. by split_and!.
Qed.

Lemma scan_body_stop_spec A i i_diag e j A' :
  scan_body A i i_diag e j = Scan_stop A' -> i <> j ->
  (A' = A /\
   (A !! j = None \/ A !! i = None \/
    exists aj, A !! j = Some aj /\ e < Start2 aj))
  \/ (exists ai aj ai' aj',
        A !! i = Some ai /\ A !! j = Some aj /\
        A' = <[j := aj']> (<[i := ai']> A) /\
        flag_only aj aj' /\ flag_only ai ai' /\ Good ai' = false).
Proof.
  intros H Hne. unfold scan_body, overlap_rule in H.
  destruct (A !! j) as [aj|] eqn:Hj; [|left; inversion H; auto].
  destruct (A !! i) as [ai|] eqn:Hi; [|left; inversion H; auto].
  repeat case_match; simplify_eq; zbool;
    try (left; split; [done|]; right; right; exists aj; split; [done|lia]).
  all: right.
  all: try (exists ai, aj, (set_Good false ai), aj;
            rewrite (list_insert_insert_ne A) by done;
            rewrite (list_insert_id A j aj Hj);
            by split_and!).
  all: exists ai, aj, (set_Good false ai), (set_Tentative true aj);
       rewrite (list_insert_insert_ne A) by done; by split_and!.
Qed.

Lemma scan_body_fail_spec A i i_diag e j :
  scan_body A i i_diag e j = Scan_fail ->
  exists ai aj, A !! i = Some ai /\ A !! j = Some aj /\ Start2 aj < Start2 ai.
Proof.
  intros H. unfold scan_body, overlap_rule in H.
  destruct (A !! j) as [aj|] eqn:Hj; [|done].
  destruct (A !! i) as [ai|] eqn:Hi; [|done].
  repeat case_match; simplify_eq; zbool.
  exists ai, aj. split_and!; try done; lia.
Qed.

(** Lifting an invariant of one round to the whole inner loop. *)
Lemma scan_invariant (I : list Match_t -> Z -> nat -> Prop) i i_diag :
  (forall A e j A' e',
      I A e j -> scan_body A i i_diag e j = Scan_next A' e' -> I A' e' (S j)) ->
  forall fuel A e j,
    I A e j ->
    match scan fuel A i i_diag e j with
    | Some A' =>
        exists A1 e1 j1, I A1 e1 j1 /\
          ((A' = A1 /\ j1 = (j + fuel)%nat) \/
           scan_body A1 i i_diag e1 j1 = Scan_stop A')
    | None => exists A1 e1 j1, I A1 e1 j1 /\ scan_body A1 i i_diag e1 j1 = Scan_fail
    end.
Proof.
  intros Hstep. induction fuel as [|fuel IH]; intros A e j HI; simpl.
  - exists A, e, j. split; [done|]. left. split; [done|lia].
  - destruct (scan_body A i i_diag e j) as [A' e'| A' |] eqn:Hb.
    + specialize (IH A' e' (S j) (Hstep _ _ _ _ _ HI Hb)).
      destruct (scan fuel A' i i_diag e' (S j)) as [A''|].
      * destruct IH as (A1 & e1 & j1 & H1 & H2). exists A1, e1, j1.
        split; [done|]. destruct H2 as [[-> ->]|H2]; [left|right]; [|done].
        split; [done|lia].
      * done.
    + exists A, e, j. split; [done|]. by right.
    + by exists A, e, j.
Qed.

(** ** [Filter_Matches] on sorted input *)

(** The scenario of three matches on diagonal 0 at query positions 0, 5
    and 20: the first two are merged into one of length 15. *)
Example filter_merge :
  option_map (map triple)
    (Filter_Matches [new_Match 0 0 10; new_Match 5 5 10; new_Match 20 20 10])
  = Some [(0, 0, 15); (20, 20, 10)].
Proof. reflexivity. Qed.

(** On sorted input the assertion of the inner loop holds. *)
Lemma scan_sorted fuel i i_diag A e :
  sorted2 A ->
  exists A', scan fuel A i i_diag e (S i) = Some A' /\
             sorted2 A' /\ length A' = length A.
Proof.
  intros Hs.
  pose (I := fun (B : list Match_t) (_ : Z) (j : nat) =>
               sorted2 B /\ (i < j)%nat /\ length B = length A).
  assert (Hstep : forall B e1 j B' e',
             I B e1 j -> scan_body B i i_diag e1 j = Scan_next B' e' -> I B' e' (S j)).
  { intros B e1 j B' e' (HsB & Hij & HlB) Hb.
    apply scan_body_next_spec in Hb; [|lia].
    destruct Hb as (ai & aj & ai' & aj' & Hi & Hj & -> & _ & _ & Hfj
                    & _ & Hs2 & _).
    destruct Hfj as (_ & Hj2 & _). split_and!; [|lia|by rewrite !length_insert].
    eapply sorted2_insert; [|by rewrite list_lookup_insert_ne by lia|done].
    by eapply sorted2_insert. }
  assert (HI : I A e (S i)) by (split_and!; [done|lia|done]).
  pose proof (scan_invariant I i i_diag Hstep fuel A e (S i) HI) as H.
  destruct (scan fuel A i i_diag e (S i)) as [A'|].
  - exists A'. split; [done|].
    destruct H as (A1 & e1 & j1 & (Hs1 & Hij & Hl1) & [[-> ->]|Hstop]); [done|].
    apply scan_body_stop_spec in Hstop; [|lia].
    destruct Hstop as [(-> & _)|Hbreak]; [done|].
    destruct Hbreak as (ai & aj & ai' & aj' & Hi & Hj & -> & Hfj & Hfi & _).
    destruct Hfj as (_ & Hj2 & _). destruct Hfi as (_ & Hi2 & _).
    split; [|by rewrite !length_insert].
    eapply sorted2_insert; [|by rewrite list_lookup_insert_ne by lia|done].
    by eapply sorted2_insert.
  - destruct H as (A1 & e1 & j1 & (Hs1 & Hij & Hl1) & Hfail).
    exfalso. apply scan_body_fail_spec in Hfail as (ai & aj & Hi & Hj & Hlt).
    specialize (Hs1 i j1 ai aj Hij Hi Hj). simpl in Hs1. lia.
Qed.

Lemma filter_loop_sorted_length (fuel : nat) :
  forall A i, sorted2 A ->
    exists A', filter_loop fuel A i = Some A' /\
               sorted2 A' /\ length A' = length A.
Proof.
  induction fuel as [|fuel IH]; intros A i Hs; simpl; [by exists A|].
  destruct (A !! i) as [ai|]; [|by exists A].
  destruct (Good ai); [|by apply IH].
  destruct (scan_sorted (length A - S i) i (to_int (Start2 ai - Start1 ai)) A
              (to_int (Start2 ai + Len ai)) Hs) as (A1 & -> & Hs1 & Hl1).
  destruct (IH A1 (S i) Hs1) as (A' & HA' & Hs' & Hl').
  exists A'. split_and!; [done|done|lia].
Qed.

Lemma Filter_Matches_sorted (A : list Match_t) :
  sorted2 A ->
  exists out, Filter_Matches A = Some out /\ sorted2 out /\
    (length out <= length A)%nat /\ Forall (fun m => Good m = false) out.
Proof.
  intros Hs. unfold Filter_Matches.
  destruct (filter_loop_sorted_length (length A - 1) (map (set_Good true) A) 0)
    as (A' & -> & Hs' & Hl'); [by apply sorted2_map|].
  eexists. split; [done|]. rewrite pack_filter. split_and!.
  - apply sorted2_map; [done|]. apply ordpairs_filter.
    eapply ordpairs_impl; [|exact Hs']. auto.
  - rewrite length_map. rewrite length_map in Hl'. rewrite <- Hl'.
    apply List.filter_length_le.
  - apply List.Forall_map. by apply List.Forall_forall.
Qed.

Lemma Filter_Matches_Good (A out : list Match_t) :
  Filter_Matches A = Some out -> Forall (fun m => Good m = false) out.
Proof.
  unfold Filter_Matches. intros H.
  destruct (filter_loop _ _ _) as [A'|]; [|done]. simplify_eq.
  apply List.Forall_map. by apply List.Forall_forall.
Qed.

(** Claim C3, as amended.  On input sorted by [Start2] the filter ends
    normally and every match it keeps has its [Good] flag cleared.  Nothing
    is said about [Tentative]: [Filter_Matches] never clears it, see
    [Filter_Matches_keeps_Tentative]. *)
Theorem Filter_Matches_clears_Good (A : list Match_t) :
  sorted2 A ->
  exists out, Filter_Matches A = Some out /\ Forall (fun m => Good m = false) out.
Proof.
  intros Hs. destruct (Filter_Matches_sorted A Hs) as (out & Hout & _ & _ & HG).
  by exists out.
Qed.

Lemma Filter_Matches_clears_Good_witness :
  exists out,
    Filter_Matches [new_Match 0 0 10; new_Match 0 5 10; new_Match 20 20 10] = Some out
    /\ Forall (fun m => Good m = false) out.
Proof.
  apply (Filter_Matches_clears_Good
           [new_Match 0 0 10; new_Match 0 5 10; new_Match 20 20 10]).
  apply sorted2b_sorted2. reflexivity.
Defined.

(** Claim C3 as stated fails: two matches with the same [Start1], equal
    lengths and an overlap of half the length both survive, and the second
    one leaves the filter with [Tentative] set. *)
Lemma Filter_Matches_keeps_Tentative :
  Filter_Matches [new_Match 0 0 10; new_Match 0 5 10]
  = Some [new_Match 0 0 10; set_Tentative true (new_Match 0 5 10)]
  /\ Tentative (set_Tentative true (new_Match 0 5 10)) = true.
Proof. split; reflexivity. Qed.

(** ** [Filter_Matches] on sorted matches that fit [int] *)

Lemma sep_upto_insert i A p x x' :
  sep_upto i A -> (i <= p)%nat -> A !! p = Some x ->
  Start1 x' = Start1 x -> Start2 x' = Start2 x ->
  (Good x' = true -> Good x = true) ->
  sep_upto i (<[p := x']> A).
Proof.
  intros HA Hip Hp H1 H2 HG a b u v Ha Hab Hu Hv Gu Gv.
  assert (Hlen : (p < length A)%nat) by by eapply lookup_lt_Some.
  rewrite list_lookup_insert_ne in Hu by lia.
  destruct (decide (b = p)) as [Hb|Hb].
  - subst b. rewrite list_lookup_insert_eq in Hv by done. simplify_eq.
    specialize (HA a p u x Ha Hab Hu Hp Gu (HG Gv)).
    unfold apart, diag in *. rewrite H1, H2. done.
  - rewrite list_lookup_insert_ne in Hv by done. by apply (HA a b).
Qed.

Lemma sep_upto_S i A :
  sep_upto i A ->
  (forall x b y, A !! i = Some x -> (i < b)%nat -> A !! b = Some y ->
     Good x = true -> Good y = true -> apart x y) ->
  sep_upto (S i) A.
Proof.
  intros HA Hi a b u v Ha Hab Hu Hv Gu Gv.
  destruct (decide (a = i)) as [->|Hne]; [by apply (Hi u b v)|].
  apply (HA a b); try done. lia.
Qed.

Lemma sep_upto_all i A :
  sep_upto i A -> (length A - 1 <= i)%nat ->
  ordpairs (fun x y => Good x = true -> Good y = true -> apart x y) A.
Proof.
  intros H Hi a b x y Hab Hx Hy Gx Gy.
  apply (H a b); try done. apply lookup_lt_Some in Hy. lia.
Qed.

Lemma scan_inv_step N i i_diag A e j A' e' :
  scan_inv N i i_diag A e j ->
  scan_body A i i_diag e j = Scan_next A' e' ->
  scan_inv N i i_diag A' e' (S j).
Proof.
  intros (HN & Hsort & Hval & Hij & Hsep & ai & Hi & HG & Hd & He & Hbetween) Hb.
  apply scan_body_next_spec in Hb; [|lia].
  destruct Hb as (ai1 & aj & ai' & aj' & Hi1 & Hj & -> & Hje & Hle & Hfj
                    & Hs1 & Hs2 & HGi & Hcase).
  assert (ai1 = ai) as -> by congruence. clear Hi1. subst e i_diag.
  assert (Hvi : valid ai) by by eapply Forall_lookup_1.
  assert (Hvj : valid aj) by by eapply Forall_lookup_1.
  assert (Hli : (i < length A)%nat) by by eapply lookup_lt_Some.
  assert (Hlj : (j < length A)%nat) by by eapply lookup_lt_Some.
  assert (Hj1 : <[i:=ai']> A !! j = Some aj)
    by (rewrite list_lookup_insert_ne by lia; done).
  assert (Hdj : to_int (diag aj) = diag aj).
  { apply to_int_id. unfold valid, diag in *. lia. }
  assert (Hvi' : valid ai' /\ Start2 ai + Len ai <= Start2 ai' + Len ai'
                 /\ e' = Start2 ai' + Len ai').
  { destruct Hcase as [(Gj & Hdd & Gj' & [(Hlt & HL & He')|(Hge & HL & He')])
                      |(HL & He' & _)].
    - cbv zeta in *. rewrite Hdj in Hdd.
      assert (Hjx : to_int (Len aj + Start2 aj - Start2 ai)
                    = Len aj + Start2 aj - Start2 ai)
        by (apply to_int_id; unfold valid in *; lia).
      rewrite Hjx in HL, Hlt, He'.
      rewrite to_int_id in He' by (unfold valid in *; lia).
      unfold valid, diag in *. rewrite Hs1, Hs2, HL. lia.
    - unfold valid in *. rewrite Hs1, Hs2, HL. lia.
    - unfold valid in *. rewrite Hs1, Hs2, HL. lia. }
  destruct Hvi' as (Hvi' & Hmono & He').
  destruct Hfj as (Hj1' & Hj2' & HjL & HjG).
  split_and!.
  - by rewrite !length_insert.
  - eapply sorted2_insert; [|done|done]. by eapply sorted2_insert.
  - apply Forall_insert; [apply Forall_insert; done|].
    by apply (valid_flag_only aj).
  - lia.
  - eapply (sep_upto_insert _ _ _ aj); [|lia|done|done|done|done].
    eapply (sep_upto_insert _ _ _ ai); [done|lia|done|done|done|].
    by rewrite HGi.
  - exists ai'. split_and!.
    + rewrite list_lookup_insert_ne by lia. by apply list_lookup_insert_eq.
    + by rewrite HGi.
    + unfold diag. by rewrite Hs1, Hs2.
    + done.
    + intros b y Hb Hy Gy.
      assert (Hdi : diag ai' = diag ai) by (unfold diag; by rewrite Hs1, Hs2).
      rewrite Hdi.
      destruct (decide (b = j)) as [->|Hbj].
      * rewrite list_lookup_insert_eq in Hy by (by rewrite length_insert).
        simplify_eq.
        assert (Hdy : diag y = diag aj) by (unfold diag; by rewrite Hj1', Hj2').
        rewrite Hdy.
        destruct Hcase as [(Gj & Hdd & Gj' & _)|(HL & _ & Hnd)]; [congruence|].
        specialize (Hnd Gy). rewrite Hdj in Hnd. congruence.
      * rewrite !list_lookup_insert_ne in Hy by lia.
        apply (Hbetween b y); [lia|done|done].
Qed.

Lemma scan_inv_exit N i i_diag A e j :
  scan_inv N i i_diag A e j ->
  (A !! j = None \/ exists aj, A !! j = Some aj /\ e < Start2 aj) ->
  scan_post N i A.
Proof.
  intros (HN & Hsort & Hval & Hij & Hsep & ai & Hi & HG & Hd & He & Hbetween) Hexit.
  split_and!; try done.
  apply sep_upto_S; [done|].
  intros x b y Hx Hib Hy Gx Gy Hdiag. simplify_eq.
  destruct (decide (b < j)%nat) as [Hlt|Hge].
  - exfalso. apply (Hbetween b y); [lia|done|done|done].
  - destruct Hexit as [Hnone|(aj & Hj & Hgt)].
    + apply lookup_ge_None in Hnone. apply lookup_lt_Some in Hy. lia.
    + assert (Start2 aj <= Start2 y); [|lia].
      destruct (decide (b = j)) as [->|Hne]; [by simplify_eq|].
      apply (Hsort j b); [lia|done|done].
Qed.

Lemma scan_inv_break N i i_diag A e j A' :
  scan_inv N i i_diag A e j ->
  scan_body A i i_diag e j = Scan_stop A' ->
  scan_post N i A'.
Proof.
  intros HI Hb. pose proof HI as HI0.
  destruct HI as (HN & Hsort & Hval & Hij & Hsep & ai & Hi & HG & Hd & He & Hbetween).
  apply scan_body_stop_spec in Hb; [|lia].
  destruct Hb as [(-> & Hexit)|Hbreak].
  - eapply scan_inv_exit; [done|].
    destruct Hexit as [?|[?|?]]; [by left|congruence|by right].
  - destruct Hbreak as (ai1 & aj & ai' & aj' & Hi1 & Hj & -> & Hfj & Hfi & HGi').
    assert (ai1 = ai) as -> by congruence. clear Hi1.
    assert (Hli : (i < length A)%nat) by by eapply lookup_lt_Some.
    assert (Hj1 : <[i:=ai']> A !! j = Some aj)
      by (rewrite list_lookup_insert_ne by lia; done).
    pose proof Hfi as (Hi1' & Hi2' & HiL & HiG).
    pose proof Hfj as (Hj1' & Hj2' & HjL & HjG).
    split_and!.
    + by rewrite !length_insert.
    + eapply sorted2_insert; [|done|done]. by eapply sorted2_insert.
    + apply Forall_insert; [apply Forall_insert; [done|]|].
      * apply (valid_flag_only ai); [done|]. by eapply Forall_lookup_1.
      * apply (valid_flag_only aj); [done|]. by eapply Forall_lookup_1.
    + apply sep_upto_S.
      * eapply (sep_upto_insert _ _ _ aj); [|lia|done|done|done|done].
        by eapply (sep_upto_insert _ _ _ ai); [done|lia|done|done|done|].
      * intros x b y Hx _ _ Gx.
        rewrite list_lookup_insert_ne in Hx by lia.
        rewrite list_lookup_insert_eq in Hx by done. simplify_eq. congruence.
Qed.

(** The inner loop on sorted matches that fit [int]: it ends normally and
    leaves the live matches on the diagonal of [A[i]] apart from it. *)
Lemma scan_main N i i_diag A e :
  scan_inv N i i_diag A e (S i) ->
  exists A', scan (N - S i) A i i_diag e (S i) = Some A' /\ scan_post N i A'.
Proof.
  intros HI.
  pose proof (scan_invariant (scan_inv N i i_diag) i i_diag
                (fun A e j A' e' => scan_inv_step N i i_diag A e j A' e')
                (N - S i)%nat A e (S i) HI) as H.
  destruct (scan (N - S i) A i i_diag e (S i)) as [A'|].
  - exists A'. split; [done|].
    destruct H as (A1 & e1 & j1 & HI1 & [[-> ->]|Hstop]).
    + eapply scan_inv_exit; [done|]. left.
      apply lookup_ge_None. destruct HI1 as (HN1 & _ & _ & _ & _ & ai & Hi & _).
      apply lookup_lt_Some in Hi. lia.
    + by eapply scan_inv_break.
  - destruct H as (A1 & e1 & j1 & HI1 & Hfail). exfalso.
    apply scan_body_fail_spec in Hfail as (ai & aj & Hi & Hj & Hlt).
    destruct HI1 as (_ & Hsort & _ & Hij & _).
    specialize (Hsort i j1 ai aj Hij Hi Hj). simpl in Hsort. lia.
Qed.

(** The outer loop of [Filter_Matches]. *)
Lemma filter_loop_main (fuel : nat) :
  forall A i,
    sorted2 A -> Forall valid A -> sep_upto i A ->
    (length A - 1 <= i + fuel)%nat ->
    exists A', filter_loop fuel A i = Some A' /\
      length A' = length A /\ sorted2 A' /\ Forall valid A' /\
      ordpairs (fun x y => Good x = true -> Good y = true -> apart x y) A'.
Proof.
  induction fuel as [|fuel IH]; intros A i Hsort Hval Hsep Hlen; simpl.
  - exists A. split_and!; try done. apply (sep_upto_all i); [done|lia].
  - destruct (A !! i) as [ai|] eqn:Hi.
    + destruct (Good ai) eqn:HG.
      * assert (Hvi : valid ai) by by eapply Forall_lookup_1.
        rewrite !to_int_id by (unfold valid in Hvi; lia).
        destruct (scan_main (length A) i (Start2 ai - Start1 ai) A
                    (Start2 ai + Len ai)) as (A1 & -> & HN1 & Hs1 & Hv1 & Hsep1).
        { split_and!; try done; try lia. exists ai. split_and!; try done. lia. }
        destruct (IH A1 (S i) Hs1 Hv1 Hsep1) as (A' & HA' & Hl' & Hrest); [lia|].
        exists A'. split; [done|]. split; [lia|done].
      * destruct (IH A (S i) Hsort Hval) as (A' & HA' & Hrest); [|lia|by exists A'].
        apply sep_upto_S; [done|]. intros x b y Hx. simplify_eq. congruence.
    + exists A. split_and!; try done. apply (sep_upto_all i); [done|].
      apply lookup_ge_None in Hi. lia.
Qed.

(** The filter on sorted matches that fit [int]: the result is sorted, fits
    [int], and its matches on one diagonal are apart. *)
Lemma Filter_Matches_main (A : list Match_t) :
  sorted2 A -> Forall valid A ->
  exists out, Filter_Matches A = Some out /\
    sorted2 out /\ Forall valid out /\ separated out /\
    Forall (fun m => Good m = false) out.
Proof.
  intros Hsort Hval. unfold Filter_Matches.
  destruct (filter_loop_main (length A - 1) (map (set_Good true) A) 0)
    as (A' & HA' & Hlen' & Hs' & Hv' & Hsep').
  - by apply sorted2_map.
  - by apply Forall_valid_map.
  - intros a b x y Ha. lia.
  - rewrite length_map. lia.
  - rewrite HA'. eexists. split; [done|].
    rewrite pack_filter. split_and!.
    + apply sorted2_map; [done|]. apply ordpairs_filter.
      eapply ordpairs_impl; [|exact Hs']. auto.
    + apply Forall_valid_map; [done|].
      apply List.Forall_forall. intros m Hm. apply List.filter_In in Hm as [Hm _].
      rewrite List.Forall_forall in Hv'. auto.
    + apply ordpairs_map. apply ordpairs_filter.
      eapply ordpairs_impl; [|exact Hsep']. auto.
    + apply List.Forall_map. apply List.Forall_forall. done.
Qed.

(** Property X1.
    In the words of the diagonal invariant: on sorted matches that fit [int],
    two kept matches on one diagonal have disjoint query ranges, the earlier
    one ending before the later one starts. *)
Lemma Filter_Matches_diagonal (A : list Match_t) :
  sorted2 A -> Forall valid A ->
  exists out, Filter_Matches A = Some out /\
    forall a b x y, (a < b)%nat -> out !! a = Some x -> out !! b = Some y ->
      Start2 x - Start1 x = Start2 y - Start1 y ->
      Start2 x + Len x < Start2 y.
Proof.
  intros Hs Hv.
  destruct (Filter_Matches_main A Hs Hv) as (out & Hout & _ & _ & Hsep & _).
  exists out. split; [done|]. intros a b x y Hab Hx Hy Hd.
  by apply (Hsep a b x y Hab Hx Hy).
Qed.

(** Claim C7 on coordinates beyond [int]: [i_end] is an [int], so
    [2^31 + 10] is stored as a negative number, the scan of the first match
    stops at once, and two matches on diagonal 0 whose query ranges
    [[2^31, 2^31 + 10)] and [[2^31 + 5, 2^31 + 15)] overlap are both kept.
    For coordinates that fit [int] the ranges of kept matches on one diagonal
    are apart, see [Filter_Matches_main]. *)
Theorem Filter_Matches_int_overflow :
  let m1 := new_Match (2 ^ 31) (2 ^ 31) 10 in
  let m2 := new_Match (2 ^ 31 + 5) (2 ^ 31 + 5) 10 in
  sorted2b [m1; m2] = true /\
  Filter_Matches [m1; m2] = Some [m1; m2] /\
  diag m1 = diag m2 /\
  Start2 m1 <= Start2 m2 < Start2 m1 + Len m1.
Proof. repeat split; (reflexivity || discriminate). Qed.

(** ** [Filter_Matches] on sorted input of any size *)

Lemma separated_int_triple A A' :
  map triple A = map triple A' -> separated_int A -> separated_int A'.
Proof.
  apply ordpairs_triple. unfold triple, apart_int, diag.
  intros x x' y y' [= Hx1 Hx2 Hx3] [= Hy1 Hy2 Hy3].
  by rewrite Hx1, Hx2, Hx3, Hy1, Hy2.
Qed.

Lemma sep_upto_int_insert i A p x x' :
  sep_upto_int i A -> (i <= p)%nat -> A !! p = Some x ->
  Start1 x' = Start1 x -> Start2 x' = Start2 x ->
  (Good x' = true -> Good x = true) ->
  sep_upto_int i (<[p := x']> A).
Proof.
  intros HA Hip Hp H1 H2 HG a b u v Ha Hab Hu Hv Gu Gv.
  assert (Hlen : (p < length A)%nat) by by eapply lookup_lt_Some.
  rewrite list_lookup_insert_ne in Hu by lia.
  destruct (decide (b = p)) as [Hb|Hb].
  - subst b. rewrite list_lookup_insert_eq in Hv by done. simplify_eq.
    specialize (HA a p u x Ha Hab Hu Hp Gu (HG Gv)).
    unfold apart_int, diag in *. rewrite H1, H2. done.
  - rewrite list_lookup_insert_ne in Hv by done. by apply (HA a b).
Qed.

Lemma sep_upto_int_S i A :
  sep_upto_int i A ->
  (forall x b y, A !! i = Some x -> (i < b)%nat -> A !! b = Some y ->
     Good x = true -> Good y = true -> apart_int x y) ->
  sep_upto_int (S i) A.
Proof.
  intros HA Hi a b u v Ha Hab Hu Hv Gu Gv.
  destruct (decide (a = i)) as [->|Hne]; [by apply (Hi u b v)|].
  apply (HA a b); try done. lia.
Qed.

Lemma sep_upto_int_all i A :
  sep_upto_int i A -> (length A - 1 <= i)%nat ->
  ordpairs (fun x y => Good x = true -> Good y = true -> apart_int x y) A.
Proof.
  intros H Hi a b x y Hab Hx Hy Gx Gy.
  apply (H a b); try done. apply lookup_lt_Some in Hy. lia.
Qed.

(** One round keeps [i_end] equal to the [int] end of [A[i]], whether the
    round has extended [A[i]] or not, and leaves no live match on the [int]
    diagonal of [A[i]] behind it. *)
Lemma scan_inv_int_step N i i_diag A e j A' e' :
  scan_inv_int N i i_diag A e j ->
  scan_body A i i_diag e j = Scan_next A' e' ->
  scan_inv_int N i i_diag A' e' (S j).
Proof.
  intros (HN & Hsort & Hij & Hsep & ai & Hi & HG & Hd & He & Hbetween) Hb.
  apply scan_body_next_spec in Hb; [|lia].
  destruct Hb as (ai1 & aj & ai' & aj' & Hi1 & Hj & -> & Hje & Hle & Hfj
                    & Hs1 & Hs2 & HGi & Hcase).
  assert (ai1 = ai) as -> by congruence. clear Hi1.
  assert (Hli : (i < length A)%nat) by by eapply lookup_lt_Some.
  assert (Hlj : (j < length A)%nat) by by eapply lookup_lt_Some.
  assert (Hj1 : <[i:=ai']> A !! j = Some aj)
    by (rewrite list_lookup_insert_ne by lia; done).
  assert (He' : e' = to_int (Start2 ai' + Len ai')).
  { destruct Hcase as [(_ & _ & _ & [(_ & HL & He')|(_ & HL & He')])
                      |(HL & He' & _)]; cbv zeta in *; rewrite Hs2, HL; congruence. }
  destruct Hfj as (Hj1' & Hj2' & HjL & HjG).
  assert (Hdi : diag ai' = diag ai) by (unfold diag; by rewrite Hs1, Hs2).
  split_and!.
  - by rewrite !length_insert.
  - eapply sorted2_insert; [|done|done]. by eapply sorted2_insert.
  - lia.
  - eapply (sep_upto_int_insert _ _ _ aj); [|lia|done|done|done|done].
    eapply (sep_upto_int_insert _ _ _ ai); [done|lia|done|done|done|].
    by rewrite HGi.
  - exists ai'. split_and!.
    + rewrite list_lookup_insert_ne by lia. by apply list_lookup_insert_eq.
    + by rewrite HGi.
    + by rewrite Hdi.
    + done.
    + intros b y Hb Hy Gy.
      destruct (decide (b = j)) as [->|Hbj].
      * rewrite list_lookup_insert_eq in Hy by (by rewrite length_insert).
        simplify_eq.
        assert (Hdy : diag y = diag aj) by (unfold diag; by rewrite Hj1', Hj2').
        rewrite Hdy.
        destruct Hcase as [(Gj & Hdd & Gj' & _)|(HL & _ & Hnd)]; [congruence|].
        specialize (Hnd Gy). congruence.
      * rewrite !list_lookup_insert_ne in Hy by lia.
        apply (Hbetween b y); [lia|done|done].
Qed.

Lemma scan_inv_int_exit N i i_diag A e j :
  scan_inv_int N i i_diag A e j ->
  (A !! j = None \/ exists aj, A !! j = Some aj /\ e < Start2 aj) ->
  scan_post_int N i A.
Proof.
  intros (HN & Hsort & Hij & Hsep & ai & Hi & HG & Hd & He & Hbetween) Hexit.
  split_and!; try done.
  apply sep_upto_int_S; [done|].
  intros x b y Hx Hib Hy Gx Gy Hle Hdiag.
  assert (x = ai) as -> by congruence.
  destruct (decide (b < j)%nat) as [Hlt|Hge].
  - apply (Hbetween b y); [lia|done|done|congruence].
  - destruct Hexit as [Hnone|(aj & Hj & Hgt)].
    + apply lookup_ge_None in Hnone. apply lookup_lt_Some in Hy. lia.
    + assert (Start2 aj <= Start2 y); [|lia].
      destruct (decide (b = j)) as [->|Hne]; [by simplify_eq|].
      apply (Hsort j b); [lia|done|done].
Qed.

Lemma scan_inv_int_break N i i_diag A e j A' :
  scan_inv_int N i i_diag A e j ->
  scan_body A i i_diag e j = Scan_stop A' ->
  scan_post_int N i A'.
Proof.
  intros HI Hb. pose proof HI as HI0.
  destruct HI as (HN & Hsort & Hij & Hsep & ai & Hi & HG & Hd & He & Hbetween).
  apply scan_body_stop_spec in Hb; [|lia].
  destruct Hb as [(-> & Hexit)|Hbreak].
  - eapply scan_inv_int_exit; [done|].
    destruct Hexit as [?|[?|?]]; [by left|congruence|by right].
  - destruct Hbreak as (ai1 & aj & ai' & aj' & Hi1 & Hj & -> & Hfj & Hfi & HGi').
    assert (ai1 = ai) as -> by congruence. clear Hi1.
    assert (Hli : (i < length A)%nat) by by eapply lookup_lt_Some.
    assert (Hj1 : <[i:=ai']> A !! j = Some aj)
      by (rewrite list_lookup_insert_ne by lia; done).
    pose proof Hfi as (Hi1' & Hi2' & HiL & HiG).
    pose proof Hfj as (Hj1' & Hj2' & HjL & HjG).
    split_and!.
    + by rewrite !length_insert.
    + eapply sorted2_insert; [|done|done]. by eapply sorted2_insert.
    + apply sep_upto_int_S.
      * eapply (sep_upto_int_insert _ _ _ aj); [|lia|done|done|done|done].
        by eapply (sep_upto_int_insert _ _ _ ai); [done|lia|done|done|done|].
      * intros x b y Hx _ _ Gx.
        rewrite list_lookup_insert_ne in Hx by lia.
        rewrite list_lookup_insert_eq in Hx by done. simplify_eq. congruence.
Qed.

Lemma scan_int N i i_diag A e :
  scan_inv_int N i i_diag A e (S i) ->
  exists A', scan (N - S i) A i i_diag e (S i) = Some A' /\ scan_post_int N i A'.
Proof.
  intros HI.
  pose proof (scan_invariant (scan_inv_int N i i_diag) i i_diag
                (fun A e j A' e' => scan_inv_int_step N i i_diag A e j A' e')
                (N - S i)%nat A e (S i) HI) as H.
  destruct (scan (N - S i) A i i_diag e (S i)) as [A'|].
  - exists A'. split; [done|].
    destruct H as (A1 & e1 & j1 & HI1 & [[-> ->]|Hstop]).
    + eapply scan_inv_int_exit; [done|]. left.
      apply lookup_ge_None. destruct HI1 as (HN1 & _ & _ & _ & ai & Hi & _).
      apply lookup_lt_Some in Hi. lia.
    + by eapply scan_inv_int_break.
  - destruct H as (A1 & e1 & j1 & HI1 & Hfail). exfalso.
    apply scan_body_fail_spec in Hfail as (ai & aj & Hi & Hj & Hlt).
    destruct HI1 as (_ & Hsort & Hij & _).
    specialize (Hsort i j1 ai aj Hij Hi Hj). simpl in Hsort. lia.
Qed.

Lemma filter_loop_int (fuel : nat) :
  forall A i,
    sorted2 A -> sep_upto_int i A ->
    (length A - 1 <= i + fuel)%nat ->
    exists A', filter_loop fuel A i = Some A' /\
      length A' = length A /\ sorted2 A' /\
      ordpairs (fun x y => Good x = true -> Good y = true -> apart_int x y) A'.
Proof.
  induction fuel as [|fuel IH]; intros A i Hsort Hsep Hlen; simpl.
  - exists A. split_and!; try done. apply (sep_upto_int_all i); [done|lia].
  - destruct (A !! i) as [ai|] eqn:Hi.
    + destruct (Good ai) eqn:HG.
      * destruct (scan_int (length A) i (to_int (Start2 ai - Start1 ai)) A
                    (to_int (Start2 ai + Len ai))) as (A1 & -> & HN1 & Hs1 & Hsep1).
        { split_and!; try done; try lia. exists ai. split_and!; try done. lia. }
        destruct (IH A1 (S i) Hs1 Hsep1) as (A' & HA' & Hl' & Hrest); [lia|].
        exists A'. split; [done|]. split; [lia|done].
      * destruct (IH A (S i) Hsort) as (A' & HA' & Hrest); [|lia|by exists A'].
        apply sep_upto_int_S; [done|]. intros x b y Hx. simplify_eq. congruence.
    + exists A. split_and!; try done. apply (sep_upto_int_all i); [done|].
      apply lookup_ge_None in Hi. lia.
Qed.

(** The filter on sorted matches of any size: the result is sorted, and any
    two of its matches are apart as the filter sees them. *)
Lemma Filter_Matches_separated_int (A : list Match_t) :
  sorted2 A ->
  exists out, Filter_Matches A = Some out /\ sorted2 out /\ separated_int out.
Proof.
  intros Hsort. unfold Filter_Matches.
  destruct (filter_loop_int (length A - 1) (map (set_Good true) A) 0)
    as (A' & HA' & Hlen' & Hs' & Hsep').
  - by apply sorted2_map.
  - intros a b x y Ha. lia.
  - rewrite length_map. lia.
  - rewrite HA'. eexists. split; [done|].
    rewrite pack_filter. split.
    + apply sorted2_map; [done|]. apply ordpairs_filter.
      eapply ordpairs_impl; [|exact Hs']. auto.
    + apply ordpairs_map. apply ordpairs_filter.
      eapply ordpairs_impl; [|exact Hsep']. auto.
Qed.

(** ** A second run of [Filter_Matches] *)

Section Second_Run.

  (** The matches the second run starts from: sorted, and apart as the
      filter sees them. *)
  Variable A0 : list Match_t.
  Hypothesis Hs0 : sorted2 A0.
  Hypothesis Hp0 : separated_int A0.

Lemma quiet_inv_step i i_diag e0 A e j A' e' :
  quiet_inv A0 i i_diag e0 A e j ->
  scan_body A i i_diag e j = Scan_next A' e' ->
  quiet_inv A0 i i_diag e0 A' e' (S j).
Proof using Hs0 Hp0.
  intros (Hmap & Hij & He0 & ai & Hi & Hd & He) Hb.
  assert (Hsort : sorted2 A) by by eapply sorted2_triple.
  assert (Hsep : separated_int A) by by eapply separated_int_triple.
  apply scan_body_next_spec in Hb; [|lia].
  destruct Hb as (ai1 & aj & ai' & aj' & Hi1 & Hj & -> & Hje & Hle & Hfj
                    & Hs1 & Hs2 & HGi & Hcase).
  assert (ai1 = ai) as -> by congruence. clear Hi1.
  assert (Hli : (i < length A)%nat) by by eapply lookup_lt_Some.
  destruct Hcase as [(Gj & Hdd & _)|(HL & He' & _)].
  { exfalso. specialize (Hsep i j ai aj Hij Hi Hj). unfold apart_int in Hsep.
    apply Hsep; [lia|congruence]. }
  destruct Hfj as (Hj1' & Hj2' & HjL & HjG).
  assert (Hti : triple ai' = triple ai) by (unfold triple; congruence).
  assert (Htj : triple aj' = triple aj) by (unfold triple; congruence).
  split_and!.
  - rewrite (map_insert_same triple _ j aj aj');
      [|by rewrite list_lookup_insert_ne by lia|done].
    by rewrite (map_insert_same triple _ i ai ai').
  - lia.
  - congruence.
  - exists ai'. split_and!.
    + rewrite list_lookup_insert_ne by lia. by apply list_lookup_insert_eq.
    + unfold diag in *. by rewrite Hs1, Hs2.
    + rewrite Hs2, HL. congruence.
Qed.

Lemma quiet_stop i i_diag e0 A e j A' :
  quiet_inv A0 i i_diag e0 A e j ->
  scan_body A i i_diag e j = Scan_stop A' ->
  map triple A' = map triple A0.
Proof.
  intros (Hmap & Hij & He0 & ai & Hi & Hd & He) Hb.
  apply scan_body_stop_spec in Hb; [|lia].
  destruct Hb as [(-> & _)|Hbreak]; [done|].
  destruct Hbreak as (ai1 & aj & ai' & aj' & Hi1 & Hj & -> & Hfj & Hfi & HGi').
  assert (ai1 = ai) as -> by congruence. clear Hi1.
  destruct Hfj as (Hj1' & Hj2' & HjL & HjG). destruct Hfi as (Hi1' & Hi2' & HiL & HiG).
  rewrite (map_insert_same triple _ j aj aj');
    [|by rewrite list_lookup_insert_ne by lia|unfold triple; congruence].
  rewrite (map_insert_same triple _ i ai ai'); [done|done|unfold triple; congruence].
Qed.

Lemma scan_quiet fuel i i_diag A e :
  quiet_inv A0 i i_diag e A e (S i) ->
  exists A', scan fuel A i i_diag e (S i) = Some A' /\
             map triple A' = map triple A0.
Proof using Hs0 Hp0.
  intros HI.
  pose proof (scan_invariant (quiet_inv A0 i i_diag e) i i_diag
                (fun A e1 j A' e' => quiet_inv_step i i_diag e A e1 j A' e')
                fuel A e (S i) HI) as H.
  destruct (scan fuel A i i_diag e (S i)) as [A'|].
  - exists A'. split; [done|].
    destruct H as (A1 & e1 & j1 & HI1 & [[-> ->]|Hstop]).
    + by destruct HI1.
    + by eapply quiet_stop.
  - destruct H as (A1 & e1 & j1 & HI1 & Hfail). exfalso.
    apply scan_body_fail_spec in Hfail as (ai & aj & Hi & Hj & Hlt).
    destruct HI1 as (Hmap & Hij & _).
    assert (Hsort : sorted2 A1) by by eapply sorted2_triple.
    specialize (Hsort i j1 ai aj Hij Hi Hj). simpl in Hsort. lia.
Qed.

Lemma filter_loop_quiet (fuel : nat) :
  forall A i, map triple A = map triple A0 ->
    exists A', filter_loop fuel A i = Some A' /\ map triple A' = map triple A0.
Proof using Hs0 Hp0.
  induction fuel as [|fuel IH]; intros A i Hmap; simpl; [by exists A|].
  destruct (A !! i) as [ai|] eqn:Hi; [|by exists A].
  destruct (Good ai).
  - destruct (scan_quiet (length A - S i) i (to_int (Start2 ai - Start1 ai)) A
                (to_int (Start2 ai + Len ai))) as (A1 & -> & Hmap1).
    { split_and!; try done; try lia. by exists ai. }
    by apply IH.
  - by apply IH.
Qed.

End Second_Run.

(** On sorted matches that are apart as the filter sees them, the filter
    extends nothing: its result is a subsequence of its argument. *)
Lemma Filter_Matches_quiet (A : list Match_t) :
  sorted2 A -> separated_int A ->
  exists out, Filter_Matches A = Some out /\
    sublist (map triple out) (map triple A).
Proof.
  intros Hs Hp. unfold Filter_Matches.
  destruct (filter_loop_quiet A Hs Hp (length A - 1) (map (set_Good true) A) 0)
    as (A' & -> & Hmap).
  { rewrite List.map_map. by apply List.map_ext. }
  eexists. split; [done|]. rewrite pack_filter, List.map_map.
  rewrite <- Hmap.
  rewrite (List.map_ext (fun x => triple (set_Good false x)) triple) by done.
  apply sublist_map_filter.
Qed.

(** Claim C4, as amended.  For matches sorted by [Start2] the filter can be
    run on its own result, and the second run merges nothing and extends no
    length: what it returns is a subsequence of what it was given,
    coordinates and lengths unchanged.  It may still drop matches, see
    [Filter_Matches_not_idempotent]. *)
Theorem Filter_Matches_twice (A : list Match_t) :
  sorted2 A ->
  exists out1 out2,
    Filter_Matches A = Some out1 /\ Filter_Matches out1 = Some out2 /\
    sublist (map triple out2) (map triple out1).
Proof.
  intros Hs.
  destruct (Filter_Matches_separated_int A Hs) as (out1 & H1 & Hs1 & Hp1).
  destruct (Filter_Matches_quiet out1 Hs1 Hp1) as (out2 & H2 & Hsub).
  by exists out1, out2.
Qed.

Lemma Filter_Matches_twice_witness :
  exists out1 out2,
    Filter_Matches [new_Match 0 0 4; new_Match 0 3 10; new_Match 4 4 10] = Some out1
    /\ Filter_Matches out1 = Some out2
    /\ sublist (map triple out2) (map triple out1).
Proof.
  apply (Filter_Matches_twice [new_Match 0 0 4; new_Match 0 3 10; new_Match 4 4 10]).
  apply sorted2b_sorted2. reflexivity.
Defined.

(** Claim C4 as stated fails: the first run merges [(4,4,10)] into
    [(0,0,4)], which becomes [(0,0,14)]; the second run then finds
    [(0,3,10)] shorter than it and overlapped by more than half, and drops
    it. *)
Lemma Filter_Matches_not_idempotent :
  Filter_Matches [new_Match 0 0 4; new_Match 0 3 10; new_Match 4 4 10]
  = Some [new_Match 0 0 14; new_Match 0 3 10]
  /\ Filter_Matches [new_Match 0 0 14; new_Match 0 3 10]
     = Some [new_Match 0 0 14].
Proof. split; reflexivity. Qed.

(** ** [Process_Cluster]: scoring *)

Lemma linkdata_insert_ge A i x p y :
  (i <= p)%nat -> linkdata A i x -> linkdata (<[p := y]> A) i x.
Proof.
  intros Hp [H|(j & aj & H1 & H2 & H3 & H4)]; [by left|right].
  exists j, aj. split_and!; try done. by rewrite list_lookup_insert_ne by lia.
Qed.

Lemma linkdata_same A i x x' :
  triple x' = triple x -> Simple_From x' = Simple_From x ->
  Simple_Adj x' = Simple_Adj x -> linkdata A i x -> linkdata A i x'.
Proof.
  intros Ht HF HA [H|(j & aj & H1 & H2 & H3 & H4)]; [left; congruence|right].
  exists j, aj. split_and!; try done; try congruence.
  rewrite HA, H4. unfold olap, triple in *. injection Ht as E1 E2 E3.
  by rewrite E1, E2.
Qed.

Lemma score_step_spec A i j aj ai :
  A !! j = Some aj -> (j < i)%nat ->
  same_base ai (score_step j aj ai) /\
  (linkdata A i ai -> linkdata A i (score_step j aj ai)).
Proof.
  intros Hj Hji. unfold score_step.
  destruct (_ >? _); [|done].
  split; [done|]. intros _. right. exists j, aj. by split_and!.
Qed.

Lemma score_inner_spec (fuel : nat) :
  forall A i j ai,
    A !! i = Some ai -> (j + fuel <= i)%nat -> linkdata A i ai ->
    exists ai', score_inner fuel A i j = <[i := ai']> A /\
                same_base ai ai' /\ linkdata A i ai'.
Proof.
  induction fuel as [|fuel IH]; intros A i j ai Hi Hle Hlink; simpl.
  - exists ai. by rewrite list_insert_id.
  - assert (Hlj : (j < length A)%nat) by (apply lookup_lt_Some in Hi; lia).
    apply lookup_lt_is_Some_2 in Hlj as [aj Hj]. rewrite Hj, Hi.
    destruct (score_step_spec A i j aj ai Hj) as [Hb Hl]; [lia|].
    assert (Hli : (i < length A)%nat) by by eapply lookup_lt_Some.
    destruct (IH (<[i := score_step j aj ai]> A) i (S j) (score_step j aj ai))
      as (ai' & Hrun & Hb' & Hl').
    + by apply list_lookup_insert_eq.
    + lia.
    + apply linkdata_insert_ge; [lia|auto].
    + exists ai'. rewrite Hrun, list_insert_insert_eq. split_and!; [done| |].
      * destruct Hb, Hb'. split; congruence.
      * destruct Hl' as [H|(k & ak & H1 & H2 & H3 & H4)]; [by left|right].
        exists k, ak. split_and!; try done.
        by rewrite list_lookup_insert_ne in H3 by lia.
Qed.

Lemma same_base_refl x : same_base x x.
Proof. by split. Qed.

Lemma same_base_trans x y z : same_base x y -> same_base y z -> same_base x z.
Proof. intros [] []. split; congruence. Qed.

Lemma Forall2_same_base_insert A0 A i x x' :
  Forall2 same_base A0 A -> A !! i = Some x -> same_base x x' ->
  Forall2 same_base A0 (<[i := x']> A).
Proof.
  intros H Hi Hb.
  destruct (Forall2_lookup_r _ _ _ _ _ H Hi) as (x0 & H0 & Hb0).
  rewrite <- (list_insert_id A0 i x0 H0). apply Forall2_insert; [done|].
  by eapply same_base_trans.
Qed.

Lemma score_loop_spec (fuel : nat) :
  forall A0 A i,
    score_inv A0 A i -> (length A <= i + fuel)%nat ->
    Forall2 same_base A0 (score_loop fuel A i) /\ scored (score_loop fuel A i).
Proof.
  induction fuel as [|fuel IH]; intros A0 A i [Hb Hs] Hlen; simpl.
  - split; [done|]. intros p x Hp. apply Hs; [|done].
    apply lookup_lt_Some in Hp. lia.
  - destruct (A !! i) as [ai|] eqn:Hi.
    + set (a0 := set_Simple (Len ai) (-1) 0 ai).
      assert (Hli : (i < length A)%nat) by by eapply lookup_lt_Some.
      destruct (score_inner_spec i (<[i := a0]> A) i 0 a0) as (ai' & -> & Hb' & Hl').
      { by apply list_lookup_insert_eq. }
      { lia. }
      { by left. }
      rewrite list_insert_insert_eq. apply IH; [|rewrite length_insert; lia].
      split.
      * eapply Forall2_same_base_insert; [done|done|].
        eapply same_base_trans; [|done]. done.
      * intros p x Hp Hx. destruct (decide (p = i)) as [->|Hne].
        -- rewrite list_lookup_insert_eq in Hx by done. simplify_eq.
           destruct Hl' as [H|(k & ak & H1 & H2 & H3 & H4)]; [by left|right].
           exists k, ak. split_and!; try done.
           rewrite list_lookup_insert_ne in H3 by lia.
           by rewrite list_lookup_insert_ne by lia.
        -- rewrite list_lookup_insert_ne in Hx by done.
           apply linkdata_insert_ge; [lia|]. apply Hs; [lia|done].
    + split; [done|]. intros p x Hp. apply Hs; [|done].
      apply lookup_lt_Some in Hp. apply lookup_ge_None in Hi. lia.
Qed.

Lemma score_loop_scored A :
  Forall2 same_base A (score_loop (length A) A 0) /\
  scored (score_loop (length A) A 0).
Proof.
  apply score_loop_spec; [|lia]. split.
  - apply Forall2_lookup. intros i. destruct (A !! i); constructor. done.
  - intros p x Hp. lia.
Qed.

Lemma best_loop_lt (fuel : nat) :
  forall A best i, (best < length A)%nat -> (best_loop fuel A best i < length A)%nat.
Proof.
  induction fuel as [|fuel IH]; intros A best i Hb; simpl; [done|].
  destruct (A !! i) as [ai|] eqn:Hi; [|done].
  destruct (A !! best) as [ab|]; [|done].
  apply IH. destruct (_ >? _); [|done]. by eapply lookup_lt_Some.
Qed.

Lemma olap_triple aj aj' x x' :
  triple aj = triple aj' -> triple x = triple x' -> olap aj x = olap aj' x'.
Proof.
  unfold olap, triple. intros [= E1 E2 E3] [= F1 F2 F3].
  by rewrite E1, E2, E3, F1, F2.
Qed.

Lemma olap_ge aj ai :
  Start1 aj + Len aj <= Start1 ai + olap aj ai /\
  Start2 aj + Len aj <= Start2 ai + olap aj ai.
Proof. unfold olap. lia. Qed.

(** ** [Process_Cluster]: the walk back from the best end *)

Lemma scored_mark A n ai :
  scored A -> A !! n = Some ai -> scored (<[n := set_Good true ai]> A).
Proof.
  intros Hs Hn i x Hx.
  assert (Hln : (n < length A)%nat) by by eapply lookup_lt_Some.
  assert (Hx0 : exists x0, A !! i = Some x0 /\ triple x = triple x0 /\
                  Simple_From x = Simple_From x0 /\ Simple_Adj x = Simple_Adj x0).
  { destruct (decide (i = n)) as [->|Hne].
    - rewrite list_lookup_insert_eq in Hx by done. simplify_eq. by exists ai.
    - rewrite list_lookup_insert_ne in Hx by done. by exists x. }
  destruct Hx0 as (x0 & Hi & Ht & HF & HA).
  destruct (Hs i x0 Hi) as [H|(j & aj & H1 & H2 & H3 & H4)].
  - left. congruence.
  - right. destruct (decide (j = n)) as [->|Hne].
    + exists n, (set_Good true ai). split_and!; try done; try congruence.
      * by apply list_lookup_insert_eq.
      * assert (aj = ai) as -> by congruence.
        rewrite HA, H4. by apply olap_triple.
    + exists j, aj. split_and!; try done; try congruence.
      * by rewrite list_lookup_insert_ne.
      * rewrite HA, H4. by apply olap_triple.
Qed.

Lemma marked_trans x y z : marked x y -> marked y z -> marked x z.
Proof.
  intros [->| ->] [->| ->]; unfold marked; auto.
Qed.

Lemma Forall2_marked_refl A : Forall2 marked A A.
Proof. apply Forall2_lookup. intros i. destruct (A !! i); constructor. by left. Qed.

Lemma walk_main (fuel : nat) :
  forall A i total hi lo,
    walk_inv A i -> i < Z.of_nat fuel ->
    exists A' total' hi' lo',
      walk fuel A i total hi lo = Some (A', total', hi', lo') /\
      scored A' /\ (exists i', i' < 0 /\ chained_to i' A') /\
      Forall2 marked A A' /\
      (0 <= i -> exists x, A' !! Z.to_nat i = Some x /\ Good x = true).
Proof.
  induction fuel as [|fuel IH]; intros A i total hi lo (Hs & Hlen & Hlow & Hch) Hfuel.
  - simpl. destruct (Z.ltb_spec i 0) as [Hneg|Hpos]; [|lia].
    exists A, total, hi, lo. split_and!; try done; [by exists i|apply Forall2_marked_refl|lia].
  - cbn [walk]. destruct (Z.ltb_spec i 0) as [Hneg|Hpos].
    { exists A, total, hi, lo.
      split_and!; try done; [by exists i|apply Forall2_marked_refl|lia]. }
    assert (Hn : (Z.to_nat i < length A)%nat) by lia.
    apply lookup_lt_is_Some_2 in Hn as [ai Hi]. rewrite Hi.
    set (n := Z.to_nat i) in *.
    assert (Hln : (n < length A)%nat) by by eapply lookup_lt_Some.
    assert (HGi : Good ai = false) by (apply (Hlow n); [lia|done]).
    assert (Hfrom : Simple_From ai < Z.of_nat n).
    { destruct (Hs n ai Hi) as [H|(j & aj & H1 & H2 & _)]; lia. }
    set (A1 := <[n := set_Good true ai]> A).
    destruct (IH A1 (Simple_From ai) (total + Len ai)
                (if Start1 ai + Len ai >? hi then Start1 ai + Len ai else hi)
                (if Start1 ai <? lo then Start1 ai else lo))
      as (A' & t' & h' & l' & Hrun & Hs' & Hch' & Hm' & _).
    + split_and!.
      * by apply scored_mark.
      * unfold A1. rewrite length_insert. lia.
      * intros p y Hp Hy. unfold A1 in Hy.
        rewrite list_lookup_insert_ne in Hy by lia. apply (Hlow p); [lia|done].
      * intros q x Hq Gx. unfold A1 in Hq.
        destruct (decide (q = n)) as [->|Hne].
        -- rewrite list_lookup_insert_eq in Hq by done. simplify_eq. simpl.
           split; [|by left]. intros p y Hp1 Hp2 Hy. unfold A1 in Hy.
           rewrite list_lookup_insert_ne in Hy by lia. apply (Hlow p); [lia|done].
        -- rewrite list_lookup_insert_ne in Hq by done.
           destruct (Hch q x Hq Gx) as [Hno Hpred]. split.
           ++ intros p y Hp1 Hp2 Hy. unfold A1 in Hy.
              destruct (decide (p = n)) as [->|Hpn].
              ** exfalso. destruct Hpred as [Hp|(j & aj & Hj1 & Hj2 & Hj3)]; [lia|].
                 destruct (decide (Z.of_nat j <= i)) as [Hle|Hgt]; [|lia].
                 specialize (Hlow j aj Hle Hj2). congruence.
              ** rewrite list_lookup_insert_ne in Hy by done. by apply (Hno p).
           ++ right. destruct Hpred as [Hp|(j & aj & Hj1 & Hj2 & Hj3)].
              ** exists n, (set_Good true ai). split_and!; [lia| |done].
                 unfold A1. by apply list_lookup_insert_eq.
              ** exists j, aj. split_and!; try done. unfold A1.
                 rewrite list_lookup_insert_ne; [done|]. intros ->. congruence.
    + lia.
    + exists A', t', h', l'. split_and!; try done.
      * eapply Forall2_trans; [intros ? ? ?; apply marked_trans| |exact Hm'].
        unfold A1. rewrite <- (list_insert_id A n ai Hi) at 1.
        apply Forall2_insert; [apply Forall2_marked_refl|by right].
      * intros _. fold n.
        assert (HA1 : A1 !! n = Some (set_Good true ai))
          by (by apply list_lookup_insert_eq).
        destruct (Forall2_lookup_l _ _ _ _ _ Hm' HA1) as (x & Hx & [->| ->]);
          by exists (set_Good true ai).
Qed.

(** The walk needs the scoring only: it ends and marks its first index. *)
Lemma walk_total (fuel : nat) :
  forall A i total hi lo,
    scored A -> i < Z.of_nat (length A) -> i < Z.of_nat fuel ->
    exists A' total' hi' lo',
      walk fuel A i total hi lo = Some (A', total', hi', lo') /\
      Forall2 marked A A' /\
      (0 <= i -> exists x, A' !! Z.to_nat i = Some x /\ Good x = true).
Proof.
  induction fuel as [|fuel IH]; intros A i total hi lo Hs Hlen Hfuel.
  - simpl. destruct (Z.ltb_spec i 0) as [Hneg|Hpos]; [|lia].
    exists A, total, hi, lo. split_and!; [done|apply Forall2_marked_refl|lia].
  - cbn [walk]. destruct (Z.ltb_spec i 0) as [Hneg|Hpos].
    { exists A, total, hi, lo. split_and!; [done|apply Forall2_marked_refl|lia]. }
    assert (Hn : (Z.to_nat i < length A)%nat) by lia.
    apply lookup_lt_is_Some_2 in Hn as [ai Hi]. rewrite Hi.
    set (n := Z.to_nat i) in *.
    assert (Hln : (n < length A)%nat) by by eapply lookup_lt_Some.
    assert (Hfrom : Simple_From ai < Z.of_nat n).
    { destruct (Hs n ai Hi) as [H|(j & aj & H1 & H2 & _)]; lia. }
    destruct (IH (<[n := set_Good true ai]> A) (Simple_From ai) (total + Len ai)
                (if Start1 ai + Len ai >? hi then Start1 ai + Len ai else hi)
                (if Start1 ai <? lo then Start1 ai else lo))
      as (A' & t' & h' & l' & Hrun & Hm' & _).
    + by apply scored_mark.
    + rewrite length_insert. lia.
    + lia.
    + exists A', t', h', l'. split_and!; try done.
      * eapply Forall2_trans; [intros ? ? ?; apply marked_trans| |exact Hm'].
        rewrite <- (list_insert_id A n ai Hi) at 1.
        apply Forall2_insert; [apply Forall2_marked_refl|by right].
      * intros _.
        assert (HA1 : <[n := set_Good true ai]> A !! n = Some (set_Good true ai))
          by (by apply list_lookup_insert_eq).
        destruct (Forall2_lookup_l _ _ _ _ _ Hm' HA1) as (x & Hx & [->| ->]);
          by exists (set_Good true ai).
Qed.

Lemma same_base_marked_triple A A1 A2 :
  Forall2 same_base A A1 -> Forall2 marked A1 A2 -> map triple A2 = map triple A.
Proof.
  intros H1 H2.
  assert (H : Forall2 (fun x z => triple z = triple x) A A2).
  { eapply Forall2_trans; [|exact H1|exact H2].
    intros x y z [Ht _] [->| ->]; simpl; done. }
  clear H1 H2. induction H; simpl; [done|]. by f_equal.
Qed.

(** ** [Process_Cluster]: termination *)

(** One round of the loop of [Process_Cluster] selects a chain: the walk ends,
    coordinates are untouched and at least one match is marked. *)
Lemma select_chain_total (A : list Match_t) :
  A <> [] ->
  exists A1 total hi lo,
    select_chain A = Some (A1, total, hi, lo) /\
    map triple A1 = map triple A /\
    (length (pack (fun m => negb (Good m)) A1) < length A)%nat.
Proof.
  intros Hne. unfold select_chain.
  destruct (score_loop_scored A) as [Hb Hs].
  set (As := score_loop (length A) A 0) in *.
  assert (HlenS : length As = length A) by (symmetry; by eapply Forall2_length).
  assert (Hpos : (0 < length A)%nat) by (destruct A; [done|simpl; lia]).
  pose proof (best_loop_lt (length A - 1) As 0 1) as Hbest.
  set (best := best_loop (length A - 1) As 0 1) in *.
  destruct (walk_total (length A) As (Z.of_nat best) 0 LONG_MIN LONG_MAX)
    as (A1 & t & h & l & Hrun & Hm & HG); [done|lia|lia|].
  exists A1, t, h, l. split_and!; [done|by eapply same_base_marked_triple|].
  destruct HG as (x & Hx & Gx); [lia|]. rewrite Nat2Z.id in Hx.
  rewrite pack_filter.
  assert (HlenA1 : length A1 = length A)
    by (rewrite <- HlenS; symmetry; by eapply Forall2_length).
  rewrite <- HlenA1. eapply filter_drops_one; [done|]. by rewrite Gx.
Qed.

(** The loop of [Process_Cluster] ends within [length A] rounds. *)
Lemma cluster_loop_total cfg (fuel : nat) :
  forall A label print_ct,
    A <> [] -> (length A <= fuel)%nat ->
    exists ct out, cluster_loop fuel cfg A label print_ct = Some (ct, out).
Proof.
  induction fuel as [|fuel IH]; intros A label print_ct Hne Hlen.
  - destruct A; [done|simpl in Hlen; lia].
  - cbn [cluster_loop].
    destruct (select_chain_total A Hne) as (A1 & t & h & l & -> & _ & Hlt).
    destruct (chain_score cfg t h l >=? Min_Output_Score cfg).
    + destruct (Nat.ltb_spec 0 (length (pack (fun m => negb (Good m)) A1)))
        as [Hpos|Hpos]; [|by eexists _, _].
      destruct (IH (pack (fun m => negb (Good m)) A1) "#"%string (print_ct + 1))
        as (ct & out & ->);
        [intros Heq; rewrite Heq in Hpos; simpl in Hpos; lia|lia|]. by eexists _, _.
    + destruct (Nat.ltb_spec 0 (length (pack (fun m => negb (Good m)) A1)))
        as [Hpos|Hpos]; [|by eexists _, _].
      destruct (IH (pack (fun m => negb (Good m)) A1) label print_ct)
        as (ct & out & ->);
        [intros Heq; rewrite Heq in Hpos; simpl in Hpos; lia|lia|]. by eexists _, _.
Qed.



(** ** [Process_Cluster]: the records of a chain *)

Lemma print_loop_chained A i' :
  i' < 0 -> scored A -> chained_to i' A ->
  forall fuel i prev,
    prev_ok A i prev ->
    well_chained (prev_end A prev) (print_loop fuel A i prev).
Proof.
  intros Hi' Hs Hch. induction fuel as [|fuel IH]; intros i prev Hprev; simpl.
  - constructor.
  - destruct (A !! i) as [ai|] eqn:Hi; [|constructor].
    destruct (Good ai) eqn:HG.
    + assert (Hnext : prev_ok A (S i) (Z.of_nat i)).
      { right. exists i, ai. split_and!; try done; lia. }
      specialize (IH (S i) (Z.of_nat i) Hnext).
      assert (Hend : prev_end A (Z.of_nat i)
                     = Some (Start1 ai + Len ai, Start2 ai + Len ai)).
      { unfold prev_end. destruct (Z.eqb_spec (Z.of_nat i) (-1)); [lia|].
        by rewrite Nat2Z.id, Hi. }
      rewrite Hend in IH.
      destruct Hprev as [[-> Hnone]|(n & ap & -> & Hn & Hap & Gap & Hnone)].
      * unfold print_match, prev_end. simpl. by constructor.
      * unfold print_match, prev_end.
        destruct (Z.eqb_spec (Z.of_nat n) (-1)); [lia|].
        rewrite Nat2Z.id, Hap. simpl.
        destruct (Hch i ai Hi HG) as [Hno Hpred].
        assert (Hfrom : Simple_From ai = Z.of_nat n).
        { destruct Hpred as [Hneg|(j & aj & Hj1 & Hj2 & Hj3)].
          - specialize (Hno n ap). rewrite Hno in Gap; [done|lia|lia|done].
          - destruct (Hs i ai Hi) as [H|(j' & aj' & H1 & H2 & _)]; [lia|].
            destruct (decide (j < n)%nat) as [Hlt|Hge].
            + specialize (Hno n ap). rewrite Hno in Gap; [done|lia|lia|done].
            + destruct (decide (j = n)) as [->|Hne]; [done|].
              specialize (Hnone j aj). rewrite Hnone in Hj3; [done|lia|done]. }
        destruct (Hs i ai Hi) as [H|(j' & aj' & H1 & H2 & H3 & H4)]; [lia|].
        assert (j' = n) as -> by lia. assert (aj' = ap) as -> by congruence.
        pose proof (olap_ge ap ai) as [Ho1 Ho2]. rewrite <- H4 in Ho1, Ho2.
        constructor; [lia|lia|].
        replace (Start1 ai + Simple_Adj ai + (Len ai - Simple_Adj ai))
          with (Start1 ai + Len ai) by lia.
        replace (Start2 ai + Simple_Adj ai + (Len ai - Simple_Adj ai))
          with (Start2 ai + Len ai) by lia.
        done.
    + apply IH.
      destruct Hprev as [[-> Hnone]|(n & ap & -> & Hn & Hap & Gap & Hnone)].
      * left. split; [done|]. intros p y Hp Hy.
        destruct (decide (p = i)) as [->|Hne]; [congruence|].
        apply (Hnone p); [lia|done].
      * right. exists n, ap. split_and!; try done; [lia|].
        intros p y Hp Hy.
        destruct (decide (p = i)) as [->|Hne]; [congruence|].
        apply (Hnone p); [lia|done].
Qed.

Lemma well_chained_app last out out' :
  well_chained last out -> starts_with_label out' -> well_chained None out' ->
  well_chained last (out ++ out').
Proof.
  intros H Hl H'. induction H; simpl; try (constructor; auto; fail).
  destruct out' as [|[l| |] rest]; try done; [constructor|].
  inversion H'; subst. by constructor.
Qed.

Lemma well_chained_follows last out :
  well_chained last out ->
  forall k r1 r2, out !! k = Some r1 -> out !! S k = Some r2 -> follows r1 r2.
Proof.
  induction 1 as [last|last l rest H IH|s1 s2 len rest H IH
                  |e1 e2 s1 s2 len adj g1 g2 rest He1 He2 H IH];
    intros k r1 r2 H1 H2; [done| | |].
  - destruct k as [|k]; [|by eapply IH]. simpl in *. simplify_eq.
    inversion H; subst; simpl in *; by simplify_eq.
  - destruct k as [|k]; [|by eapply IH]. simpl in *. simplify_eq.
    inversion H; subst; simpl in *; by simplify_eq.
  - destruct k as [|k]; [|by eapply IH]. simpl in *. simplify_eq.
    inversion H; subst; simpl in *; by simplify_eq.
Qed.

(** After scoring and the walk on matches that were all unmarked, the
    marked matches are one chain. *)
Lemma select_chain_chained (A : list Match_t) :
  A <> [] -> Forall (fun m => Good m = false) A ->
  exists A1 total hi lo,
    select_chain A = Some (A1, total, hi, lo) /\
    scored A1 /\ exists i', i' < 0 /\ chained_to i' A1.
Proof.
  intros Hne Hclean. unfold select_chain.
  destruct (score_loop_scored A) as [Hb Hs].
  set (As := score_loop (length A) A 0) in *.
  assert (HlenS : length As = length A) by (symmetry; by eapply Forall2_length).
  assert (Hpos : (0 < length A)%nat) by (destruct A; [done|simpl; lia]).
  pose proof (best_loop_lt (length A - 1) As 0 1) as Hbest.
  set (best := best_loop (length A - 1) As 0 1) in *.
  assert (HcleanS : forall p y, As !! p = Some y -> Good y = false).
  { intros p y Hy. destruct (Forall2_lookup_r _ _ _ _ _ Hb Hy) as (x & Hx & _ & HG).
    rewrite HG. rewrite Forall_lookup in Hclean. by eapply Hclean. }
  destruct (walk_main (length A) As (Z.of_nat best) 0 LONG_MIN LONG_MAX)
    as (A1 & t & h & l & Hrun & Hs1 & Hch1 & _); [|lia|by exists A1, t, h, l].
  split_and!; [done|lia|by eauto|].
  intros q x Hq Gx. rewrite (HcleanS q x Hq) in Gx. done.
Qed.

Lemma cluster_loop_chained cfg (fuel : nat) :
  forall A label print_ct ct out,
    A <> [] -> Forall (fun m => Good m = false) A ->
    cluster_loop fuel cfg A label print_ct = Some (ct, out) ->
    starts_with_label out /\ well_chained None out.
Proof.
  induction fuel as [|fuel IH]; intros A label print_ct ct out Hne Hclean Hrun;
    [done|].
  cbn [cluster_loop] in Hrun.
  destruct (select_chain_chained A Hne Hclean)
    as (A1 & t & h & l & Hsel & Hs1 & i' & Hi' & Hch).
  rewrite Hsel in Hrun.
  set (A2 := pack (fun m => negb (Good m)) A1) in *.
  assert (Hclean2 : Forall (fun m => Good m = false) A2).
  { unfold A2. rewrite pack_filter. apply List.Forall_forall. intros m Hm.
    apply List.filter_In in Hm as [_ Hm]. by apply negb_true_iff. }
  assert (Hne2 : (0 < length A2)%nat -> A2 <> []).
  { intros Hpos Heq. rewrite Heq in Hpos. simpl in Hpos. lia. }
  assert (Hprint : well_chained None (print_loop (length A1) A1 0 (-1))).
  { apply (print_loop_chained A1 i' Hi' Hs1 Hch (length A1) 0%nat (-1)).
    left. split; [done|]. intros p y Hp. lia. }
  destruct (chain_score cfg t h l >=? Min_Output_Score cfg);
    destruct (Nat.ltb_spec 0 (length A2)) as [Hpos|Hpos].
  - destruct (cluster_loop fuel cfg A2 "#" (print_ct + 1)) as [[ct' out']|] eqn:Hrec;
      [|done].
    simplify_eq. destruct (IH _ _ _ _ _ (Hne2 Hpos) Hclean2 Hrec) as [Hl' Hw'].
    split; [done|]. simpl. constructor. by apply well_chained_app.
  - simplify_eq. split; [done|]. by constructor.
  - destruct (cluster_loop fuel cfg A2 label print_ct) as [[ct' out']|] eqn:Hrec;
      [|done].
    simplify_eq. by destruct (IH _ _ _ _ _ (Hne2 Hpos) Hclean2 Hrec).
  - simplify_eq. split; [done|constructor].
Qed.

(** Chain non-overlap for one cluster whose matches arrive unmarked. *)
Lemma Process_Cluster_no_overlap cfg (A : list Match_t) (label : string)
    (ct : Z) (out : list out_line) :
  Forall (fun m => Good m = false) A ->
  Process_Cluster cfg A label = Some (ct, out) ->
  forall k r1 r2, out !! k = Some r1 -> out !! S k = Some r2 -> follows r1 r2.
Proof.
  intros Hclean Hrun. unfold Process_Cluster in Hrun.
  destruct A as [|a A]; [done|].
  assert (Hne : a :: A <> []) by done.
  destruct (cluster_loop_chained cfg _ _ _ _ _ _ Hne Hclean Hrun) as [_ Hw].
  by eapply well_chained_follows.
Qed.

(** ** [Process_Cluster]: every match is accounted for *)

Lemma source_of_print_match A ai prev :
  source_of (print_match A ai prev) = Some (triple ai).
Proof.
  unfold print_match, triple. destruct (prev =? -1); [done|]. simpl.
  destruct (Z.eqb_spec (Simple_Adj ai) 0) as [->|Hne];
    repeat (f_equal; try lia).
Qed.

Lemma print_loop_sources (fuel : nat) :
  forall A i prev,
    (length A <= i + fuel)%nat ->
    omap source_of (print_loop fuel A i prev)
    = map triple (List.filter Good (drop i A)).
Proof.
  induction fuel as [|fuel IH]; intros A i prev Hlen; simpl.
  - by rewrite drop_ge by lia.
  - destruct (A !! i) as [ai|] eqn:Hi.
    + rewrite (drop_S _ _ _ Hi). simpl. destruct (Good ai); simpl.
      * rewrite source_of_print_match. f_equal. apply IH. lia.
      * apply IH. lia.
    + apply lookup_ge_None in Hi. by rewrite drop_ge by lia.
Qed.

Lemma omap_source_label l out :
  omap source_of (Label_line l :: out) = omap source_of out.
Proof. done. Qed.

Lemma cluster_loop_accounts cfg (fuel : nat) :
  forall A label print_ct,
    A <> [] -> (length A <= fuel)%nat ->
    exists ct out chains,
      cluster_loop fuel cfg A label print_ct = Some (ct, out) /\
      selected_chains fuel A = Some chains /\
      Permutation (concat (map members chains)) (map triple A) /\
      omap source_of out = concat (map members (List.filter (emitted cfg) chains)) /\
      ct = print_ct + Z.of_nat (length (List.filter (emitted cfg) chains)).
Proof.
  induction fuel as [|fuel IH]; intros A label print_ct Hne Hlen.
  - destruct A; [done|simpl in Hlen; lia].
  - cbn [cluster_loop selected_chains].
    destruct (select_chain_total A Hne) as (A1 & t & h & l & -> & Htr & Hlt).
    set (A2 := pack (fun m => negb (Good m)) A1) in *.
    assert (Hpart : Permutation (map triple (List.filter Good A1) ++ map triple A2)
                                (map triple A)).
    { rewrite <- Htr, <- List.map_app. apply Permutation_map.
      unfold A2. rewrite pack_filter. apply filter_split_perm. }
    assert (Hsrc : omap source_of (print_loop (length A1) A1 0 (-1))
                   = map triple (List.filter Good A1)).
    { by rewrite print_loop_sources by lia. }
    assert (Hemit : emitted cfg (List.filter Good A1, t, h, l)
                    = (chain_score cfg t h l >=? Min_Output_Score cfg)) by done.
    assert (Hmem : members (List.filter Good A1, t, h, l)
                   = map triple (List.filter Good A1)) by done.
    destruct (Nat.ltb_spec 0 (length A2)) as [Hpos|Hpos].
    + assert (Hne2 : A2 <> []).
      { intros Heq. rewrite Heq in Hpos. simpl in Hpos. lia. }
      destruct (chain_score cfg t h l >=? Min_Output_Score cfg) eqn:Hsc.
      * destruct (IH A2 "#"%string (print_ct + 1) Hne2)
          as (ct & out & chains & -> & -> & Hperm & Hout & Hct); [lia|].
        eexists _, _, _. split_and!; [done|done| | |].
        -- cbn [map concat]. rewrite Hmem, <- Hpart.
           by apply Permutation_app_head.
        -- cbn [List.filter]. rewrite Hemit. cbn [map concat].
           by rewrite omap_app, omap_source_label, Hsrc, Hout, Hmem.
        -- cbn [List.filter]. rewrite Hemit. cbn [length]. lia.
      * destruct (IH A2 label print_ct Hne2)
          as (ct & out & chains & -> & -> & Hperm & Hout & Hct); [lia|].
        eexists _, _, _. split_and!; [done|done| | |].
        -- cbn [map concat]. rewrite Hmem, <- Hpart.
           by apply Permutation_app_head.
        -- cbn [List.filter]. by rewrite Hemit.
        -- cbn [List.filter]. by rewrite Hemit.
    + assert (Hnil : A2 = []) by (destruct A2; [done|simpl in Hpos; lia]).
      rewrite Hnil in Hpart. rewrite app_nil_r in Hpart.
      destruct (chain_score cfg t h l >=? Min_Output_Score cfg) eqn:Hsc.
      * eexists _, _, _. split_and!; [done|done| | |].
        -- cbn [map concat]. by rewrite Hmem, app_nil_r.
        -- cbn [List.filter]. rewrite Hemit. cbn [map concat].
           by rewrite omap_source_label, Hsrc, Hmem, app_nil_r.
        -- cbn [List.filter]. rewrite Hemit. cbn [length]. lia.
      * eexists _, _, _. split_and!; [done|done| | |].
        -- cbn [map concat]. by rewrite Hmem, app_nil_r.
        -- cbn [List.filter]. by rewrite Hemit.
        -- cbn [List.filter]. rewrite Hemit. cbn [length]. lia.
Qed.

(** Claim C2, as amended.  For every non-empty cluster [Process_Cluster]
    returns, every match of the cluster belongs to exactly one selected
    chain (the members of the selected chains are a permutation of the
    cluster), and the records written are exactly the members of those
    selected chains whose score reaches [Min_Output_Score], in order;
    [print_ct] counts these chains.  So a match appears in at most one
    emitted chain, and in none when its chain scores too low, see
    [Process_Cluster_drops_short_chain]. *)
Theorem Process_Cluster_accounts cfg (A : list Match_t) (label : string) :
  A <> [] ->
  exists ct out chains,
    Process_Cluster cfg A label = Some (ct, out) /\
    selected_chains (length A) A = Some chains /\
    Permutation (concat (map members chains)) (map triple A) /\
    omap source_of out = concat (map members (List.filter (emitted cfg) chains)) /\
    ct = Z.of_nat (length (List.filter (emitted cfg) chains)).
Proof.
  intros Hne.
  destruct (cluster_loop_accounts cfg (length A) A label 0 Hne)
    as (ct & out & chains & H1 & H2 & H3 & H4 & H5); [lia|].
  exists ct, out, chains. split_and!; try done; lia.
Qed.

Lemma Process_Cluster_accounts_witness :
  exists ct out chains,
    Process_Cluster default_config [new_Match 0 0 10; new_Match 100 50 300] "L"
      = Some (ct, out) /\
    selected_chains 2 [new_Match 0 0 10; new_Match 100 50 300] = Some chains /\
    Permutation (concat (map members chains))
                (map triple [new_Match 0 0 10; new_Match 100 50 300]) /\
    omap source_of out
      = concat (map members (List.filter (emitted default_config) chains)) /\
    ct = Z.of_nat (length (List.filter (emitted default_config) chains)).
Proof.
  apply (Process_Cluster_accounts default_config
           [new_Match 0 0 10; new_Match 100 50 300] "L").
  discriminate.
Defined.

(** Claim C2 as stated fails: under the default configuration the only
    match of this cluster is consumed and no chain is emitted. *)
Lemma Process_Cluster_drops_short_chain :
  Process_Cluster default_config [new_Match 0 0 10] "L" = Some (0, []).
Proof. reflexivity. Qed.

Lemma cluster_loop_counted cfg (fuel : nat) :
  forall A label print_ct ct out,
    cluster_loop fuel cfg A label print_ct = Some (ct, out) ->
    counted label print_ct ct out.
Proof.
  induction fuel as [|fuel IH]; intros A label print_ct ct out Hrun; [done|].
  cbn [cluster_loop] in Hrun.
  destruct (select_chain A) as [[[[A1 t] h] l]|]; [|done].
  destruct (chain_score cfg t h l >=? Min_Output_Score cfg);
    destruct (0 <? length _)%nat.
  - destruct (cluster_loop fuel cfg _ "#" (print_ct + 1)) as [[ct' out']|] eqn:Hrec;
      [|done]. simplify_eq. destruct (IH _ _ _ _ _ Hrec) as (H1 & H2 & H3).
    split_and!; [lia|lia|]. intros _. by eexists.
  - simplify_eq. split_and!; [lia|lia|]. intros _. by eexists.
  - destruct (cluster_loop fuel cfg _ label print_ct) as [[ct' out']|] eqn:Hrec;
      [|done]. simplify_eq. by apply (IH _ _ _ _ _ Hrec).
  - simplify_eq. split_and!; [lia|done|lia].
Qed.

(** ** [UnionFind] *)

Lemma uf_get_set_eq uf a v :
  0 <= a -> (Z.to_nat a < length uf)%nat -> uf_get (uf_set uf a v) a = Some v.
Proof.
  intros Ha Hl. unfold uf_get, uf_set.
  destruct (Z.ltb_spec a 0); [lia|]. by apply list_lookup_insert_eq.
Qed.

Lemma uf_get_set_ne uf a b v :
  0 <= a -> 0 <= b -> a <> b -> uf_get (uf_set uf a v) b = uf_get uf b.
Proof.
  intros Ha Hb Hne. unfold uf_get, uf_set.
  destruct (Z.ltb_spec b 0); [done|]. apply list_lookup_insert_ne. lia.
Qed.

Lemma uf_get_Some uf a p :
  uf_get uf a = Some p -> 0 <= a /\ (Z.to_nat a < length uf)%nat.
Proof.
  unfold uf_get. destruct (Z.ltb_spec a 0); [done|]. intros Hl.
  apply lookup_lt_Some in Hl. lia.
Qed.

Lemma root_n_is_root uf a r d : root_n uf a r d -> is_root uf r.
Proof. induction 1; [by eexists|done]. Qed.

Lemma root_n_det uf a r d :
  root_n uf a r d -> forall r' d', root_n uf a r' d' -> r' = r /\ d' = d.
Proof.
  induction 1 as [a p Hp Hneg|a p r d Hp Hpos H IH]; intros r' d' H'.
  - inversion H'; subst; [done|]. simplify_eq. lia.
  - inversion H'; subst; simplify_eq; [lia|].
    destruct (IH _ _ H2) as [-> ->]. done.
Qed.

Lemma root_of_det uf a r r' : root_of uf a r -> root_of uf a r' -> r' = r.
Proof. intros [d H] [d' H']. by destruct (root_n_det _ _ _ _ H _ _ H'). Qed.

Lemma root_of_root uf r : is_root uf r -> root_of uf r r.
Proof. intros (p & Hp & Hneg). exists 0%nat. by econstructor. Qed.

Section Union_Find.

  (** The number of elements given to [reset]. *)
  Variable N : nat.

Lemma NoDup_range_length (l : list Z) :
  NoDup l -> (forall x, x ∈ l -> 1 <= x <= Z.of_nat N) -> (length l <= N)%nat.
Proof.
  intros Hnd Hin.
  assert (Hincl : l ⊆ (Z.of_nat <$> seq 1 N)).
  { intros x Hx. apply list_elem_of_fmap. exists (Z.to_nat x).
    split; [specialize (Hin x Hx); lia|].
    apply elem_of_seq. specialize (Hin x Hx). lia. }
  pose proof (submseteq_length _ _ (NoDup_submseteq _ _ Hnd Hincl)) as H.
  by rewrite length_fmap, length_seq in H.
Qed.

(** The loop of [find] that looks for the root. *)
Lemma find_root_sound uf rank (fuel : nat) :
  uf_ranked N uf rank ->
  forall a r, 1 <= a <= Z.of_nat N -> find_root fuel uf a = Some r ->
    1 <= r <= Z.of_nat N /\ exists d, (d < fuel)%nat /\ root_n uf a r d.
Proof.
  intros [Hlen Hwf]. induction fuel as [|fuel IH]; intros a r Ha Hrun; [done|].
  simpl in Hrun. destruct (Hwf a Ha) as (p & Hp & Hcase). rewrite Hp in Hrun.
  destruct Hcase as [Hneg|[Hpr Hrk]].
  - destruct (p >? 0) eqn:E; zbool; [lia|]. simplify_eq.
    split; [done|]. exists 0%nat. split; [lia|]. by econstructor.
  - destruct (p >? 0) eqn:E; zbool; [|lia].
    destruct (IH p r Hpr Hrun) as (Hr & d & Hd & Hroot).
    split; [done|]. exists (S d). split; [lia|]. by econstructor.
Qed.

Lemma find_root_total uf rank (fuel : nat) :
  uf_ranked N uf rank ->
  forall a visited,
    1 <= a <= Z.of_nat N -> NoDup visited ->
    (forall v, v ∈ visited -> 1 <= v <= Z.of_nat N /\ (rank v < rank a)%nat) ->
    (N <= length visited + fuel)%nat ->
    exists r, find_root fuel uf a = Some r.
Proof.
  intros [Hlen Hwf]. induction fuel as [|fuel IH]; intros a visited Ha Hnd Hv Hfuel.
  - exfalso.
    assert (Hnd' : NoDup (a :: visited)).
    { constructor; [|done]. intros Hin. destruct (Hv a Hin). lia. }
    apply (NoDup_range_length) in Hnd'; [simpl in Hnd'; lia|].
    intros x Hx. apply elem_of_cons in Hx as [->|Hx]; [done|]. by apply Hv.
  - simpl. destruct (Hwf a Ha) as (p & Hp & Hcase). rewrite Hp.
    destruct Hcase as [Hneg|[Hpr Hrk]].
    + destruct (p >? 0) eqn:E; zbool; [lia|]. by eexists.
    + destruct (p >? 0) eqn:E; zbool; [|lia].
      apply (IH p (a :: visited)); [done| | |simpl; lia].
      * constructor; [|done]. intros Hin. destruct (Hv a Hin). lia.
      * intros v Hin. apply elem_of_cons in Hin as [->|Hin]; [done|].
        destruct (Hv v Hin). split; [done|lia].
Qed.

Lemma find_root_spec uf rank a :
  uf_ranked N uf rank -> 1 <= a <= Z.of_nat N ->
  exists r d, find_root (length uf) uf a = Some r /\
    1 <= r <= Z.of_nat N /\ (d < length uf)%nat /\ root_n uf a r d.
Proof.
  intros Hwf Ha.
  destruct (find_root_total uf rank (length uf) Hwf a [] Ha) as (r & Hr).
  - constructor.
  - intros v Hv. by apply elem_of_nil in Hv.
  - destruct Hwf as [-> _]. simpl. lia.
  - destruct (find_root_sound uf rank _ Hwf a r Ha Hr) as (Hrr & d & Hd & Hroot).
    by exists r, d.
Qed.

Lemma same_roots_refl uf : same_roots N uf uf.
Proof. by intros x r _. Qed.

Lemma same_roots_trans u1 u2 u3 :
  same_roots N u1 u2 -> same_roots N u2 u3 -> same_roots N u1 u3.
Proof. intros H1 H2 x r Hx. rewrite (H1 x r Hx). by apply H2. Qed.

Lemma root_n_rank uf rank x r d :
  uf_ranked N uf rank -> root_n uf x r d -> 1 <= x <= Z.of_nat N ->
  1 <= r <= Z.of_nat N /\ ((d = 0%nat /\ x = r) \/ (rank x < rank r)%nat).
Proof.
  intros [Hlen Hwf]. induction 1 as [a p Hp Hneg|a p r d Hp Hpos H IH]; intros Hx.
  - split; [done|by left].
  - destruct (Hwf a Hx) as (p' & Hp' & [Hneg|[Hpr Hrk]]); simplify_eq; [lia|].
    destruct (IH Hpr) as [Hr [[_ ->]|Hlt]]; (split; [done|right; lia]).
Qed.

Lemma root_n_avoid uf rank j v x r d :
  uf_ranked N uf rank -> 0 <= j -> root_n uf x r d -> 1 <= x <= Z.of_nat N ->
  (rank j < rank x)%nat -> root_n (uf_set uf j v) x r d.
Proof.
  intros [Hlen Hwf] Hj. induction 1 as [a p Hp Hneg|a p r d Hp Hpos H IH];
    intros Hx Hrk.
  - apply (rn_root _ a p); [|done].
    rewrite uf_get_set_ne; [done|done|lia|]. intros ->. lia.
  - destruct (Hwf a Hx) as (p' & Hp' & [Hneg|[Hpr Hrk']]); simplify_eq; [lia|].
    apply (rn_step _ a p); [|done|apply IH; [done|lia]].
    rewrite uf_get_set_ne; [done|done|lia|]. intros ->. lia.
Qed.

Lemma uf_ranked_set uf rank j v :
  uf_ranked N uf rank -> 1 <= j <= Z.of_nat N ->
  (v < 0 \/ (1 <= v <= Z.of_nat N /\ (rank j < rank v)%nat)) ->
  uf_ranked N (uf_set uf j v) rank.
Proof.
  intros [Hlen Hwf] Hj Hv. split; [unfold uf_set; by rewrite length_insert|].
  intros a Ha. destruct (decide (a = j)) as [->|Hne].
  - exists v. split; [|done]. apply uf_get_set_eq; lia.
  - destruct (Hwf a Ha) as (p & Hp & Hcase). exists p. split; [|done].
    rewrite uf_get_set_ne; [done|lia|lia|done].
Qed.

(** One write of the compression loop: [m_UF[j] = i] for a non-root [j]
    with root [i]. *)
Lemma compress_write uf rank j i d :
  uf_ranked N uf rank -> 1 <= j <= Z.of_nat N -> root_n uf j i (S d) ->
  uf_ranked N (uf_set uf j i) rank /\ same_roots N uf (uf_set uf j i).
Proof.
  intros Hwf Hj Hroot.
  destruct (root_n_rank uf rank j i (S d) Hwf Hroot Hj) as [Hi [[? _]|Hrk]];
    [done|].
  assert (Hir : is_root uf i) by by eapply root_n_is_root.
  assert (Hij : i <> j) by (intros ->; lia).
  assert (Hjnr : forall p, uf_get uf j = Some p -> 0 < p).
  { intros p Hp. inversion Hroot; subst. by simplify_eq. }
  assert (Hi' : root_n (uf_set uf j i) i i 0).
  { destruct Hir as (q & Hq & Hneg). apply (rn_root _ i q); [|done].
    rewrite uf_get_set_ne; [done|lia|lia|done]. }
  assert (Hj' : uf_get (uf_set uf j i) j = Some i).
  { apply uf_get_set_eq; [lia|]. destruct Hwf as [-> _]. lia. }
  split; [apply uf_ranked_set; auto|].
  intros x r Hx. split.
  - intros [dx Hdx]. revert Hx.
    induction Hdx as [a p Hp Hneg|a p r dx Hp Hpos H IH]; intros Hx.
    + exists 0%nat. apply (rn_root _ a p); [|done].
      rewrite uf_get_set_ne; [done|lia|lia|]. intros ->.
      specialize (Hjnr p Hp). lia.
    + destruct (decide (a = j)) as [->|Hne].
      * assert (r = i) as ->.
        { eapply root_of_det; [by exists (S d)|]. exists (S dx). by econstructor. }
        exists 1%nat. apply (rn_step _ j i); [done|lia|done].
      * destruct Hwf as [Hlen Hwf0].
        destruct (Hwf0 a Hx) as (p' & Hp' & [Hneg|[Hpr _]]); simplify_eq; [lia|].
        destruct (IH Hpr) as [d' Hd']. exists (S d').
        apply (rn_step _ a p); [|done|done].
        rewrite uf_get_set_ne; [done|lia|lia|done].
  - intros [dx Hdx]. revert Hx.
    induction Hdx as [a p Hp Hneg|a p r dx Hp Hpos H IH]; intros Hx.
    + assert (a <> j) by (intros ->; simplify_eq; lia).
      rewrite uf_get_set_ne in Hp; [|lia|lia|done].
      exists 0%nat. by apply (rn_root _ a p).
    + destruct (decide (a = j)) as [->|Hne].
      * simplify_eq. destruct (IH Hi) as [d' Hd'].
        assert (r = i) as ->.
        { eapply root_of_det; [by apply root_of_root|by exists d']. }
        by exists (S d).
      * rewrite uf_get_set_ne in Hp; [|lia|lia|done].
        destruct Hwf as [Hlen Hwf0].
        destruct (Hwf0 a Hx) as (p' & Hp' & [Hneg|[Hpr _]]); simplify_eq; [lia|].
        destruct (IH Hpr) as [d' Hd']. exists (S d'). by apply (rn_step _ a p).
Qed.

Lemma compress_spec rank (fuel : nat) :
  forall uf j i d,
    uf_ranked N uf rank -> 1 <= j <= Z.of_nat N -> root_n uf j i (S d) ->
    (d < fuel)%nat ->
    exists uf', compress fuel uf j i = Some uf' /\
      uf_ranked N uf' rank /\ same_roots N uf uf'.
Proof.
  induction fuel as [|fuel IH]; intros uf j i d Hwf Hj Hroot Hfuel; [lia|].
  simpl. inversion Hroot as [|a k r d0 Hk Hpos Hrk]; subst. rewrite Hk.
  destruct (Z.eqb_spec k i) as [->|Hne]; simpl.
  - exists uf. split_and!; [done|done|apply same_roots_refl].
  - destruct d as [|d]; [inversion Hrk; by subst|].
    destruct (compress_write uf rank j i (S d) Hwf Hj Hroot) as [Hwf' Hsame].
    assert (Hkr : 1 <= k <= Z.of_nat N /\ (rank j < rank k)%nat).
    { destruct Hwf as [_ Hwf0].
      destruct (Hwf0 j Hj) as (p' & Hp' & [Hneg|[Hpr Hlt]]); simplify_eq; [lia|done]. }
    destruct Hkr as [Hkr Hlt].
    destruct (IH (uf_set uf j i) k i d Hwf' Hkr) as (uf' & Hrun & Hwf'' & Hsame');
      [|lia|].
    + eapply root_n_avoid; [done|lia|done|done|done].
    + exists uf'. split_and!; [done|done|by eapply same_roots_trans].
Qed.

Lemma find_spec uf rank a :
  uf_ranked N uf rank -> 1 <= a <= Z.of_nat N ->
  exists uf' r, find uf a = Some (uf', r) /\
    uf_ranked N uf' rank /\ 1 <= r <= Z.of_nat N /\
    root_of uf a r /\ same_roots N uf uf'.
Proof.
  intros Hwf Ha. unfold find.
  destruct (Hwf) as [Hlen Hwf0].
  destruct (Hwf0 a Ha) as (p & Hp & Hcase). rewrite Hp.
  destruct (Z.ltb_spec p 0) as [Hneg|Hpos].
  - exists uf, a. do 3 (split; [done|]). split; [|apply same_roots_refl].
    exists 0%nat. by econstructor.
  - destruct (find_root_spec uf rank a Hwf Ha) as (r & d & -> & Hr & Hd & Hroot).
    destruct d as [|d]; [inversion Hroot; subst; simplify_eq; lia|].
    destruct (compress_spec rank (length uf) uf a r d Hwf Ha Hroot)
      as (uf' & -> & Hwf' & Hsame); [lia|].
    exists uf', r. do 3 (split; [done|]). split; [by exists (S d)|done].
Qed.

Lemma root_exists uf a :
  uf_wf N uf -> 1 <= a <= Z.of_nat N ->
  exists r, 1 <= r <= Z.of_nat N /\ root_of uf a r.
Proof.
  intros [rank Hwf] Ha.
  destruct (find_root_spec uf rank a Hwf Ha) as (r & d & _ & Hr & _ & Hroot).
  exists r. split; [done|by exists d].
Qed.

Lemma reset_spec :
  (1 <= N)%nat -> exists uf, reset N = Some uf /\ uf_wf N uf /\
    forall a, 1 <= a <= Z.of_nat N -> is_root uf a.
Proof.
  intros HN. unfold reset. destruct (Nat.leb_spec 1 N); [|lia].
  eexists. split; [done|].
  assert (Hget : forall a, 1 <= a <= Z.of_nat N ->
                   uf_get (replicate (S N) (-1)) a = Some (-1)).
  { intros a Ha. unfold uf_get. destruct (Z.ltb_spec a 0); [lia|].
    apply lookup_replicate_2. lia. }
  split.
  - exists (fun _ => 0%nat). split; [by rewrite length_replicate|].
    intros a Ha. exists (-1). split; [by apply Hget|left; lia].
  - intros a Ha. exists (-1). split; [by apply Hget|lia].
Qed.

(** Linking the root [l] under the root [w], whose entry becomes [v]. *)
Lemma link_spec uf rank w l v :
  uf_ranked N uf rank ->
  1 <= w <= Z.of_nat N -> 1 <= l <= Z.of_nat N -> w <> l ->
  is_root uf w -> is_root uf l -> v < 0 ->
  uf_wf N (uf_set (uf_set uf w v) l w) /\
  forall x r, 1 <= x <= Z.of_nat N ->
    (root_of (uf_set (uf_set uf w v) l w) x r <->
     exists r0, root_of uf x r0 /\ r = (if decide (r0 = l) then w else r0)).
Proof.
  intros Hwf Hw Hl Hne Hrw Hrl Hv.
  set (uf' := uf_set (uf_set uf w v) l w).
  pose proof Hwf as [Hlen Hwf0].
  assert (Hgw : uf_get uf' w = Some v).
  { unfold uf'. rewrite uf_get_set_ne; [|lia|lia|done].
    apply uf_get_set_eq; [lia|]. rewrite Hlen. lia. }
  assert (Hgl : uf_get uf' l = Some w).
  { unfold uf'. apply uf_get_set_eq; [lia|].
    unfold uf_set. rewrite length_insert, Hlen. lia. }
  assert (Hgo : forall x, 0 <= x -> x <> w -> x <> l -> uf_get uf' x = uf_get uf x).
  { intros x Hx H1 H2. unfold uf'.
    rewrite uf_get_set_ne; [|lia|lia|done]. rewrite uf_get_set_ne; [done|lia|lia|done]. }
  assert (Hwroot : root_n uf' w w 0) by by apply (rn_root _ w v).
  assert (Hfwd : forall x r0 d, root_n uf x r0 d -> 1 <= x <= Z.of_nat N ->
                   root_of uf' x (if decide (r0 = l) then w else r0)).
  { intros x r0 d H. induction H as [a p Hp Hneg|a p r d Hp Hpos H IH]; intros Hx.
    - destruct (decide (a = l)) as [->|Hal].
      + exists 1%nat. apply (rn_step _ l w); [done|lia|done].
      + destruct (decide (a = w)) as [->|Haw]; [by exists 0%nat|].
        exists 0%nat. apply (rn_root _ a p); [|done]. by rewrite Hgo by (done || lia).
    - destruct (Hwf0 a Hx) as (p' & Hp' & [Hneg|[Hpr _]]); simplify_eq; [lia|].
      destruct (IH Hpr) as [d' Hd']. exists (S d').
      apply (rn_step _ a p); [|done|done].
      rewrite Hgo; [done|lia| |].
      + intros ->. destruct Hrw as (q & Hq & Hqn). simplify_eq. lia.
      + intros ->. destruct Hrl as (q & Hq & Hqn). simplify_eq. lia. }
  split.
  - exists (fun z => if decide (z = w) then Nat.max (rank w) (S (rank l)) else rank z).
    split; [unfold uf', uf_set; by rewrite !length_insert|].
    intros a Ha. destruct (decide (a = l)) as [->|Hal].
    { exists w. split; [done|]. right. split; [done|].
      cbv beta. rewrite (decide_False (P := l = w)) by congruence.
      rewrite (decide_True (P := w = w)) by done. lia. }
    destruct (decide (a = w)) as [->|Haw].
    { exists v. split; [done|by left]. }
    destruct (Hwf0 a Ha) as (p & Hp & Hcase). exists p.
    split; [by rewrite Hgo by (done || lia)|].
    destruct Hcase as [?|[Hpr Hrk]]; [by left|right]. split; [done|].
    cbv beta. try rewrite (decide_False (P := a = w)) by done.
    destruct (decide (p = w)); subst; lia.
  - intros x r Hx. split.
    + intros Hr. destruct (root_exists uf x) as (r0 & Hr0 & [d Hd]); [by exists rank|done|].
      exists r0. split; [by exists d|].
      eapply root_of_det; [|exact Hr]. by eapply Hfwd.
    + intros (r0 & [d Hd] & ->). by eapply Hfwd.
Qed.

Lemma same_set_sym uf x y : same_set uf x y -> same_set uf y x.
Proof. intros (r & H1 & H2). by exists r. Qed.

Lemma same_set_trans uf x y z : same_set uf x y -> same_set uf y z -> same_set uf x z.
Proof.
  intros (r & H1 & H2) (r' & H3 & H4).
  assert (r' = r) as -> by by eapply root_of_det. by exists r.
Qed.

Lemma same_set_refl uf x :
  uf_wf N uf -> 1 <= x <= Z.of_nat N -> same_set uf x x.
Proof.
  intros Hwf Hx. destruct (root_exists uf x Hwf Hx) as (r & _ & Hr). by exists r.
Qed.

Lemma same_roots_same_set uf uf' x y :
  same_roots N uf uf' -> 1 <= x <= Z.of_nat N -> 1 <= y <= Z.of_nat N ->
  (same_set uf x y <-> same_set uf' x y).
Proof.
  intros Hsame Hx Hy. split; intros (r & H1 & H2); exists r.
  - split; by apply Hsame.
  - split; by apply Hsame.
Qed.

(** [union_sets] on the roots of two elements. *)
Lemma union_sets_spec uf a b :
  uf_wf N uf -> 1 <= a <= Z.of_nat N -> 1 <= b <= Z.of_nat N ->
  is_root uf a -> is_root uf b ->
  exists uf', union_sets uf a b = Some uf' /\ uf_wf N uf' /\
    forall x y, 1 <= x <= Z.of_nat N -> 1 <= y <= Z.of_nat N ->
      (same_set uf' x y <->
       same_set uf x y \/ (same_set uf x a /\ same_set uf y b)
       \/ (same_set uf x b /\ same_set uf y a)).
Proof.
  intros Hwf Ha Hb Hra Hrb. unfold union_sets.
  destruct (Z.eqb_spec a b) as [->|Hne].
  { exists uf. split_and!; try done. intros x y Hx Hy. split; [by left|].
    intros [H|[[H1 H2]|[H1 H2]]]; [done| |];
      (eapply same_set_trans; [exact H1|by apply same_set_sym]). }
  pose proof Hra as (pa & Hpa & Hna). pose proof Hrb as (pb & Hpb & Hnb).
  rewrite Hpa, Hpb.
  destruct (Z.ltb_spec pa 0) as [_|?]; [|lia].
  destruct (Z.ltb_spec pb 0) as [_|?]; [|lia]. simpl.
  destruct Hwf as [rank Hwf].
  assert (Hchar : forall w l v uf',
    uf' = uf_set (uf_set uf w v) l w ->
    1 <= w <= Z.of_nat N -> 1 <= l <= Z.of_nat N -> w <> l ->
    is_root uf w -> is_root uf l -> v < 0 ->
    uf_wf N uf' /\
    forall x y, 1 <= x <= Z.of_nat N -> 1 <= y <= Z.of_nat N ->
      (same_set uf' x y <->
       same_set uf x y \/ (same_set uf x w /\ same_set uf y l)
       \/ (same_set uf x l /\ same_set uf y w))).
  { intros w l v uf' -> Hw Hl Hwl Hrw Hrl Hv.
    destruct (link_spec uf rank w l v Hwf Hw Hl Hwl Hrw Hrl Hv) as [Hwf' Hroots].
    split; [done|]. intros x y Hx Hy.
    destruct (root_exists uf x) as (rx & _ & Hrx); [by exists rank|done|].
    destruct (root_exists uf y) as (ry & _ & Hry); [by exists rank|done|].
    assert (Hsw : forall z rz, root_of uf z rz -> (same_set uf z w <-> rz = w)).
    { intros z rz Hz. split.
      - intros (r & H1 & H2).
        assert (r = w) as -> by (eapply root_of_det; [by apply root_of_root|done]).
        by eapply root_of_det.
      - intros ->. exists w. split; [done|by apply root_of_root]. }
    assert (Hsl : forall z rz, root_of uf z rz -> (same_set uf z l <-> rz = l)).
    { intros z rz Hz. split.
      - intros (r & H1 & H2).
        assert (r = l) as -> by (eapply root_of_det; [by apply root_of_root|done]).
        by eapply root_of_det.
      - intros ->. exists l. split; [done|by apply root_of_root]. }
    assert (Hxy : same_set uf x y <-> rx = ry).
    { split.
      - intros (r & H1 & H2).
        assert (rx = r) by by apply (root_of_det uf x r rx).
        assert (ry = r) by by apply (root_of_det uf y r ry). congruence.
      - intros E. exists rx. split; [done|]. by rewrite E. }
    rewrite Hxy, (Hsw x rx Hrx), (Hsw y ry Hry), (Hsl x rx Hrx), (Hsl y ry Hry).
    split.
    - intros (r & H1 & H2).
      apply Hroots in H1 as (r1 & Hr1 & E1); [|done].
      apply Hroots in H2 as (r2 & Hr2 & E2); [|done].
      assert (r1 = rx) as -> by by apply (root_of_det uf x rx r1).
      assert (r2 = ry) as -> by by apply (root_of_det uf y ry r2).
      destruct (decide (rx = l)), (decide (ry = l)); subst; auto.
    - intros Hcase.
      exists (if decide (rx = l) then w else rx). split.
      + apply Hroots; [done|]. by exists rx.
      + apply Hroots; [done|]. exists ry. split; [done|].
        destruct (decide (rx = l)), (decide (ry = l)); subst; try done;
          destruct Hcase as [?|[[? ?]|[? ?]]]; congruence. }
  destruct (Z.ltb_spec pa pb) as [Hlt|Hge].
  - destruct (Hchar a b (pa + pb) _ eq_refl Ha Hb Hne Hra Hrb) as [Hwf' Hss]; [lia|].
    eexists. split; [done|]. split; [done|]. done.
  - destruct (Hchar b a (pb + pa) _ eq_refl Hb Ha) as [Hwf' Hss]; [done|done|done|lia|].
    eexists. split; [done|]. split; [done|].
    intros x y Hx Hy. rewrite (Hss x y Hx Hy). tauto.
Qed.

(** [UF.union_sets(UF.find(i), UF.find(j))]: both arguments are roots in
    range, so the assertion holds, and the two sets are joined. *)
Lemma join_spec uf i j :
  uf_wf N uf -> 1 <= i <= Z.of_nat N -> 1 <= j <= Z.of_nat N ->
  exists uf1 a uf2 b uf3,
    find uf i = Some (uf1, a) /\ find uf1 j = Some (uf2, b) /\
    1 <= a <= Z.of_nat N /\ 1 <= b <= Z.of_nat N /\
    is_root uf2 a /\ is_root uf2 b /\
    union_sets uf2 a b = Some uf3 /\ join uf i j = Some uf3 /\
    uf_wf N uf3 /\
    forall x y, 1 <= x <= Z.of_nat N -> 1 <= y <= Z.of_nat N ->
      (same_set uf3 x y <->
       same_set uf x y \/ (same_set uf x i /\ same_set uf y j)
       \/ (same_set uf x j /\ same_set uf y i)).
Proof.
  intros [rank Hwf] Hi Hj. unfold join.
  destruct (find_spec uf rank i Hwf Hi) as (uf1 & a & Hf1 & Hwf1 & Ha & Hia & Hs1).
  destruct (find_spec uf1 rank j Hwf1 Hj) as (uf2 & b & Hf2 & Hwf2 & Hb & Hjb & Hs2).
  rewrite Hf1, Hf2.
  assert (Hs12 : same_roots N uf uf2) by by eapply same_roots_trans.
  assert (Hia2 : root_of uf2 i a) by (apply Hs12; done).
  assert (Hjb2 : root_of uf2 j b) by (apply Hs2; done).
  assert (Hra : is_root uf2 a) by (destruct Hia2 as [d Hd]; by eapply root_n_is_root).
  assert (Hrb : is_root uf2 b) by (destruct Hjb2 as [d Hd]; by eapply root_n_is_root).
  destruct (union_sets_spec uf2 a b) as (uf3 & Hun & Hwf3 & Hss);
    [by exists rank|done|done|done|done|].
  exists uf1, a, uf2, b, uf3. rewrite Hun.
  do 9 (split; [done|]).
  intros x y Hx Hy. rewrite (Hss x y Hx Hy).
  assert (Hai : forall z, same_set uf2 z a <-> same_set uf2 z i).
  { intros z. split; intros H.
    - eapply same_set_trans; [exact H|]. exists a. split; [by apply root_of_root|done].
    - eapply same_set_trans; [exact H|]. exists a. split; [done|by apply root_of_root]. }
  assert (Hbj : forall z, same_set uf2 z b <-> same_set uf2 z j).
  { intros z. split; intros H.
    - eapply same_set_trans; [exact H|]. exists b. split; [by apply root_of_root|done].
    - eapply same_set_trans; [exact H|]. exists b. split; [done|by apply root_of_root]. }
  rewrite !Hai, !Hbj.
  rewrite <- !(same_roots_same_set uf uf2) by done. done.
Qed.

End Union_Find.

(** ** The clustering loops *)

Lemma crst_mono (E E' : nat -> nat -> Prop) p q :
  (forall a b, E a b -> E' a b) ->
  clos_refl_sym_trans nat E p q -> clos_refl_sym_trans nat E' p q.
Proof.
  intros HE. induction 1 as [a b H|a|a b H IH|a b c H1 IH1 H2 IH2].
  - apply rst_step. auto.
  - apply rst_refl.
  - by apply rst_sym.
  - by eapply rst_trans.
Qed.

Lemma crst_range (E : nat -> nat -> Prop) (n : nat) p q :
  (forall a b, E a b -> (a < n)%nat /\ (b < n)%nat) ->
  clos_refl_sym_trans nat E p q -> ((p < n)%nat <-> (q < n)%nat).
Proof.
  intros HE. induction 1 as [a b H|a|a b H IH|a b c H1 IH1 H2 IH2]; try tauto.
  destruct (HE a b H). tauto.
Qed.

Lemma crst_empty (E : nat -> nat -> Prop) p q :
  (forall a b, ~ E a b) -> clos_refl_sym_trans nat E p q -> p = q.
Proof.
  intros HE. induction 1 as [a b H|a|a b H IH|a b c H1 IH1 H2 IH2];
    [by destruct (HE a b)|done|done|congruence].
Qed.

Lemma joinable_spec cfg ai aj :
  joinable cfg (Start2 ai - Start1 ai) (Start2 aj - (Start2 ai + Len ai)) aj = true
  <-> Z.abs (diag aj - diag ai)
        <= Z.max (Fixed_Separation cfg)
                 (machine_product (Separation_Factor cfg)
                                  (Start2 aj - (Start2 ai + Len ai))).
Proof. unfold joinable, machine_product, diag. by rewrite Z.leb_le. Qed.

Lemma joinable_on_diagonal cfg i_diag sep aj :
  0 <= Fixed_Separation cfg -> Start2 aj - Start1 aj = i_diag ->
  joinable cfg i_diag sep aj = true.
Proof.
  intros HF Hd. unfold joinable. apply Z.leb_le. rewrite Hd. lia.
Qed.

Section Clustering.

  (** The filtered matches of a query, sorted by [Start2], and a structure
      with room for them. *)
  Variable N : nat.
  Variable cfg : config.
  Variable A : list Match_t.
  Hypothesis HN : (length A <= N)%nat.
  Hypothesis Hsort : sorted2 A.

Lemma cluster_inv_ext uf (E E' : nat -> nat -> Prop) :
  (forall a b, E a b <-> E' a b) -> cluster_inv N A uf E -> cluster_inv N A uf E'.
Proof.
  intros HE [Hwf H]. split; [done|]. intros p q Hp Hq. rewrite (H p q Hp Hq).
  split; apply crst_mono; intros a b; apply HE.
Qed.

Lemma proximate_range p q :
  proximate cfg A p q -> (p < length A)%nat /\ (q < length A)%nat.
Proof.
  intros (ap & aq & Hp & Hq & _). split; by eapply lookup_lt_Some.
Qed.

(** One union of the clustering loop adds the edge [(i, j)]. *)
Lemma join_edge uf (E : nat -> nat -> Prop) i j :
  (i < length A)%nat -> (j < length A)%nat ->
  (forall a b, E a b -> proximate cfg A a b) ->
  cluster_inv N A uf E ->
  exists uf', join uf (node i) (node j) = Some uf' /\
    cluster_inv N A uf' (fun a b => E a b \/ (a = i /\ b = j)).
Proof using HN.
  intros Hi Hj HE [Hwf Hinv].
  assert (Hnode : forall p, (p < length A)%nat -> 1 <= node p <= Z.of_nat N).
  { intros p Hp. unfold node. lia. }
  destruct (join_spec N uf (node i) (node j) Hwf (Hnode i Hi) (Hnode j Hj))
    as (uf1 & a & uf2 & b & uf3 & _ & _ & _ & _ & _ & _ & _ & Hjoin & Hwf3 & Hss).
  exists uf3. split; [done|]. split; [done|].
  set (E' := fun a b => E a b \/ (a = i /\ b = j)).
  assert (HE' : forall a b, E' a b -> (a < length A)%nat /\ (b < length A)%nat).
  { intros x y [H|[-> ->]]; [|done]. by eapply proximate_range, HE. }
  assert (Hback : forall p q, clos_refl_sym_trans nat E' p q ->
            (p < length A)%nat -> same_set uf3 (node p) (node q)).
  { intros p q H.
    induction H as [x y H|x|x y H IH|x y z H1 IH1 H2 IH2]; intros Hp.
    - destruct (HE' x y H) as [Hx Hy]. apply Hss; [by apply Hnode|by apply Hnode|].
      destruct H as [H|[-> ->]].
      + left. apply Hinv; [done|done|]. by apply rst_step.
      + right. left. split; (apply (same_set_refl N); [done|by apply Hnode]).
    - apply (same_set_refl N); [done|by apply Hnode].
    - apply same_set_sym, IH.
      destruct (crst_range E' (length A) x y HE' H) as [_ Hyx]. auto.
    - eapply same_set_trans; [by apply IH1|]. apply IH2.
      destruct (crst_range E' (length A) x y HE' H1) as [Hxy _]. auto. }
  intros p q Hp Hq. split; [|intros H; by apply Hback].
  intros H. apply Hss in H; [|by apply Hnode|by apply Hnode].
  assert (Hup : forall x y, (x < length A)%nat -> (y < length A)%nat ->
            same_set uf (node x) (node y) -> clos_refl_sym_trans nat E' x y).
  { intros x y Hx Hy Hs. apply (crst_mono E); [by left|]. by apply Hinv. }
  assert (Hij : clos_refl_sym_trans nat E' i j) by (apply rst_step; by right).
  destruct H as [H|[[H1 H2]|[H1 H2]]].
  - by apply Hup.
  - apply (rst_trans _ _ p i q); [by apply Hup|].
    apply (rst_trans _ _ i j q); [exact Hij|]. apply rst_sym. by apply Hup.
  - apply (rst_trans _ _ p j q); [by apply Hup|].
    apply (rst_trans _ _ j i q); [apply rst_sym; exact Hij|].
    apply rst_sym. by apply Hup.
Qed.

(** The inner clustering loop for the match at [i]. *)
Lemma join_inner_spec ai i (fuel : nat) :
  A !! i = Some ai ->
  forall uf j,
    (i < j)%nat -> (length A <= j + fuel)%nat ->
    cluster_inv N A uf (joined_upto cfg A i j) ->
    exists uf',
      join_inner fuel cfg A uf i (Start2 ai + Len ai) (Start2 ai - Start1 ai) j
        = Some uf' /\
      cluster_inv N A uf' (joined_upto cfg A (S i) 0).
Proof using HN Hsort.
  intros Hi.
  assert (Hdone : forall uf j, (i < j)%nat ->
            (forall q, (j <= q)%nat -> ~ proximate cfg A i q) ->
            cluster_inv N A uf (joined_upto cfg A i j) ->
            cluster_inv N A uf (joined_upto cfg A (S i) 0)).
  { intros uf j Hij Hnone. apply cluster_inv_ext. intros a b. unfold joined_upto.
    split.
    - intros [Hp Hc]. split; [done|]. lia.
    - intros [Hp Hc]. split; [done|].
      destruct (decide (a < i)%nat); [by left|right]. split; [lia|].
      destruct (decide (b < j)%nat); [done|]. exfalso.
      assert (a = i) as -> by lia. apply (Hnone b); [lia|done]. }
  induction fuel as [|fuel IH]; intros uf j Hij Hfuel Hinv; simpl.
  - exists uf. split; [done|]. apply (Hdone uf j Hij); [|done].
    intros q Hq Hp. apply proximate_range in Hp. lia.
  - destruct (A !! j) as [aj|] eqn:Hj.
    2:{ exists uf. split; [done|]. apply (Hdone uf j Hij); [|done].
        intros q Hq Hp. apply proximate_range in Hp.
        apply lookup_ge_None in Hj. lia. }
    destruct (Z.gtb_spec (Start2 aj - (Start2 ai + Len ai)) (Max_Separation cfg))
      as [Hfar|Hnear].
    { exists uf. split; [done|]. apply (Hdone uf j Hij); [|done].
      intros q Hq (ap & aq & Hp1 & Hq1 & _ & Hsep & _). simplify_eq. cbv zeta in Hsep.
      assert (Start2 aj <= Start2 aq); [|lia].
      destruct (decide (q = j)) as [->|Hne]; [by simplify_eq|].
      apply (Hsort j q); [lia|done|done]. }
    assert (Hlj : (j < length A)%nat) by by eapply lookup_lt_Some.
    assert (Hli : (i < length A)%nat) by by eapply lookup_lt_Some.
    assert (Hstep : forall uf1,
              cluster_inv N A uf1 (joined_upto cfg A i (S j)) ->
              exists uf', join_inner fuel cfg A uf1 i (Start2 ai + Len ai)
                            (Start2 ai - Start1 ai) (S j) = Some uf' /\
                          cluster_inv N A uf' (joined_upto cfg A (S i) 0)).
    { intros uf1 H1. apply IH; [lia|lia|done]. }
    destruct (joinable cfg (Start2 ai - Start1 ai)
                (Start2 aj - (Start2 ai + Len ai)) aj) eqn:Hjoin.
    + destruct (join_edge uf (joined_upto cfg A i j) i j Hli Hlj)
        as (uf1 & Hjn & Hinv1); [by intros a b [? _]|done|].
      unfold node in Hjn. rewrite Hjn.
      apply Hstep. revert Hinv1. apply cluster_inv_ext. intros a b.
      unfold joined_upto. split.
      * intros [[Hp Hc]|[-> ->]]; [split; [done|lia]|].
        split; [|lia]. exists ai, aj.
        split; [done|]. split; [done|]. split; [lia|]. cbv zeta.
        split; [lia|]. by apply (proj1 (joinable_spec cfg ai aj)).
      * intros [Hp Hc].
        destruct (decide (a = i /\ b = j)) as [?|Hn]; [by right|left].
        split; [done|lia].
    + apply Hstep. revert Hinv. apply cluster_inv_ext. intros a b.
      unfold joined_upto. split.
      * intros [Hp Hc]. split; [done|lia].
      * intros [Hp Hc]. split; [done|].
        destruct (decide (a = i /\ b = j)) as [[-> ->]|Hn]; [exfalso|lia].
        destruct Hp as (ap & aq & Hp1 & Hq1 & _ & _ & Hd). simplify_eq.
        apply (proj2 (joinable_spec cfg ai aj)) in Hd. congruence.
Qed.

(** The outer clustering loop. *)
Lemma join_loop_spec (fuel : nat) :
  forall uf i,
    (length A - 1 <= i + fuel)%nat ->
    cluster_inv N A uf (joined_upto cfg A i 0) ->
    exists uf', join_loop fuel cfg A uf i = Some uf' /\
                cluster_inv N A uf' (proximate cfg A).
Proof using HN Hsort.
  assert (Hdone : forall uf i, (length A - 1 <= i)%nat ->
            cluster_inv N A uf (joined_upto cfg A i 0) ->
            cluster_inv N A uf (proximate cfg A)).
  { intros uf i Hi. apply cluster_inv_ext. intros a b. unfold joined_upto.
    split; [by intros [? _]|]. intros Hp. split; [done|left].
    pose proof Hp as (ap & aq & _ & _ & Hab & _).
    apply proximate_range in Hp. lia. }
  induction fuel as [|fuel IH]; intros uf i Hfuel Hinv; simpl.
  - exists uf. split; [done|]. apply (Hdone uf i); [lia|done].
  - destruct (A !! i) as [ai|] eqn:Hi.
    + destruct (join_inner_spec ai i (length A - S i) Hi uf (S i))
        as (uf1 & -> & Hinv1); [lia|lia| |by apply IH; [lia|]].
      revert Hinv. apply cluster_inv_ext. intros a b. unfold joined_upto.
      split; intros [Hp Hc]; (split; [done|]); [lia|].
      destruct Hc as [?|[-> Hb]]; [by left|].
      destruct Hp as (ap & aq & _ & _ & Hab & _). lia.
    + exists uf. split; [done|]. apply (Hdone uf i); [|done].
      apply lookup_ge_None in Hi. lia.
Qed.

(** The clustering loops never fail on a well-formed structure. *)
Lemma join_inner_safe i i_end i_diag (fuel : nat) :
  (i < length A)%nat ->
  forall uf j, uf_wf N uf ->
    exists uf', join_inner fuel cfg A uf i i_end i_diag j = Some uf' /\ uf_wf N uf'.
Proof using HN.
  intros Hi. induction fuel as [|fuel IH]; intros uf j Hwf; simpl; [by exists uf|].
  destruct (A !! j) as [aj|] eqn:Hj; [|by exists uf].
  destruct (_ >? _); [by exists uf|].
  destruct (joinable _ _ _ _); [|by apply IH].
  assert (Hlj : (j < length A)%nat) by by eapply lookup_lt_Some.
  destruct (join_spec N uf (Z.of_nat (S i)) (Z.of_nat (S j)) Hwf)
    as (uf1 & a & uf2 & b & uf3 & _ & _ & _ & _ & _ & _ & _ & -> & Hwf3 & _);
    [lia|lia|]. by apply IH.
Qed.

Lemma join_loop_safe (fuel : nat) :
  forall uf i, uf_wf N uf ->
    exists uf', join_loop fuel cfg A uf i = Some uf' /\ uf_wf N uf'.
Proof using HN.
  induction fuel as [|fuel IH]; intros uf i Hwf; simpl; [by exists uf|].
  destruct (A !! i) as [ai|] eqn:Hi; [|by exists uf].
  assert (Hli : (i < length A)%nat) by by eapply lookup_lt_Some.
  destruct (join_inner_safe i (Start2 ai + Len ai) (Start2 ai - Start1 ai)
              (length A - S i) Hli uf (S i) Hwf) as (uf1 & -> & Hwf1).
  by apply IH.
Qed.

End Clustering.

(** The loop that stores the cluster ids. *)
Lemma assign_loop_spec N (fuel : nat) :
  forall A uf i,
    uf_wf N uf -> (length A <= N)%nat ->
    exists A' uf',
      assign_loop fuel A uf i = Some (A', uf') /\ uf_wf N uf' /\
      length A' = length A /\
      forall p x, A !! p = Some x ->
        if decide (i <= p < i + fuel)%nat
        then exists r, root_of uf (node p) r /\ 1 <= r <= Z.of_nat N /\
                       A' !! p = Some (set_cluster_id (to_bits30 r) x)
        else A' !! p = Some x.
Proof.
  induction fuel as [|fuel IH]; intros A uf i Hwf HN; simpl.
  - exists A, uf. split_and!; try done. intros p x Hp.
    destruct (decide _); [lia|done].
  - destruct (A !! i) as [ai|] eqn:Hi.
    + assert (Hli : (i < length A)%nat) by by eapply lookup_lt_Some.
      destruct Hwf as [rank Hwf].
      destruct (find_spec N uf rank (Z.of_nat (S i)) Hwf)
        as (uf1 & r & -> & Hwf1 & Hr & Hroot & Hsame); [lia|].
      destruct (IH (<[i := set_cluster_id (to_bits30 r) ai]> A) uf1 (S i))
        as (A' & uf' & -> & Hwf' & Hlen' & Hspec);
        [by exists rank|by rewrite length_insert|].
      exists A', uf'. split; [done|]. split; [done|].
      split; [by rewrite Hlen', length_insert|].
      intros p x Hp. destruct (decide (p = i)) as [->|Hne].
      * assert (x = ai) as -> by congruence. destruct (decide _); [|lia].
        exists r. split; [done|]. split; [done|].
        specialize (Hspec i (set_cluster_id (to_bits30 r) ai)).
        rewrite list_lookup_insert_eq in Hspec by done.
        specialize (Hspec eq_refl). destruct (decide _); [lia|done].
      * specialize (Hspec p x). rewrite list_lookup_insert_ne in Hspec by done.
        specialize (Hspec Hp).
        destruct (decide (S i <= p < S i + fuel)%nat);
          destruct (decide (i <= p < i + S fuel)%nat); try lia; [|done].
        destruct Hspec as (r' & Hr' & Hrr & HA'). exists r'.
        split; [|by split]. apply Hsame; [|done]. apply lookup_lt_Some in Hp.
        unfold node. lia.
    + exists A, uf. split_and!; try done. intros p x Hp.
      apply lookup_ge_None in Hi. pose proof (lookup_lt_Some _ _ _ Hp).
      destruct (decide _); [lia|done].
Qed.

(** The clustering stage on sorted matches: the cluster ids are the classes
    of the connectivity relation. *)
Lemma Build_Clusters_spec N cfg (A : list Match_t) (uf0 : list Z) :
  sorted2 A -> (length A <= N)%nat -> Z.of_nat N <= 2 ^ 30 ->
  uf_wf N uf0 -> (forall a, 1 <= a <= Z.of_nat N -> is_root uf0 a) ->
  exists A' uf',
    Build_Clusters cfg A uf0 = Some (A', uf') /\
    Forall2 (fun x x' => exists c, x' = set_cluster_id c x) A A' /\
    forall p q x y, A' !! p = Some x -> A' !! q = Some y ->
      (cluster_id x = cluster_id y <-> connected cfg A p q).
Proof.
  intros Hsort HN Hbits Hwf0 Hroots. unfold Build_Clusters.
  assert (Hnode : forall p, (p < length A)%nat -> 1 <= node p <= Z.of_nat N).
  { intros p Hp. unfold node. lia. }
  destruct (join_loop_spec N cfg A HN Hsort (length A - 1) uf0 0)
    as (uf1 & -> & Hwf1 & Hinv); [lia| |].
  { split; [done|]. intros p q Hp Hq. split.
    - intros (r & H1 & H2).
      assert (r = node p) by (eapply root_of_det; [|exact H1];
                              by apply root_of_root, Hroots, Hnode).
      assert (r = node q) by (eapply root_of_det; [|exact H2];
                              by apply root_of_root, Hroots, Hnode).
      assert (p = q) as -> by (unfold node in *; lia). apply rst_refl.
    - intros H. apply crst_empty in H as ->; [|intros a b [_ Hc]; lia].
      apply (same_set_refl N); [done|by apply Hnode]. }
  destruct (assign_loop_spec N (length A) A uf1 0 Hwf1 HN)
    as (A' & uf' & -> & Hwf' & Hlen' & Hspec).
  exists A', uf'. split; [done|].
  assert (Hid : forall p x', A' !! p = Some x' ->
            exists x r, A !! p = Some x /\ root_of uf1 (node p) r /\
                        1 <= r <= 2 ^ 30 /\
                        x' = set_cluster_id (to_bits30 r) x).
  { intros p x' Hp'.
    assert (Hlp : (p < length A)%nat) by (rewrite <- Hlen'; by eapply lookup_lt_Some).
    apply lookup_lt_is_Some_2 in Hlp as [x Hx].
    specialize (Hspec p x Hx). pose proof (lookup_lt_Some _ _ _ Hx).
    destruct (decide _); [|lia].
    destruct Hspec as (r & Hr & Hrr & HA'). exists x, r.
    split; [done|]. split; [done|]. split; [lia|congruence]. }
  split.
  - apply Forall2_lookup. intros p.
    destruct (A' !! p) as [x'|] eqn:Hp'.
    + destruct (Hid p x' Hp') as (x & r & -> & _ & _ & ->). constructor.
      by eexists.
    + apply lookup_ge_None in Hp'. rewrite Hlen' in Hp'.
      apply lookup_ge_None in Hp'. rewrite Hp'. constructor.
  - intros p q x' y' Hp' Hq'.
    destruct (Hid p x' Hp') as (x & rp & Hx & Hrp & Hbp & ->).
    destruct (Hid q y' Hq') as (y & rq & Hy & Hrq & Hbq & ->). simpl.
    unfold connected. rewrite <- Hinv by (by eapply lookup_lt_Some). split.
    + intros Heq. apply to_bits30_inj in Heq as ->; [|done|done]. by exists rq.
    + intros (r & H1 & H2).
      assert (rp = r) by (by apply (root_of_det uf1 (node p) r rp)).
      assert (rq = r) by (by apply (root_of_det uf1 (node q) r rq)). congruence.
Qed.

Lemma Build_Clusters_safe N cfg (A : list Match_t) (uf0 : list Z) :
  (length A <= N)%nat -> uf_wf N uf0 ->
  exists A' uf', Build_Clusters cfg A uf0 = Some (A', uf') /\
    Forall2 (fun x x' => exists c, x' = set_cluster_id c x) A A'.
Proof.
  intros HN Hwf0. unfold Build_Clusters.
  destruct (join_loop_safe N cfg A HN (length A - 1) uf0 0 Hwf0) as (uf1 & -> & Hwf1).
  destruct (assign_loop_spec N (length A) A uf1 0 Hwf1 HN)
    as (A' & uf' & -> & Hwf' & Hlen' & Hspec).
  exists A', uf'. split; [done|].
  apply Forall2_lookup. intros p.
  destruct (A !! p) as [x|] eqn:Hp.
  - specialize (Hspec p x Hp). apply lookup_lt_Some in Hp.
    destruct (decide _); [|lia].
    destruct Hspec as (r & _ & _ & ->). constructor. by eexists.
  - apply lookup_ge_None in Hp. rewrite <- Hlen' in Hp.
    apply lookup_ge_None in Hp. rewrite Hp. constructor.
Qed.

(** Claim C10.  After [reset] to size [N >= 1]: the structure is
    well-formed; on every well-formed structure and elements [i], [j] in
    [1 .. N], the two calls of [find] return roots in [1 .. N], so
    [union_sets] passes its assertion and leaves a well-formed structure;
    and the clustering stage on at most [N] matches ends without a failed
    assertion or a read outside the vector. *)
Theorem clustering_safe cfg (A : list Match_t) (N : nat) :
  (1 <= N)%nat -> (length A <= N)%nat ->
  exists uf0,
    reset N = Some uf0 /\ uf_wf N uf0 /\
    (forall uf i j,
        uf_wf N uf -> 1 <= i <= Z.of_nat N -> 1 <= j <= Z.of_nat N ->
        exists uf1 a uf2 b uf3,
          find uf i = Some (uf1, a) /\ find uf1 j = Some (uf2, b) /\
          1 <= a <= Z.of_nat N /\ 1 <= b <= Z.of_nat N /\
          is_root uf2 a /\ is_root uf2 b /\
          union_sets uf2 a b = Some uf3 /\ uf_wf N uf3) /\
    exists A' uf', Build_Clusters cfg A uf0 = Some (A', uf').
Proof.
  intros HN Hlen. destruct (reset_spec N HN) as (uf0 & Hreset & Hwf0 & _).
  exists uf0. split; [done|]. split; [done|]. split.
  - intros uf i j Hwf Hi Hj.
    destruct (join_spec N uf i j Hwf Hi Hj)
      as (uf1 & a & uf2 & b & uf3 & H1 & H2 & H3 & H4 & H5 & H6 & H7 & _ & H9 & _).
    by exists uf1, a, uf2, b, uf3.
  - destruct (Build_Clusters_safe N cfg A uf0 Hlen Hwf0) as (A' & uf' & H & _).
    by exists A', uf'.
Qed.

Lemma clustering_safe_witness :
  exists uf0,
    reset 2 = Some uf0 /\ uf_wf 2 uf0 /\
    (forall uf i j,
        uf_wf 2 uf -> 1 <= i <= Z.of_nat 2 -> 1 <= j <= Z.of_nat 2 ->
        exists uf1 a uf2 b uf3,
          find uf i = Some (uf1, a) /\ find uf1 j = Some (uf2, b) /\
          1 <= a <= Z.of_nat 2 /\ 1 <= b <= Z.of_nat 2 /\
          is_root uf2 a /\ is_root uf2 b /\
          union_sets uf2 a b = Some uf3 /\ uf_wf 2 uf3) /\
    exists A' uf',
      Build_Clusters default_config [new_Match 0 0 10; new_Match 20 20 10] uf0
      = Some (A', uf').
Proof.
  apply (clustering_safe default_config [new_Match 0 0 10; new_Match 20 20 10] 2);
    simpl; lia.
Defined.

(** ** [Process_Matches] *)

Lemma run_end_ge (fuel : nat) : forall A c j, (j <= run_end fuel A c j)%nat.
Proof.
  induction fuel as [|fuel IH]; intros A c j; simpl; [done|].
  destruct (A !! j); [|done]. destruct (_ =? _); [|done].
  specialize (IH A c (S j)). lia.
Qed.

Lemma clusters_loop_spec cfg (fuel : nat) :
  forall A i label print_ct,
    (length A <= i + fuel)%nat -> 0 <= print_ct ->
    exists ct out,
      clusters_loop fuel cfg A i label print_ct = Some (ct, out) /\
      print_ct <= ct /\ (ct = print_ct -> out = []) /\
      (print_ct = 0 -> 0 < ct -> exists rest, out = Label_line label :: rest).
Proof.
  induction fuel as [|fuel IH]; intros A i label print_ct Hfuel Hct.
  - simpl. rewrite (proj2 (lookup_ge_None A i)) by lia.
    exists print_ct, []. split_and!; [done|lia|done|lia].
  - cbn [clusters_loop]. destruct (A !! i) as [ai|] eqn:Hi.
    2:{ exists print_ct, []. split_and!; [done|lia|done|lia]. }
    pose proof (run_end_ge (length A - S i) A (cluster_id ai) (S i)) as Hj.
    set (j := run_end (length A - S i) A (cluster_id ai) (S i)) in *.
    assert (Hne : take (j - i) (drop i A) <> []).
    { rewrite (drop_S _ _ _ Hi). destruct (j - i)%nat eqn:E; [lia|]. done. }
    destruct (cluster_loop_total cfg _ _ label 0 Hne (Nat.le_refl _))
      as (ct1 & out1 & Hpc).
    unfold Process_Cluster. rewrite Hpc.
    destruct (cluster_loop_counted cfg _ _ _ _ _ _ Hpc) as (Hc1 & Hc2 & Hc3).
    destruct (IH A (i + (j - i))%nat
                (if print_ct + ct1 >? 0 then "#"%string else label) (print_ct + ct1))
      as (ct2 & out2 & -> & Hd1 & Hd2 & Hd3); [lia|lia|].
    exists ct2, (out1 ++ out2). split; [done|]. split; [lia|]. split.
    + intros ->. rewrite Hc2 by lia. rewrite Hd2 by lia. done.
    + intros -> Hpos. destruct (decide (ct1 = 0)) as [->|Hnz].
      * rewrite Hc2 by done. simpl in *. apply Hd3; [done|lia].
      * destruct Hc3 as (rest & ->); [lia|]. by eexists.
Qed.

Lemma Query_Clusters_total cfg (A : list Match_t) :
  A <> [] -> exists A4, Query_Clusters cfg A = Some A4.
Proof.
  intros Hne. unfold Query_Clusters.
  assert (Hpos : (1 <= length A)%nat) by (destruct A; [done|simpl; lia]).
  destruct (reset_spec (length A) Hpos) as (uf0 & -> & Hwf0 & _).
  destruct (Filter_Matches_sorted (qsort By_Start2 A) (qsort_sorted A))
    as (F & -> & _ & Hlen & _). rewrite qsort_length in Hlen.
  destruct (Build_Clusters_safe (length A) cfg F uf0 Hlen Hwf0) as (F' & uf' & -> & _).
  by eexists.
Qed.

Lemma Query_Clusters_clean cfg (A A4 : list Match_t) :
  Query_Clusters cfg A = Some A4 -> Forall (fun m => Good m = false) A4.
Proof.
  unfold Query_Clusters. intros H.
  destruct (reset (length A)) as [uf0|]; [|done].
  destruct (Filter_Matches _) as [F|] eqn:HF; [|done].
  destruct (Build_Clusters cfg F uf0) as [[F' uf']|] eqn:HB; [|done].
  simplify_eq. apply Filter_Matches_Good in HF.
  eapply Permutation_Forall; [symmetry; apply qsort_perm|].
  unfold Build_Clusters in HB.
  destruct (join_loop _ _ _ _ _) as [uf1|]; [|done].
  revert HB HF. generalize (length F) at 1. generalize 0%nat.
  intros i fuel. revert F uf1 i.
  induction fuel as [|fuel IH]; intros F uf1 i HB HF; simpl in HB; [by simplify_eq|].
  destruct (F !! i) as [ai|] eqn:Hi; [|by simplify_eq].
  destruct (find uf1 _) as [[uf2 r]|]; [|done].
  eapply IH; [exact HB|]. apply Forall_insert; [done|].
  simpl. rewrite Forall_lookup in HF. by eapply HF.
Qed.

Lemma clusters_loop_chains cfg (fuel : nat) :
  forall A i label print_ct ct out chains,
    clusters_loop fuel cfg A i label print_ct = Some (ct, out) ->
    clusters_chains fuel A i = Some chains ->
    ct = print_ct + Z.of_nat (length (List.filter (emitted cfg) chains)).
Proof.
  induction fuel as [|fuel IH]; intros A i label print_ct ct out chains Hrun Hch.
  - simpl in *. destruct (A !! i); [done|]. simplify_eq. simpl. lia.
  - cbn [clusters_loop clusters_chains] in *. destruct (A !! i) as [ai|] eqn:Hi.
    2:{ simplify_eq. simpl. lia. }
    set (j := run_end (length A - S i) A (cluster_id ai) (S i)) in *.
    set (slice := take (j - i) (drop i A)) in *.
    destruct (Process_Cluster cfg slice label) as [[ct1 out1]|] eqn:Hpc; [|done].
    destruct (clusters_loop fuel cfg A _ _ _) as [[ct2 out2]|] eqn:Hrec; [|done].
    destruct (cluster_chains slice) as [cs|] eqn:Hcs; [|done].
    destruct (clusters_chains fuel A _) as [rest|] eqn:Hrest; [|done].
    simplify_eq. rewrite (IH _ _ _ _ _ _ _ Hrec Hrest).
    rewrite List.filter_app, length_app.
    assert (Hslice : slice <> []).
    { intros Heq. unfold Process_Cluster in Hpc. by rewrite Heq in Hpc. }
    destruct (cluster_loop_accounts cfg (length slice) slice label 0 Hslice)
      as (ct' & out' & chains' & H1 & H2 & _ & _ & H5); [lia|].
    unfold cluster_chains in Hcs. unfold Process_Cluster in Hpc. simplify_eq. lia.
Qed.

Lemma clusters_loop_chained cfg (fuel : nat) :
  forall A i label print_ct ct out,
    Forall (fun m => Good m = false) A ->
    clusters_loop fuel cfg A i label print_ct = Some (ct, out) ->
    starts_with_label out /\ well_chained None out.
Proof.
  induction fuel as [|fuel IH]; intros A i label print_ct ct out Hclean Hrun.
  - simpl in Hrun. destruct (A !! i); [done|]. simplify_eq. split; [done|constructor].
  - cbn [clusters_loop] in Hrun. destruct (A !! i) as [ai|] eqn:Hi.
    2:{ simplify_eq. split; [done|constructor]. }
    set (slice := take _ (drop i A)) in *.
    destruct (Process_Cluster cfg slice label) as [[ct1 out1]|] eqn:Hpc; [|done].
    destruct (clusters_loop fuel cfg A _ _ _) as [[ct2 out2]|] eqn:Hrec; [|done].
    simplify_eq.
    assert (Hslice : slice <> []).
    { intros Heq. unfold Process_Cluster in Hpc. by rewrite Heq in Hpc. }
    assert (Hcs : Forall (fun m => Good m = false) slice)
      by (by apply Forall_take, Forall_drop).
    destruct (cluster_loop_chained cfg _ _ _ _ _ _ Hslice Hcs Hpc) as [Hl1 Hw1].
    destruct (IH _ _ _ _ _ _ Hclean Hrec) as [Hl2 Hw2].
    split; [|by apply well_chained_app].
    destruct out1 as [|[]]; try done.
Qed.

(** Claim C8.  [Process_Matches] always returns at least one line and its
    first line is the label.  When the query has no match, and when none of
    the chains selected in any of its clusters reaches [Min_Output_Score],
    the output is the label line alone. *)
Theorem Process_Matches_label cfg (A : list Match_t) (label : string) :
  exists out,
    Process_Matches cfg A label = Some out /\
    head out = Some (Label_line label) /\
    (A = [] -> out = [Label_line label]) /\
    (forall A4 chains,
        Query_Clusters cfg A = Some A4 ->
        clusters_chains (length A4) A4 0 = Some chains ->
        Forall (fun c => emitted cfg c = false) chains ->
        out = [Label_line label]).
Proof.
  unfold Process_Matches. destruct A as [|a A].
  { exists [Label_line label]. by split_and!. }
  cbn [length Nat.eqb].
  destruct (Query_Clusters_total cfg (a :: A)) as (A4 & HA4); [done|].
  rewrite HA4.
  destruct (clusters_loop_spec cfg (length A4) A4 0 label 0)
    as (ct & out & Hrun & Hct & Hzero & Hpos); [lia|lia|].
  rewrite Hrun.
  eexists. split; [done|]. split_and!.
  - destruct (Z.eqb_spec ct 0) as [->|Hne].
    + by rewrite Hzero.
    + destruct Hpos as (rest & ->); [done|lia|done].
  - done.
  - intros A4' chains Hq Hch Hall. simplify_eq.
    pose proof (clusters_loop_chains cfg _ _ _ _ _ _ _ _ Hrun Hch) as Hcount.
    assert (Hnone : List.filter (emitted cfg) chains = []).
    { clear -Hall. induction Hall as [|c l Hc Hl IH]; simpl; [done|].
      by rewrite Hc. }
    rewrite Hnone in Hcount. simpl in Hcount.
    assert (ct = 0) as -> by lia. rewrite Hzero by done. done.
Qed.

(** ** A vector longer than the matches need

    [UF.reset (N)] is called before [Filter_Matches] lowers [N]: the vector
    has an entry for every match read, the loops use the entries of the
    matches kept.  The entries behind them are never read or written. *)

Lemma uf_get_app uf t a p : uf_get uf a = Some p -> uf_get (uf ++ t) a = Some p.
Proof.
  unfold uf_get. destruct (a <? 0); [done|]. intros H. by apply lookup_app_l_Some.
Qed.

Lemma uf_set_app uf t a p v :
  uf_get uf a = Some p -> uf_set (uf ++ t) a v = uf_set uf a v ++ t.
Proof.
  unfold uf_get, uf_set. destruct (a <? 0); [done|]. intros H.
  apply insert_app_l. by eapply lookup_lt_Some.
Qed.

Lemma find_root_app t (fuel : nat) :
  forall fuel' uf i r, (fuel <= fuel')%nat ->
    find_root fuel uf i = Some r -> find_root fuel' (uf ++ t) i = Some r.
Proof.
  induction fuel as [|fuel IH]; intros fuel' uf i r Hf H; [done|].
  destruct fuel' as [|fuel']; [lia|]. cbn [find_root] in *.
  destruct (uf_get uf i) as [p|] eqn:Hp; [|done].
  rewrite (uf_get_app _ t _ _ Hp). destruct (p >? 0); [|done].
  apply IH; [lia|done].
Qed.

Lemma compress_app t (fuel : nat) :
  forall fuel' uf j i uf', (fuel <= fuel')%nat ->
    compress fuel uf j i = Some uf' -> compress fuel' (uf ++ t) j i = Some (uf' ++ t).
Proof.
  induction fuel as [|fuel IH]; intros fuel' uf j i uf' Hf H; [done|].
  destruct fuel' as [|fuel']; [lia|]. cbn [compress] in *.
  destruct (uf_get uf j) as [k|] eqn:Hk; [|done].
  rewrite (uf_get_app _ t _ _ Hk). destruct (negb (k =? i)); [|by simplify_eq].
  rewrite (uf_set_app _ t _ _ _ Hk). apply IH; [lia|done].
Qed.

Lemma find_app t uf a uf' r :
  find uf a = Some (uf', r) -> find (uf ++ t) a = Some (uf' ++ t, r).
Proof.
  unfold find. intros H.
  destruct (uf_get uf a) as [p|] eqn:Hp; [|done].
  rewrite (uf_get_app _ t _ _ Hp). destruct (p <? 0); [by simplify_eq|].
  assert (Hl : (length uf <= length (uf ++ t))%nat) by (rewrite length_app; lia).
  destruct (find_root (length uf) uf a) as [i|] eqn:Hi; [|done].
  rewrite (find_root_app t _ _ _ _ _ Hl Hi).
  destruct (compress (length uf) uf a i) as [uf1|] eqn:Hc; [|done].
  rewrite (compress_app t _ _ _ _ _ _ Hl Hc).
  by simplify_eq.
Qed.

Lemma union_sets_app t uf a b uf' :
  union_sets uf a b = Some uf' -> union_sets (uf ++ t) a b = Some (uf' ++ t).
Proof.
  unfold union_sets. intros H. destruct (a =? b); [by simplify_eq|].
  destruct (uf_get uf a) as [pa|] eqn:Ha; [|done].
  destruct (uf_get uf b) as [pb|] eqn:Hb; [|done].
  rewrite (uf_get_app _ t _ _ Ha), (uf_get_app _ t _ _ Hb).
  destruct (negb _); [done|].
  assert (Hset : forall x y px py v w, uf_get uf x = Some px -> uf_get uf y = Some py ->
            uf_set (uf_set (uf ++ t) x v) y w = uf_set (uf_set uf x v) y w ++ t).
  { intros x y px py v w Hx Hy. rewrite (uf_set_app _ t _ _ _ Hx).
    unfold uf_get, uf_set in *. destruct (y <? 0); [done|].
    apply insert_app_l. rewrite length_insert. by eapply lookup_lt_Some. }
  destruct (pa <? pb); simplify_eq; f_equal; by eapply Hset.
Qed.

Lemma join_app t uf i j uf' :
  join uf i j = Some uf' -> join (uf ++ t) i j = Some (uf' ++ t).
Proof.
  unfold join. intros H.
  destruct (find uf i) as [[uf1 ri]|] eqn:H1; [|done].
  rewrite (find_app t _ _ _ _ H1).
  destruct (find uf1 j) as [[uf2 rj]|] eqn:H2; [|done].
  rewrite (find_app t _ _ _ _ H2). by apply union_sets_app.
Qed.

Lemma join_inner_app t cfg A i i_end i_diag (fuel : nat) :
  forall uf j uf',
    join_inner fuel cfg A uf i i_end i_diag j = Some uf' ->
    join_inner fuel cfg A (uf ++ t) i i_end i_diag j = Some (uf' ++ t).
Proof.
  induction fuel as [|fuel IH]; intros uf j uf' H; simpl in *; [by simplify_eq|].
  destruct (A !! j) as [aj|]; [|by simplify_eq].
  destruct (_ >? _); [by simplify_eq|].
  destruct (joinable _ _ _ _); [|by apply IH].
  destruct (join uf _ _) as [uf1|] eqn:Hj; [|done].
  rewrite (join_app t _ _ _ _ Hj). by apply IH.
Qed.

Lemma join_loop_app t cfg A (fuel : nat) :
  forall uf i uf',
    join_loop fuel cfg A uf i = Some uf' ->
    join_loop fuel cfg A (uf ++ t) i = Some (uf' ++ t).
Proof.
  induction fuel as [|fuel IH]; intros uf i uf' H; simpl in *; [by simplify_eq|].
  destruct (A !! i) as [ai|]; [|by simplify_eq].
  destruct (join_inner _ _ _ uf _ _ _ _) as [uf1|] eqn:Hj; [|done].
  rewrite (join_inner_app t _ _ _ _ _ _ _ _ _ Hj). by apply IH.
Qed.

Lemma assign_loop_app t (fuel : nat) :
  forall A uf i A' uf',
    assign_loop fuel A uf i = Some (A', uf') ->
    assign_loop fuel A (uf ++ t) i = Some (A', uf' ++ t).
Proof.
  induction fuel as [|fuel IH]; intros A uf i A' uf' H; simpl in *; [by simplify_eq|].
  destruct (A !! i) as [ai|]; [|by simplify_eq].
  destruct (find uf _) as [[uf1 r]|] eqn:Hf; [|done].
  rewrite (find_app t _ _ _ _ Hf). by apply IH.
Qed.

Lemma Build_Clusters_app t cfg A uf A' uf' :
  Build_Clusters cfg A uf = Some (A', uf') ->
  Build_Clusters cfg A (uf ++ t) = Some (A', uf' ++ t).
Proof.
  unfold Build_Clusters. intros H.
  destruct (join_loop _ _ _ uf _) as [uf1|] eqn:Hj; [|done].
  rewrite (join_loop_app t _ _ _ _ _ _ Hj). by apply assign_loop_app.
Qed.

(** The literal [0.05] is the double nearest to [5 / 100]. *)
Example DEFAULT_SEPARATION_FACTOR_nearest :
  DEFAULT_SEPARATION_FACTOR = double_of_ratio 5 100
  /\ valid_binary prec emax DEFAULT_SEPARATION_FACTOR = true.
Proof. split; reflexivity. Qed.

(** Claim C6, as amended.  After sorting and filtering, the clustering stage
    gives every filtered match one cluster id and changes nothing else.
    When at most [2^30] matches are left, which is what the 30 bits of
    [cluster_id] tell apart (see [cluster_ids_wrap]), two of them have the
    same id if and only if they are connected by a chain of proximate pairs.
    The tolerance in [proximate] is the larger of the fixed separation and
    the product of the separation factor and the gap as the machine forms
    it: rounded to [double], then cut to an [int].  With the exact product
    the statement fails, see [clusters_not_exact]. *)
Theorem clusters_are_components cfg (A : list Match_t) :
  A <> [] ->
  exists uf0 F F' uf',
    reset (length A) = Some uf0 /\
    Filter_Matches (qsort By_Start2 A) = Some F /\
    Build_Clusters cfg F uf0 = Some (F', uf') /\
    Forall2 (fun x x' => exists c, x' = set_cluster_id c x) F F' /\
    (Z.of_nat (length F) <= 2 ^ 30 ->
     forall p q x y, F' !! p = Some x -> F' !! q = Some y ->
       (cluster_id x = cluster_id y <-> connected cfg F p q)).
Proof.
  intros Hne.
  assert (Hpos : (1 <= length A)%nat) by (destruct A; [done|simpl; lia]).
  destruct (reset_spec (length A) Hpos) as (uf0 & Hreset & Hwf0 & _).
  destruct (Filter_Matches_sorted (qsort By_Start2 A) (qsort_sorted A))
    as (F & HF & Hsort & Hlen & _). rewrite qsort_length in Hlen.
  destruct (Build_Clusters_safe (length A) cfg F uf0 Hlen Hwf0)
    as (F' & uf' & HB & Hsame).
  exists uf0, F, F', uf'. split_and!; try done.
  intros Hbits p q x y Hx Hy.
  destruct (decide (length F = 0)%nat) as [HF0|HFpos].
  { apply Forall2_length in Hsame. apply lookup_lt_Some in Hx. lia. }
  destruct (reset_spec (length F) ltac:(lia)) as (uf1 & Hreset1 & Hwf1 & Hroots1).
  destruct (Build_Clusters_spec (length F) cfg F uf1 Hsort (Nat.le_refl _)
              Hbits Hwf1 Hroots1) as (F1 & uf1' & HB1 & _ & Hids).
  assert (Huf0 : uf0 = uf1 ++ replicate (length A - length F) (-1)).
  { unfold reset in Hreset, Hreset1.
    destruct (1 <=? length A)%nat; [|done]. destruct (1 <=? length F)%nat; [|done].
    simplify_eq. rewrite <- replicate_add. f_equal. lia. }
  rewrite Huf0 in HB. rewrite (Build_Clusters_app _ _ _ _ _ _ HB1) in HB.
  simplify_eq. by apply Hids.
Qed.

(** Three matches under the default configuration.  The second lies 200
    behind the end of the first and 8 diagonals off: more than the fixed
    separation 5, within [(int)(0.05 * 200) = 10].  The third is too far
    from both. *)
Lemma clusters_are_components_witness :
  let A := [new_Match 0 0 10; new_Match 202 210 10; new_Match 5000 9000 10] in
  exists uf0 F',
    reset (length A) = Some uf0 /\
    Filter_Matches (qsort By_Start2 A) = Some A /\
    Build_Clusters default_config A uf0 = Some (F', [-1; 2; -2; -1]) /\
    map cluster_id F' = [2; 2; 3] /\
    forall p q x y, F' !! p = Some x -> F' !! q = Some y ->
      (cluster_id x = cluster_id y <-> connected default_config A p q).
Proof.
  intros A.
  destruct (clusters_are_components default_config A)
    as (uf0 & F & F' & uf' & H1 & H2 & H3 & _ & H5); [discriminate|].
  assert (E1 : uf0 = [-1; -1; -1; -1]) by (vm_compute in H1; congruence).
  assert (E2 : F = A) by (vm_compute in H2; injection H2 as <-; reflexivity).
  subst uf0 F.
  exists [-1; -1; -1; -1], F'. split; [reflexivity|]. split; [reflexivity|].
  assert (Hrun : Build_Clusters default_config A [-1; -1; -1; -1]
                 = Some (map (fun c => set_cluster_id (fst c) (snd c))
                             (combine [2; 2; 3] A), [-1; 2; -2; -1]))
    by (vm_compute; reflexivity).
  rewrite Hrun in H3. injection H3 as <- <-.
  split; [exact Hrun|]. split; [reflexivity|].
  apply H5. vm_compute. discriminate.
Defined.

(** Claim C6 as stated fails, whichever number the separation factor of the
    claim is taken to be.

    Option [-f 0.7] stores the double nearest to [7 / 10], which is smaller
    than [7 / 10]: ten times it is less than 7, and is rounded to the
    double 7.  Two matches with a gap of 10 and diagonals 7 apart get the
    same cluster id, and are not connected when proximity is tested with
    the exact product of the stored factor.

    Option [-f 0.29] stores a double smaller than [29 / 100]: a hundred
    times it is rounded to a double below 29, and cut to 28.  Two matches
    with a gap of 100 and diagonals 29 apart get different cluster ids, and
    are connected when proximity is tested with the exact product of
    [29 / 100]. *)
Lemma clusters_not_exact :
  (let factor := double_of_ratio 7 10 in
   let cfg := mkConfig 5 1000 200 factor false in
   let A := [new_Match 0 0 10; new_Match 13 20 10] in
   exists v F' uf',
     double_value factor = Some v /\ (v < 7 # 10)%Q /\
     Filter_Matches (qsort By_Start2 A) = Some A /\
     Build_Clusters cfg A [-1; -1; -1] = Some (F', uf') /\
     map cluster_id F' = [2; 2] /\
     ~ connected_exact 5 1000 v A 0 1)
  /\
  (let factor := double_of_ratio 29 100 in
   let cfg := mkConfig 5 1000 200 factor false in
   let A := [new_Match 0 0 10; new_Match 81 110 10] in
   exists F' uf',
     Filter_Matches (qsort By_Start2 A) = Some A /\
     Build_Clusters cfg A [-1; -1; -1] = Some (F', uf') /\
     map cluster_id F' = [1; 2] /\
     connected_exact 5 1000 (29 # 100) A 0 1).
Proof.
  split.
  - intros factor cfg A.
    exists (inject_Z 6305039478318694 * Qpower 2 (-53))%Q,
           [set_cluster_id 2 (new_Match 0 0 10); set_cluster_id 2 (new_Match 13 20 10)],
           [-1; 2; -2].
    split; [reflexivity|]. split; [reflexivity|]. split; [reflexivity|].
    split; [vm_compute; reflexivity|]. split; [reflexivity|].
    intros Hc. apply crst_empty in Hc; [done|].
    intros a b (ap & aq & Ha & Hb & Hab & Hsep & Htol).
    assert (Hb2 : (b < 2)%nat) by (apply lookup_lt_Some in Hb; simpl in Hb; lia).
    assert (a = 0%nat) as -> by lia. assert (b = 1%nat) as -> by lia.
    simpl in Ha, Hb. simplify_eq.
    apply Q.max_le_iff in Htol as [H|H]; vm_compute in H; exact (H eq_refl).
  - intros factor cfg A.
    exists [set_cluster_id 1 (new_Match 0 0 10); set_cluster_id 2 (new_Match 81 110 10)],
           [-1; -1; -1].
    split; [reflexivity|]. split; [vm_compute; reflexivity|]. split; [reflexivity|].
    apply rst_step. exists (new_Match 0 0 10), (new_Match 81 110 10).
    split; [reflexivity|]. split; [reflexivity|]. split; [lia|].
    split; [vm_compute; discriminate|].
    apply Q.max_le_iff. right. vm_compute. discriminate.
Qed.

(** Claim C5.  In the output of [Process_Matches] every record that is not
    the first of its chain follows a record of the same chain, and starts at
    or after the end of that record on the reference axis and on the query
    axis (adjusted start plus adjusted length). *)
Theorem Process_Matches_no_overlap cfg (A : list Match_t) (label : string)
    (out : list out_line) :
  Process_Matches cfg A label = Some out ->
  forall k r1 r2, out !! k = Some r1 -> out !! S k = Some r2 -> follows r1 r2.
Proof.
  unfold Process_Matches. intros Hrun.
  apply (well_chained_follows None).
  destruct (length A =? 0)%nat; [simplify_eq; repeat constructor|].
  destruct (Query_Clusters cfg A) as [A4|] eqn:HQ; [|done].
  destruct (clusters_loop _ _ _ _ _ _) as [[ct lines]|] eqn:HL; [|done].
  apply Query_Clusters_clean in HQ.
  destruct (clusters_loop_chained cfg _ _ _ _ _ _ _ HQ HL) as [Hl Hw].
  simplify_eq. destruct (ct =? 0); [|done].
  apply well_chained_app; [done|done|repeat constructor].
Qed.

Lemma Process_Matches_no_overlap_witness :
  follows (First_line 0 0 10) (Next_line 10 12 5 (Some (-5)) 0 2).
Proof.
  apply (Process_Matches_no_overlap
           (mkConfig 5 1000 10 DEFAULT_SEPARATION_FACTOR false)
           [new_Match 0 0 10; new_Match 5 7 10] "L"
           [Label_line "L"; First_line 0 0 10; Next_line 10 12 5 (Some (-5)) 0 2]
           eq_refl 1%nat); reflexivity.
Defined.

(** ** The scenario of two matches *)

Lemma two_anchor_clusters cfg :
  Fixed_Separation cfg = 5 -> Max_Separation cfg = 1000 ->
  Query_Clusters cfg [new_Match 0 0 10; new_Match 20 20 10]
  = Some [set_cluster_id 2 (new_Match 0 0 10);
          set_cluster_id 2 (new_Match 20 20 10)].
Proof.
  intros HF HM. unfold Query_Clusters.
  change (reset (length [new_Match 0 0 10; new_Match 20 20 10])) with (Some [-1; -1; -1]).
  change (Filter_Matches (qsort By_Start2 [new_Match 0 0 10; new_Match 20 20 10]))
    with (Some [new_Match 0 0 10; new_Match 20 20 10]).
  cbv iota beta. unfold Build_Clusters.
  cbn [length Nat.sub join_loop lookup list_lookup join_inner].
  rewrite HM. change (20 - (0 + 10) >? 1000) with false. cbv iota.
  rewrite joinable_on_diagonal by (rewrite ?HF; done).
  reflexivity.
Qed.

Lemma two_anchor_cluster_run cfg label :
  Use_Extents cfg = false ->
  Process_Cluster cfg [set_cluster_id 2 (new_Match 0 0 10);
                       set_cluster_id 2 (new_Match 20 20 10)] label
  = Some (if 20 >=? Min_Output_Score cfg
          then (1, [Label_line label; First_line 0 0 10;
                    Next_line 20 20 10 None 10 10])
          else (0, [])).
Proof.
  intros HU. unfold Process_Cluster. cbn [length cluster_loop].
  change (select_chain [set_cluster_id 2 (new_Match 0 0 10);
                        set_cluster_id 2 (new_Match 20 20 10)])
    with (Some ([mkMatch 0 0 10 10 (-1) 0 2 true false;
                 mkMatch 20 20 10 20 0 0 2 true false], 20, 30, 0)).
  cbv iota beta. unfold chain_score. rewrite HU.
  destruct (20 >=? Min_Output_Score cfg); reflexivity.
Qed.

Lemma two_anchor_output cfg label :
  Fixed_Separation cfg = 5 -> Max_Separation cfg = 1000 ->
  Use_Extents cfg = false ->
  Process_Matches cfg [new_Match 0 0 10; new_Match 20 20 10] label
  = Some (if 20 >=? Min_Output_Score cfg
          then [Label_line label; First_line 0 0 10;
                Next_line 20 20 10 None 10 10]
          else [Label_line label]).
Proof.
  intros HF HM HU. unfold Process_Matches. cbn [length Nat.eqb].
  rewrite (two_anchor_clusters cfg HF HM).
  cbn [length clusters_loop lookup list_lookup run_end Nat.sub Nat.add cluster_id
       set_cluster_id new_Match Z.eqb Pos.eqb take drop firstn skipn].
  rewrite (two_anchor_cluster_run cfg label HU).
  destruct (20 >=? Min_Output_Score cfg); reflexivity.
Qed.

(** Claim C1, as amended.  For the matches [(0,0,10)] and [(20,20,10)]
    with fixed separation 5, maximum separation 1000 and summed-length
    scoring, whatever the separation factor: both matches get the same
    cluster id, one chain holding both is selected, its score is 20; with
    the default minimum output score 200 the chain is not emitted and the
    output is the label alone; with a minimum of at most 20 the chain is
    emitted, the first match unadjusted and the second with adjustment
    [none] and gaps 10 and 10. *)
Theorem two_anchor_scenario cfg (label : string) :
  Fixed_Separation cfg = 5 -> Max_Separation cfg = 1000 ->
  Use_Extents cfg = false ->
  let A := [new_Match 0 0 10; new_Match 20 20 10] in
  let A4 := [set_cluster_id 2 (new_Match 0 0 10);
             set_cluster_id 2 (new_Match 20 20 10)] in
  Query_Clusters cfg A = Some A4 /\
  clusters_chains (length A4) A4 0
  = Some [([mkMatch 0 0 10 10 (-1) 0 2 true false;
            mkMatch 20 20 10 20 0 0 2 true false], 20, 30, 0)] /\
  chain_score cfg 20 30 0 = 20 /\
  (Min_Output_Score cfg = 200 ->
   Process_Matches cfg A label = Some [Label_line label]) /\
  (Min_Output_Score cfg <= 20 ->
   Process_Matches cfg A label
   = Some [Label_line label; First_line 0 0 10; Next_line 20 20 10 None 10 10]).
Proof.
  intros HF HM HU A A4. split_and!.
  - by apply two_anchor_clusters.
  - reflexivity.
  - unfold chain_score. by rewrite HU.
  - intros HS. unfold A. rewrite (two_anchor_output cfg label HF HM HU), HS. done.
  - intros HS. unfold A. rewrite (two_anchor_output cfg label HF HM HU).
    destruct (Z.geb_spec 20 (Min_Output_Score cfg)); [done|lia].
Qed.

Lemma two_anchor_scenario_witness :
  let A := [new_Match 0 0 10; new_Match 20 20 10] in
  let A4 := [set_cluster_id 2 (new_Match 0 0 10);
             set_cluster_id 2 (new_Match 20 20 10)] in
  Query_Clusters default_config A = Some A4 /\
  clusters_chains (length A4) A4 0
  = Some [([mkMatch 0 0 10 10 (-1) 0 2 true false;
            mkMatch 20 20 10 20 0 0 2 true false], 20, 30, 0)] /\
  chain_score default_config 20 30 0 = 20 /\
  (Min_Output_Score default_config = 200 ->
   Process_Matches default_config A "L" = Some [Label_line "L"]) /\
  (Min_Output_Score default_config <= 20 ->
   Process_Matches default_config A "L"
   = Some [Label_line "L"; First_line 0 0 10; Next_line 20 20 10 None 10 10]).
Proof.
  apply (two_anchor_scenario default_config "L"); reflexivity.
Defined.

(** Claim C1 as stated fails: under the default configuration nothing but
    the label is written. *)
Lemma two_anchor_default_not_emitted :
  Process_Matches default_config [new_Match 0 0 10; new_Match 20 20 10] "L"
  = Some [Label_line "L"].
Proof. reflexivity. Qed.

(** The same scenario through the whole query with minimum output score 0:
    the chain holds two matches, not three. *)
Example merged_scenario_output :
  Process_Matches (mkConfig 5 1000 0 DEFAULT_SEPARATION_FACTOR false)
    [new_Match 0 0 10; new_Match 5 5 10; new_Match 20 20 10] "L"
  = Some [Label_line "L"; First_line 0 0 15; Next_line 20 20 10 None 5 5].
Proof. reflexivity. Qed.

(** * More properties *)

(** ** The comparators *)

Ltac by_cases :=
  repeat match goal with
  | |- context [?a <? ?b] => destruct (Z.ltb_spec a b)
  | |- context [?a >? ?b] => rewrite (Z.gtb_ltb a b)
  | H : context [?a <? ?b] |- _ => destruct (Z.ltb_spec a b)
  | H : context [?a >? ?b] |- _ => rewrite (Z.gtb_ltb a b) in H
  end.

(** Property X2.
    [By_Start2] is a three-way comparison [qsort] can use: swapping the
    arguments negates the result, it is 0 exactly for equal [Start2] and
    [Start1], negative exactly for the lexicographic order on
    ([Start2], [Start1]), and "not greater" is transitive. *)
Theorem By_Start2_consistent (x y z : Match_t) :
  By_Start2 y x = - By_Start2 x y /\
  (By_Start2 x y = 0 <-> Start2 x = Start2 y /\ Start1 x = Start1 y) /\
  (By_Start2 x y < 0 <->
   Start2 x < Start2 y \/ (Start2 x = Start2 y /\ Start1 x < Start1 y)) /\
  (By_Start2 x y <= 0 -> By_Start2 y z <= 0 -> By_Start2 x z <= 0).
Proof.
  unfold By_Start2. split_and!; try split; intros; by_cases; lia.
Qed.

(** Property X3.
    [By_Cluster] is a three-way comparison for the lexicographic order on
    ([cluster_id], [Start2], [Start1]). *)
Theorem By_Cluster_consistent (x y z : Match_t) :
  By_Cluster y x = - By_Cluster x y /\
  (By_Cluster x y = 0 <->
   cluster_id x = cluster_id y /\ Start2 x = Start2 y /\ Start1 x = Start1 y) /\
  (By_Cluster x y < 0 <->
   cluster_id x < cluster_id y \/
   (cluster_id x = cluster_id y /\
    (Start2 x < Start2 y \/ (Start2 x = Start2 y /\ Start1 x < Start1 y)))) /\
  (By_Cluster x y <= 0 -> By_Cluster y z <= 0 -> By_Cluster x z <= 0).
Proof.
  unfold By_Cluster. split_and!; try split; intros; by_cases; lia.
Qed.

(** ** What [Filter_Matches] keeps *)

Lemma grown_refl x : grown x x.
Proof. unfold grown. lia. Qed.

Lemma grown_trans x y z : grown x y -> grown y z -> grown x z.
Proof. unfold grown. intros (-> & -> & ?) (-> & -> & ?). lia. Qed.

Lemma flag_only_grown x x' : flag_only x x' -> grown x x'.
Proof. unfold flag_only, grown. intros (-> & -> & -> & _). lia. Qed.

Lemma Forall2_grown_insert A0 A p x x' :
  Forall2 grown A0 A -> A !! p = Some x -> grown x x' ->
  Forall2 grown A0 (<[p := x']> A).
Proof.
  intros H Hp Hg.
  destruct (Forall2_lookup_r _ _ _ _ _ H Hp) as (x0 & H0 & Hg0).
  rewrite <- (list_insert_id A0 p x0 H0). apply Forall2_insert; [done|].
  by eapply grown_trans.
Qed.

Lemma scan_grown A0 fuel i i_diag A e :
  Forall2 grown A0 A ->
  forall A', scan fuel A i i_diag e (S i) = Some A' -> Forall2 grown A0 A'.
Proof.
  intros HA A' HA'.
  pose (I := fun (B : list Match_t) (_ : Z) (j : nat) =>
               Forall2 grown A0 B /\ (i < j)%nat).
  assert (Hstep : forall B e1 j B' e',
             I B e1 j -> scan_body B i i_diag e1 j = Scan_next B' e' -> I B' e' (S j)).
  { intros B e1 j B' e' (HB & Hij) Hb.
    apply scan_body_next_spec in Hb; [|lia].
    destruct Hb as (ai & aj & ai' & aj' & Hi & Hj & -> & _ & _ & Hfj
                    & Hi1 & Hi2 & _ & Hlen).
    split; [|lia].
    eapply Forall2_grown_insert;
      [|by rewrite list_lookup_insert_ne by lia|by apply flag_only_grown].
    eapply Forall2_grown_insert; [done|done|].
    unfold grown. split_and!; try done.
    destruct Hlen as [(_ & _ & _ & [H|H])|H]; lia. }
  assert (HI : I A e (S i)) by (split; [done|lia]).
  pose proof (scan_invariant I i i_diag Hstep fuel A e (S i) HI) as H.
  rewrite HA' in H.
  destruct H as (A1 & e1 & j1 & (H1 & Hij) & [[-> ->]|Hstop]); [done|].
  apply scan_body_stop_spec in Hstop; [|lia].
  destruct Hstop as [(-> & _)|Hbreak]; [done|].
  destruct Hbreak as (ai & aj & ai' & aj' & Hi & Hj & -> & Hfj & Hfi & _).
  eapply Forall2_grown_insert;
    [|by rewrite list_lookup_insert_ne by lia|by apply flag_only_grown].
  eapply Forall2_grown_insert; [done|done|by apply flag_only_grown].
Qed.

Lemma filter_loop_grown A0 (fuel : nat) :
  forall A i A', Forall2 grown A0 A ->
    filter_loop fuel A i = Some A' -> Forall2 grown A0 A'.
Proof.
  induction fuel as [|fuel IH]; intros A i A' HA H; simpl in H; [by simplify_eq|].
  destruct (A !! i) as [ai|]; [|by simplify_eq].
  destruct (Good ai); [|by eapply IH].
  destruct (scan _ _ _ _ _ _) as [A1|] eqn:Hscan; [|done].
  eapply IH; [|done]. by eapply scan_grown.
Qed.

Lemma Forall2_filter_sublist {T U} (R : T -> U -> Prop) (keep : U -> bool) l k :
  Forall2 R l k ->
  exists kept, sublist kept l /\ Forall2 R kept (List.filter keep k).
Proof.
  induction 1 as [|x y l k Hxy _ (kept & Hs & Hk)]; simpl.
  - exists []. by split.
  - destruct (keep y).
    + exists (x :: kept). split; [by apply sublist_skip|by constructor].
    + exists kept. split; [by apply sublist_cons|done].
Qed.

(** Property X4.
    The filter invents nothing: what it returns is a subsequence of its
    input, in the same order, in which a match keeps both starts and has a
    length at least as long as before. *)
Theorem Filter_Matches_subsequence (A : list Match_t) :
  sorted2 A ->
  exists out kept,
    Filter_Matches A = Some out /\ sublist kept A /\ Forall2 grown kept out.
Proof.
  intros Hs. destruct (Filter_Matches_sorted A Hs) as (out & Hout & _).
  exists out. pose proof Hout as Hout'. unfold Filter_Matches in Hout'.
  destruct (filter_loop _ _ _) as [A'|] eqn:Hloop; [|done].
  assert (H0 : Forall2 grown A (map (set_Good true) A)).
  { apply Forall2_fmap_r, Forall_Forall2_diag, Forall_forall.
    intros x _. unfold grown. simpl. lia. }
  pose proof (filter_loop_grown A _ _ _ _ H0 Hloop) as H1.
  destruct (Forall2_filter_sublist grown Good _ _ H1) as (kept & Hsub & Hk).
  exists kept. split; [done|]. split; [done|].
  simplify_eq. rewrite pack_filter.
  apply Forall2_fmap_r. eapply Forall2_impl; [done|].
  intros x y (? & ? & ?). unfold grown. simpl. lia.
Qed.

Lemma Filter_Matches_subsequence_witness :
  exists out kept,
    Filter_Matches [new_Match 0 0 10; new_Match 5 5 10; new_Match 20 20 10] = Some out
    /\ sublist kept [new_Match 0 0 10; new_Match 5 5 10; new_Match 20 20 10]
    /\ Forall2 grown kept out.
Proof.
  apply (Filter_Matches_subsequence
           [new_Match 0 0 10; new_Match 5 5 10; new_Match 20 20 10]).
  apply sorted2b_sorted2. reflexivity.
Defined.

(** *** The filter never empties the array *)

Lemma scan_body_stop_Good A i i_diag e j A' ai :
  scan_body A i i_diag e j = Scan_stop A' -> i <> j ->
  A !! i = Some ai -> Good ai = true -> some_Good A'.
Proof.
  intros H Hne Hi HG. unfold scan_body, overlap_rule in H.
  destruct (A !! j) as [aj|] eqn:Hj; [|simplify_eq; by exists i, ai].
  rewrite Hi in H.
  repeat case_match; simplify_eq; zbool;
    try (by exists i, ai).
  all: try (exists j, aj; split; [by rewrite list_lookup_insert_ne|];
            by destruct (Good aj)).
  all: exists j, (set_Tentative true aj);
       (split; [rewrite list_lookup_insert_ne by done;
                apply list_lookup_insert_eq; by eapply lookup_lt_Some|]);
       simpl; by destruct (Good aj).
Qed.

Lemma scan_some_Good fuel i i_diag A e ai :
  A !! i = Some ai -> Good ai = true ->
  forall A', scan fuel A i i_diag e (S i) = Some A' -> some_Good A'.
Proof.
  intros Hi HG A' HA'.
  pose (I := fun (B : list Match_t) (_ : Z) (j : nat) =>
               (i < j)%nat /\ exists bi, B !! i = Some bi /\ Good bi = true).
  assert (Hstep : forall B e1 j B' e',
             I B e1 j -> scan_body B i i_diag e1 j = Scan_next B' e' -> I B' e' (S j)).
  { intros B e1 j B' e' (Hij & bi & Hbi & HGb) Hb.
    apply scan_body_next_spec in Hb; [|lia].
    destruct Hb as (ai1 & aj & ai' & aj' & Hi1 & Hj & -> & _ & _ & _
                    & _ & _ & HG' & _).
    split; [lia|]. exists ai'. split.
    - rewrite list_lookup_insert_ne by lia.
      apply list_lookup_insert_eq. by eapply lookup_lt_Some.
    - congruence. }
  assert (HI : I A e (S i)) by (split; [lia|by exists ai]).
  pose proof (scan_invariant I i i_diag Hstep fuel A e (S i) HI) as H.
  rewrite HA' in H.
  destruct H as (A1 & e1 & j1 & (Hij & bi & Hbi & HGb) & [[-> ->]|Hstop]).
  - by exists i, bi.
  - eapply scan_body_stop_Good; [done|lia|done|done].
Qed.

Lemma filter_loop_some_Good (fuel : nat) :
  forall A i A', some_Good A ->
    filter_loop fuel A i = Some A' -> some_Good A'.
Proof.
  induction fuel as [|fuel IH]; intros A i A' HA H; simpl in H; [by simplify_eq|].
  destruct (A !! i) as [ai|] eqn:Hi; [|by simplify_eq].
  destruct (Good ai) eqn:HG; [|by eapply IH].
  destruct (scan _ _ _ _ _ _) as [A1|] eqn:Hscan; [|done].
  eapply IH; [|done]. by eapply scan_some_Good.
Qed.

(** Property X5.
    A query with at least one match still has one after the filter: every
    match the filter drops is dropped because of another one that is kept
    at that moment. *)
Theorem Filter_Matches_nonempty (A : list Match_t) :
  sorted2 A -> A <> [] ->
  exists out, Filter_Matches A = Some out /\ out <> [].
Proof.
  intros Hs Hne. destruct (Filter_Matches_sorted A Hs) as (out & Hout & _).
  exists out. split; [done|]. unfold Filter_Matches in Hout.
  destruct (filter_loop _ _ _) as [A'|] eqn:Hloop; [|done].
  assert (H0 : some_Good (map (set_Good true) A)).
  { destruct A as [|a A]; [done|]. by exists 0%nat, (set_Good true a). }
  destruct (filter_loop_some_Good _ _ _ _ H0 Hloop) as (p & x & Hp & HG).
  simplify_eq. rewrite pack_filter. intros Hnil.
  apply fmap_nil_inv in Hnil.
  assert (Hin : In x (List.filter Good A')).
  { apply List.filter_In. split; [|done].
    apply list_elem_of_In. by eapply list_elem_of_lookup_2. }
  rewrite Hnil in Hin. done.
Qed.

Lemma Filter_Matches_nonempty_witness :
  exists out,
    Filter_Matches [new_Match 0 0 4; new_Match 0 3 10; new_Match 4 4 10] = Some out
    /\ out <> [].
Proof.
  apply (Filter_Matches_nonempty
           [new_Match 0 0 4; new_Match 0 3 10; new_Match 4 4 10]).
  - apply sorted2b_sorted2. reflexivity.
  - discriminate.
Defined.

(** *** Unrelated matches pass unchanged *)

Lemma scan_unrelated (fuel : nat) A i ai :
  sorted2 A -> Forall valid A -> ordpairs unrelated A ->
  Forall (fun m => Good m = true) A ->
  A !! i = Some ai ->
  forall j e, (i < j)%nat ->
    scan fuel A i (to_int (Start2 ai - Start1 ai)) e j = Some A.
Proof.
  intros Hs Hv Hu HG Hi.
  induction fuel as [|fuel IH]; intros j e Hij; simpl; [done|].
  assert (Hb : scan_body A i (to_int (Start2 ai - Start1 ai)) e j = Scan_next A e
               \/ scan_body A i (to_int (Start2 ai - Start1 ai)) e j = Scan_stop A).
  { unfold scan_body. destruct (A !! j) as [aj|] eqn:Hj; [|by right].
    rewrite Hi. destruct (Start2 aj <=? e); [|by right]. left.
    pose proof (Hs i j ai aj Hij Hi Hj) as Hs2. simpl in Hs2.
    destruct (Hu i j ai aj Hij Hi Hj) as (Hd & H1 & H2). unfold diag in Hd.
    rewrite Forall_forall in Hv, HG.
    pose proof (Hv ai (list_elem_of_lookup_2 _ _ _ Hi)) as (? & ? & ? & ? & ?).
    pose proof (Hv aj (list_elem_of_lookup_2 _ _ _ Hj)) as (? & ? & ? & ? & ?).
    rewrite (HG aj (list_elem_of_lookup_2 _ _ _ Hj)).
    rewrite !to_int_id by lia.
    replace (Start2 ai <=? Start2 aj) with true by (symmetry; apply Z.leb_le; lia).
    simpl.
    replace (Start2 ai - Start1 ai =? Start2 aj - Start1 aj) with false
      by (symmetry; apply Z.eqb_neq; lia).
    replace (Start1 ai =? Start1 aj) with false by (symmetry; by apply Z.eqb_neq).
    replace (Start2 ai =? Start2 aj) with false by (symmetry; by apply Z.eqb_neq).
    done. }
  destruct Hb as [-> | ->]; [by apply IH; lia|done].
Qed.

Lemma filter_loop_unrelated (fuel : nat) A :
  sorted2 A -> Forall valid A -> ordpairs unrelated A ->
  Forall (fun m => Good m = true) A ->
  forall i, filter_loop fuel A i = Some A.
Proof.
  intros Hs Hv Hu HG. induction fuel as [|fuel IH]; intros i; simpl; [done|].
  destruct (A !! i) as [ai|] eqn:Hi; [|done].
  destruct (Good ai); [|apply IH].
  rewrite (scan_unrelated _ A i ai Hs Hv Hu HG Hi) by lia. apply IH.
Qed.

(** Property X6.
    Matches that fit [int] and pairwise share no diagonal, no [Start1] and
    no [Start2] all pass the filter, untouched but for the cleared flag. *)
Theorem Filter_Matches_unrelated (A : list Match_t) :
  sorted2 A -> Forall valid A -> ordpairs unrelated A ->
  Filter_Matches A = Some (map (set_Good false) A).
Proof.
  intros Hs Hv Hu. unfold Filter_Matches.
  rewrite filter_loop_unrelated.
  - rewrite pack_filter. f_equal.
    induction A as [|a A IH]; [done|]. simpl. f_equal.
    apply IH.
    + intros p q x y Hpq Hp Hq. by apply (Hs (S p) (S q) x y); [lia|..].
    + by inversion Hv.
    + intros p q x y Hpq Hp Hq. by apply (Hu (S p) (S q) x y); [lia|..].
  - by apply sorted2_map.
  - by apply Forall_valid_map.
  - apply ordpairs_map. eapply ordpairs_impl; [|exact Hu]. auto.
  - apply Forall_fmap, Forall_forall. by intros.
Qed.

Lemma Filter_Matches_unrelated_witness :
  Filter_Matches [new_Match 0 0 10; new_Match 30 20 10]
  = Some (map (set_Good false) [new_Match 0 0 10; new_Match 30 20 10]).
Proof.
  apply (Filter_Matches_unrelated [new_Match 0 0 10; new_Match 30 20 10]).
  - apply sorted2b_sorted2. reflexivity.
  - apply validb_valid. reflexivity.
  - apply ordpairs_cons. split; [|apply ordpairs_cons; split; [constructor|apply ordpairs_nil]].
    constructor; [|constructor]. unfold unrelated, diag. simpl. lia.
Defined.

Lemma Filter_Matches_diagonal_witness :
  exists out,
    Filter_Matches [new_Match 0 0 10; new_Match 5 5 10; new_Match 20 20 10] = Some out /\
    forall a b x y, (a < b)%nat -> out !! a = Some x -> out !! b = Some y ->
      Start2 x - Start1 x = Start2 y - Start1 y ->
      Start2 x + Len x < Start2 y.
Proof.
  apply (Filter_Matches_diagonal
           [new_Match 0 0 10; new_Match 5 5 10; new_Match 20 20 10]).
  - apply sorted2b_sorted2. reflexivity.
  - apply validb_valid. reflexivity.
Defined.

(** *** The assertion and the compaction *)

(** Property X7.
    [assert (A[i].Start2 <= A[j].Start2)] is live: when the second match
    starts before the first one on the query axis, the assertion fails for
    the first pair the filter looks at. *)
Theorem Filter_Matches_asserts_order (a0 a1 : Match_t) (rest : list Match_t) :
  valid a0 -> Start2 a1 < Start2 a0 ->
  Filter_Matches (a0 :: a1 :: rest) = None.
Proof.
  intros (H1 & H2 & H3 & H4 & H5) Hlt. unfold Filter_Matches.
  cbn [length map Nat.sub filter_loop lookup list_lookup Good set_Good].
  replace (S (length rest) - 0)%nat with (S (length rest)) by lia.
  cbn [filter_loop lookup list_lookup Good set_Good Nat.sub length map scan].
  unfold scan_body.
  cbn [lookup list_lookup Start1 Start2 Len set_Good Good].
  rewrite (to_int_id (Start2 a0 + Len a0)) by lia.
  destruct (Z.leb_spec (Start2 a1) (Start2 a0 + Len a0)) as [_|?]; [|lia].
  destruct (Z.leb_spec (Start2 a0) (Start2 a1)) as [?|_]; [lia|]. done.
Qed.

Lemma Filter_Matches_asserts_order_witness :
  Filter_Matches [new_Match 0 10 5; new_Match 0 0 5] = None.
Proof.
  apply (Filter_Matches_asserts_order (new_Match 0 10 5) (new_Match 0 0 5) []).
  - unfold valid. simpl. lia.
  - simpl. lia.
Defined.

Lemma filter_sublist {T} (f : T -> bool) (l : list T) : sublist (List.filter f l) l.
Proof.
  induction l as [|a l IH]; simpl; [constructor|].
  destruct (f a); by constructor.
Qed.

(** Property X8.
    The two compaction loops, after the filter and after each round of
    [Process_Cluster], keep exactly the matches that pass the test, in their
    order, in the first cells of the array. *)
Theorem pack_keeps_order (keep : Match_t -> bool) (A : list Match_t) :
  pack keep A = List.filter keep A /\
  (length (pack keep A) <= length A)%nat /\
  sublist (pack keep A) A.
Proof.
  rewrite pack_filter. split; [done|]. split.
  - apply List.filter_length_le.
  - apply filter_sublist.
Qed.

(** ** More on [UnionFind] *)

Lemma uf_get_set_other uf j v x :
  0 <= j -> x <> j -> uf_get (uf_set uf j v) x = uf_get uf x.
Proof.
  intros Hj Hne. destruct (Z.ltb_spec x 0) as [Hneg|Hpos].
  - unfold uf_get. by destruct (Z.ltb_spec x 0); [|lia].
  - apply uf_get_set_ne; [done|done|congruence].
Qed.

Lemma is_root_not_parent uf x p : is_root uf x -> uf_get uf x = Some p -> p < 0.
Proof. intros (q & Hq & Hn) Hp. by simplify_eq. Qed.

(** Property X9.
    [reset(0)] fails its assertion; after [reset(s)] with [s >= 1] every
    element of [1 .. s] is alone in its set, and [find] returns it and
    writes nothing. *)
Theorem reset_singletons :
  reset 0 = None /\
  forall s : nat, (1 <= s)%nat ->
    exists uf, reset s = Some uf /\ length uf = S s /\
      forall a b, 1 <= a <= Z.of_nat s -> 1 <= b <= Z.of_nat s ->
        find uf a = Some (uf, a) /\ (same_set uf a b <-> a = b).
Proof.
  split; [done|]. intros s Hs.
  destruct (reset_spec s Hs) as (uf & Hr & Hwf & Hroots).
  exists uf. split; [done|]. split; [by destruct Hwf as [rank [? _]]|].
  intros a b Ha Hb. split.
  - unfold find. destruct (Hroots a Ha) as (p & -> & Hp).
    by destruct (Z.ltb_spec p 0); [|lia].
  - split.
    + intros (r & H1 & H2).
      pose proof (root_of_det uf a a r (root_of_root uf a (Hroots a Ha)) H1).
      pose proof (root_of_det uf b b r (root_of_root uf b (Hroots b Hb)) H2).
      congruence.
    + intros ->. exists b. split; apply root_of_root; by apply Hroots.
Qed.

Lemma find_root_S fuel uf i :
  find_root (S fuel) uf i
  = match uf_get uf i with
    | Some p => if p >? 0 then find_root fuel uf p else Some i
    | None => None
    end.
Proof. done. Qed.

Lemma compress_S fuel uf j i :
  compress (S fuel) uf j i
  = match uf_get uf j with
    | Some k => if negb (k =? i) then compress fuel (uf_set uf j i) k i else Some uf
    | None => None
    end.
Proof. done. Qed.

Section Union_Find_Sizes.

Variable N : nat.

(** The writes of the compression loop: the start ends below the root, the
    roots and the cells of smaller rank are not written. *)
Lemma compress_effect rank (fuel : nat) :
  forall uf j i d uf',
    uf_ranked N uf rank -> 1 <= j <= Z.of_nat N -> root_n uf j i (S d) ->
    compress fuel uf j i = Some uf' ->
    uf_get uf' j = Some i /\
    forall x, (rank x < rank j)%nat \/ is_root uf x -> uf_get uf' x = uf_get uf x.
Proof using Type.
  induction fuel as [|fuel IH]; intros uf j i d uf' Hwf Hj Hroot Hrun; [done|].
  simpl in Hrun. inversion Hroot as [|a k r d0 Hk Hpos Hrk]; subst.
  rewrite Hk in Hrun. revert Hrun.
  destruct (Z.eqb_spec k i) as [E|Hne]; simpl; intros Hrun.
  - by simplify_eq.
  - destruct d as [|d]; [inversion Hrk; by subst|].
    destruct (compress_write N uf rank j i (S d) Hwf Hj Hroot) as [Hwf' Hsame].
    assert (Hkr : 1 <= k <= Z.of_nat N /\ (rank j < rank k)%nat).
    { destruct Hwf as [_ Hwf0].
      destruct (Hwf0 j Hj) as (p' & Hp' & [Hneg|[Hpr Hlt]]); simplify_eq; [lia|done]. }
    destruct Hkr as [Hkr Hlt].
    assert (Hrk' : root_n (uf_set uf j i) k i (S d)).
    { eapply root_n_avoid; [done|lia|done|done|done]. }
    destruct (IH _ _ _ _ _ Hwf' Hkr Hrk' Hrun) as [Hk' Hframe].
    split.
    + rewrite Hframe by (left; lia).
      apply uf_get_set_eq; [lia|]. destruct Hwf as [-> _]. lia.
    + intros x Hx.
      assert (Hxj : x <> j).
      { intros ->. destruct Hx as [?|Hr]; [lia|].
        pose proof (is_root_not_parent _ _ _ Hr Hk). lia. }
      rewrite Hframe; [apply uf_get_set_other; [lia|done]|].
      destruct Hx as [?|(q & Hq & Hqn)]; [left; lia|right].
      exists q. split; [|done]. rewrite uf_get_set_other; [done|lia|done].
Qed.

Lemma find_effect uf rank a uf' r :
  uf_ranked N uf rank -> 1 <= a <= Z.of_nat N ->
  find uf a = Some (uf', r) ->
  (a = r \/ uf_get uf' a = Some r) /\
  forall x, is_root uf x -> uf_get uf' x = uf_get uf x.
Proof using Type.
  intros Hwf Ha Hrun. unfold find in Hrun.
  destruct (Hwf) as [Hlen Hwf0].
  destruct (Hwf0 a Ha) as (p & Hp & Hcase). rewrite Hp in Hrun.
  destruct (Z.ltb_spec p 0) as [Hneg|Hpos].
  - simplify_eq. split; [by left|done].
  - destruct (find_root_spec N uf rank a Hwf Ha) as (r0 & d & Hfr & Hr & Hd & Hroot).
    rewrite Hfr in Hrun.
    destruct d as [|d]; [inversion Hroot; subst; simplify_eq; lia|].
    destruct (compress _ _ _ _) as [uf1|] eqn:Hc; [|done]. simplify_eq.
    destruct (compress_effect rank _ _ _ _ _ _ Hwf Ha Hroot Hc) as [H1 H2].
    split; [by right|]. intros x Hx. apply H2. by right.
Qed.

(** Property X10.
    [find] is idempotent: it returns a root of [1 .. N]; after it the
    element is that root or its child, the sets are the same, and a second
    call returns the same root and writes nothing. *)
Theorem find_twice (uf : list Z) (a : Z) :
  uf_wf N uf -> 1 <= a <= Z.of_nat N ->
  exists uf' r,
    find uf a = Some (uf', r) /\
    1 <= r <= Z.of_nat N /\ is_root uf' r /\
    (a = r \/ uf_get uf' a = Some r) /\
    (forall x y, 1 <= x <= Z.of_nat N -> 1 <= y <= Z.of_nat N ->
       (same_set uf' x y <-> same_set uf x y)) /\
    find uf' a = Some (uf', r) /\ find uf' r = Some (uf', r).
Proof using Type.
  intros [rank Hwf] Ha.
  destruct (find_spec N uf rank a Hwf Ha) as (uf' & r & Hf & Hwf' & Hr & Hroot & Hsame).
  exists uf', r. split; [done|]. split; [done|].
  destruct (find_effect uf rank a uf' r Hwf Ha Hf) as [Hpar _].
  assert (Hrr : is_root uf' r).
  { destruct Hroot as [d Hd]. apply root_n_is_root in Hd.
    apply root_of_root in Hd. apply Hsame in Hd; [|done].
    destruct Hd as [d' Hd']. by eapply root_n_is_root. }
  assert (Hfr : find uf' r = Some (uf', r)).
  { unfold find. destruct Hrr as (q & -> & Hq).
    by destruct (Z.ltb_spec q 0); [|lia]. }
  split; [done|]. split; [done|].
  split; [intros x y Hx Hy; symmetry; by apply (same_roots_same_set N)|].
  split; [|done].
  destruct Hpar as [->|Hpar]; [done|].
  unfold find. rewrite Hpar.
  destruct (Z.ltb_spec r 0) as [?|_]; [lia|].
  destruct Hwf' as [Hlen _]. rewrite Hlen.
  destruct N as [|n]; [lia|].
  rewrite find_root_S, Hpar.
  destruct (Z.gtb_spec r 0) as [_|?]; [|lia].
  destruct Hrr as (q & Hq & Hqn). rewrite find_root_S, Hq.
  destruct (Z.gtb_spec q 0) as [?|_]; [lia|].
  rewrite compress_S, Hpar. by rewrite Z.eqb_refl.
Qed.

Lemma set_of_same_roots uf uf' r l :
  same_roots N uf uf' -> set_of N uf r l -> set_of N uf' r l.
Proof using Type.
  intros Hsame [Hnd Hl]. split; [done|]. intros x. rewrite Hl.
  split; intros [Hx Hr]; (split; [done|]); by apply Hsame.
Qed.

Lemma uf_sized_find uf rank a uf' r :
  uf_ranked N uf rank -> 1 <= a <= Z.of_nat N ->
  find uf a = Some (uf', r) -> uf_sized N uf -> uf_sized N uf'.
Proof using Type.
  intros Hwf Ha Hf Hsz r0 p Hr0 Hp Hneg.
  destruct (find_spec N uf rank a Hwf Ha) as (uf1 & r1 & Hf1 & _ & _ & _ & Hsame).
  rewrite Hf in Hf1. simplify_eq.
  destruct (find_effect uf rank a uf1 r1 Hwf Ha Hf) as [_ Hframe].
  assert (Hroot : is_root uf r0).
  { assert (H : root_of uf1 r0 r0) by (apply root_of_root; by exists p).
    apply Hsame in H; [|done]. destruct H as [d Hd]. by eapply root_n_is_root. }
  rewrite (Hframe r0 Hroot) in Hp.
  destruct (Hsz r0 p Hr0 Hp Hneg) as (l & Hl & ->).
  exists l. split; [by eapply set_of_same_roots|done].
Qed.

Lemma uf_sized_link uf rank w l pw pl :
  uf_ranked N uf rank ->
  1 <= w <= Z.of_nat N -> 1 <= l <= Z.of_nat N -> w <> l ->
  uf_get uf w = Some pw -> uf_get uf l = Some pl -> pw < 0 -> pl < 0 ->
  uf_sized N uf -> uf_sized N (uf_set (uf_set uf w (pw + pl)) l w).
Proof using Type.
  intros Hwf Hw Hl Hne Hgw Hgl Hnw Hnl Hsz.
  assert (Hrw : is_root uf w) by by exists pw.
  assert (Hrl : is_root uf l) by by exists pl.
  destruct (link_spec N uf rank w l (pw + pl) Hwf Hw Hl Hne Hrw Hrl) as [_ Hroots];
    [lia|].
  set (uf' := uf_set (uf_set uf w (pw + pl)) l w) in *.
  pose proof Hwf as [Hlen _].
  assert (Hw' : uf_get uf' w = Some (pw + pl)).
  { unfold uf'. rewrite uf_get_set_other; [|lia|done].
    apply uf_get_set_eq; [lia|]. rewrite Hlen. lia. }
  assert (Hl' : uf_get uf' l = Some w).
  { unfold uf'. apply uf_get_set_eq; [lia|].
    unfold uf_set. rewrite length_insert, Hlen. lia. }
  intros r p Hr Hp Hneg.
  assert (Hrl' : r <> l) by (intros ->; simplify_eq; lia).
  destruct (decide (r = w)) as [->|Hrw'].
  - simplify_eq.
    destruct (Hsz w pw Hw Hgw Hnw) as (lw & [Hndw Hlw] & ->).
    destruct (Hsz l pl Hl Hgl Hnl) as (ll & [Hndl Hll] & ->).
    exists (lw ++ ll). split; [|rewrite length_app; lia].
    split.
    + apply NoDup_app. split; [done|]. split; [|done].
      intros x Hx1 Hx2. apply Hlw in Hx1 as [_ H1]. apply Hll in Hx2 as [_ H2].
      apply Hne. by eapply root_of_det.
    + intros x. rewrite elem_of_app, Hlw, Hll. split.
      * intros [[Hx H]|[Hx H]]; (split; [done|]); apply Hroots; try done.
        -- exists w. split; [done|]. by rewrite decide_False.
        -- exists l. split; [done|]. by rewrite decide_True.
      * intros [Hx H]. apply Hroots in H as (r0 & Hr0 & E); [|done].
        destruct (decide (r0 = l)) as [->|?]; [by right|left]. by subst.
  - assert (Hp0 : uf_get uf r = Some p).
    { unfold uf' in Hp.
      rewrite uf_get_set_other in Hp; [|lia|done].
      by rewrite uf_get_set_other in Hp; [|lia|done]. }
    destruct (Hsz r p Hr Hp0 Hneg) as (l0 & [Hnd0 Hl0] & ->).
    exists l0. split; [|done]. split; [done|].
    intros x. rewrite Hl0. split; intros [Hx H]; (split; [done|]).
    + apply Hroots; [done|]. exists r. split; [done|]. by rewrite decide_False.
    + apply Hroots in H as (r0 & Hr0 & E); [|done].
      destruct (decide (r0 = l)); by subst.
Qed.

Lemma uf_sized_union uf a b uf' :
  uf_wf N uf -> 1 <= a <= Z.of_nat N -> 1 <= b <= Z.of_nat N ->
  union_sets uf a b = Some uf' -> uf_sized N uf ->
  uf_wf N uf' /\ uf_sized N uf'.
Proof using Type.
  intros Hwf Ha Hb Hun Hsz. pose proof Hun as Hun'. unfold union_sets in Hun.
  destruct (Z.eqb_spec a b) as [->|Hne]; [by simplify_eq|].
  destruct (uf_get uf a) as [pa|] eqn:Hpa; [|done].
  destruct (uf_get uf b) as [pb|] eqn:Hpb; [|done].
  destruct (Z.ltb_spec pa 0) as [Hna|?]; [|done].
  destruct (Z.ltb_spec pb 0) as [Hnb|?]; [|done]. simpl in Hun.
  destruct (union_sets_spec N uf a b Hwf Ha Hb) as (uf1 & Hun1 & Hwf1 & _);
    [by exists pa|by exists pb|].
  rewrite Hun' in Hun1. simplify_eq. split; [done|].
  destruct Hwf as [rank Hwf].
  destruct (Z.ltb_spec pa pb); simplify_eq.
  - by eapply uf_sized_link.
  - by eapply uf_sized_link.
Qed.

Lemma uf_sized_reset uf : reset N = Some uf -> uf_wf N uf /\ uf_sized N uf.
Proof using Type.
  intros Hr. assert (HN : (1 <= N)%nat).
  { unfold reset in Hr. by destruct (Nat.leb_spec 1 N). }
  destruct (reset_spec N HN) as (uf0 & Hr0 & Hwf & Hroots).
  rewrite Hr in Hr0. simplify_eq. split; [done|].
  intros r p Hr' Hp Hneg. exists [r].
  assert (Hp' : p = -1).
  { unfold reset in Hr. destruct (Nat.leb_spec 1 N); [|done]. simplify_eq.
    unfold uf_get in Hp. destruct (Z.ltb_spec r 0); [done|].
    by apply lookup_replicate_1 in Hp as [-> _]. }
  split; [|by subst]. split; [apply NoDup_singleton|].
  intros x. rewrite list_elem_of_singleton. split.
  - intros ->. split; [done|]. apply root_of_root. by exists p.
  - intros [Hx H]. eapply root_of_det; [exact H|].
    apply root_of_root. by apply Hroots.
Qed.

Lemma uf_reachable_sized uf : uf_reachable N uf -> uf_wf N uf /\ uf_sized N uf.
Proof using Type.
  induction 1 as [uf Hr|uf a uf' r _ [Hwf Hsz] Ha Hf
                  |uf a b uf' _ [Hwf Hsz] Ha Hb Hun].
  - by apply uf_sized_reset.
  - destruct Hwf as [rank Hwf].
    destruct (find_spec N uf rank a Hwf Ha) as (uf1 & r1 & Hf1 & Hwf1 & _).
    assert (uf1 = uf') as -> by congruence.
    split; [by exists rank|]. by apply (uf_sized_find uf rank a uf' r).
  - by apply (uf_sized_union uf a b uf').
Qed.

(** Property X11.
    Union by size keeps its books: in every vector built from [reset(N)]
    by calls of [find] and [union_sets], a negative entry is minus the
    number of elements of that root's set, so it lies in [-N .. -1] and the
    addition in [union_sets] cannot overflow. *)
Theorem UnionFind_sizes (uf : list Z) :
  uf_reachable N uf ->
  uf_wf N uf /\
  forall r p, 1 <= r <= Z.of_nat N -> uf_get uf r = Some p -> p < 0 ->
    - Z.of_nat N <= p <= -1 /\
    exists l, set_of N uf r l /\ p = - Z.of_nat (length l).
Proof using Type.
  intros H. destruct (uf_reachable_sized uf H) as [Hwf Hsz]. split; [done|].
  intros r p Hr Hp Hneg. destruct (Hsz r p Hr Hp Hneg) as (l & [Hnd Hl] & ->).
  split; [|by exists l].
  assert (length l <= N)%nat.
  { apply (NoDup_range_length N); [done|]. intros x Hx. by apply Hl in Hx as [? _]. }
  lia.
Qed.

(** Property X12.
    [union_sets(a, b)] on elements of [1 .. N]: nothing happens for
    [a = b]; the assertion fails when one of two different arguments is not
    a root; two roots are linked, and then two elements are in one set
    exactly if they were before or one was with [a] and the other with [b]. *)
Theorem union_sets_merges (uf : list Z) (a b : Z) :
  uf_wf N uf -> 1 <= a <= Z.of_nat N -> 1 <= b <= Z.of_nat N ->
  (a = b -> union_sets uf a b = Some uf) /\
  (a <> b -> ~ (is_root uf a /\ is_root uf b) -> union_sets uf a b = None) /\
  (is_root uf a -> is_root uf b ->
   exists uf', union_sets uf a b = Some uf' /\ uf_wf N uf' /\
     forall x y, 1 <= x <= Z.of_nat N -> 1 <= y <= Z.of_nat N ->
       (same_set uf' x y <->
        same_set uf x y \/ (same_set uf x a /\ same_set uf y b)
        \/ (same_set uf x b /\ same_set uf y a))).
Proof using Type.
  intros Hwf Ha Hb. split_and!.
  - intros ->. unfold union_sets. by rewrite Z.eqb_refl.
  - intros Hne Hnr. unfold union_sets.
    destruct (Z.eqb_spec a b) as [?|_]; [done|].
    destruct (uf_get uf a) as [pa|] eqn:Hpa; [|done].
    destruct (uf_get uf b) as [pb|] eqn:Hpb; [|done].
    destruct (Z.ltb_spec pa 0) as [Hna|?]; [|done].
    destruct (Z.ltb_spec pb 0) as [Hnb|?]; [|done].
    exfalso. apply Hnr. split; [by exists pa|by exists pb].
  - intros Hra Hrb. by apply union_sets_spec.
Qed.

End Union_Find_Sizes.

Lemma uf_wf_linked : uf_wf 2 [-1; 2; -2].
Proof.
  exists (fun z => if z =? 2 then 1%nat else 0%nat). split; [done|].
  intros a Ha. assert (a = 1 \/ a = 2) as [-> | ->] by lia.
  - exists 2. split; [done|]. right. split; [lia|]. simpl. lia.
  - exists (-2). split; [done|]. left. lia.
Qed.

Lemma find_twice_witness :
  exists uf' r,
    find [-1; 2; -2] 1 = Some (uf', r) /\
    1 <= r <= Z.of_nat 2 /\ is_root uf' r /\
    (1 = r \/ uf_get uf' 1 = Some r) /\
    (forall x y, 1 <= x <= Z.of_nat 2 -> 1 <= y <= Z.of_nat 2 ->
       (same_set uf' x y <-> same_set [-1; 2; -2] x y)) /\
    find uf' 1 = Some (uf', r) /\ find uf' r = Some (uf', r).
Proof.
  apply (find_twice 2 [-1; 2; -2] 1); [apply uf_wf_linked|lia].
Defined.

Lemma union_sets_merges_witness :
  (1 = 2 -> union_sets [-1; -1; -1] 1 2 = Some [-1; -1; -1]) /\
  (1 <> 2 -> ~ (is_root [-1; -1; -1] 1 /\ is_root [-1; -1; -1] 2) ->
   union_sets [-1; -1; -1] 1 2 = None) /\
  (is_root [-1; -1; -1] 1 -> is_root [-1; -1; -1] 2 ->
   exists uf', union_sets [-1; -1; -1] 1 2 = Some uf' /\ uf_wf 2 uf' /\
     forall x y, 1 <= x <= Z.of_nat 2 -> 1 <= y <= Z.of_nat 2 ->
       (same_set uf' x y <->
        same_set [-1; -1; -1] x y
        \/ (same_set [-1; -1; -1] x 1 /\ same_set [-1; -1; -1] y 2)
        \/ (same_set [-1; -1; -1] x 2 /\ same_set [-1; -1; -1] y 1))).
Proof.
  apply (union_sets_merges 2 [-1; -1; -1] 1 2); [|lia|lia].
  destruct (reset_spec 2) as (uf & Hr & Hwf & _); [lia|].
  injection Hr as <-. exact Hwf.
Defined.

Lemma UnionFind_sizes_witness :
  uf_wf 2 [-1; 2; -2] /\
  forall r p, 1 <= r <= Z.of_nat 2 -> uf_get [-1; 2; -2] r = Some p -> p < 0 ->
    - Z.of_nat 2 <= p <= -1 /\
    exists l, set_of 2 [-1; 2; -2] r l /\ p = - Z.of_nat (length l).
Proof.
  apply (UnionFind_sizes 2 [-1; 2; -2]).
  apply (ur_union 2 [-1; -1; -1] 1 2); [|lia|lia|reflexivity].
  apply ur_reset. reflexivity.
Defined.

(** *** The depth of the trees *)

Lemma root_n_root_pos uf a r n : root_n uf a r n -> n <> 0%nat -> 0 < r.
Proof.
  induction 1 as [a p Hp Hneg|a p r d Hp Hpos H IH]; intros Hn; [done|].
  destruct d as [|d]; [|by apply IH].
  inversion H; subst. lia.
Qed.

Lemma root_n_write_depth uf j i dj :
  0 <= j -> root_n uf j i (S dj) ->
  forall x r d', root_n (uf_set uf j i) x r d' ->
    exists d, (d' <= d)%nat /\ root_n uf x r d.
Proof.
  intros Hj Hroot x r d' H.
  assert (Hi : 0 < i) by (by apply (root_n_root_pos uf j i (S dj))).
  assert (Hlen : (Z.to_nat j < length uf)%nat).
  { inversion Hroot as [|? k ? ? Hk _ _]; subst. by apply uf_get_Some in Hk as [_ ?]. }
  assert (Hgj : uf_get (uf_set uf j i) j = Some i) by (by apply uf_get_set_eq).
  induction H as [a p Hp Hneg|a p r d Hp Hpos H IH].
  - assert (a <> j) by (intros ->; simplify_eq; lia).
    rewrite uf_get_set_other in Hp by done.
    exists 0%nat. split; [lia|]. by apply (rn_root _ a p).
  - destruct (decide (a = j)) as [->|Hne].
    + assert (p = i) as -> by congruence. destruct IH as (d0 & Hd0 & Hr0).
      assert (r = i /\ d0 = 0%nat) as [-> ->].
      { assert (Hir : root_n uf i i 0).
        { apply root_n_is_root in Hroot as (q & Hq & Hqn). by apply (rn_root _ i q). }
        by apply (root_n_det uf i i 0 Hir). }
      exists (S dj). split; [lia|done].
    + rewrite uf_get_set_other in Hp by done.
      destruct IH as (d0 & Hd0 & Hr0). exists (S d0). split; [lia|].
      by apply (rn_step _ a p).
Qed.

Section Union_Find_Depth.

Variable N : nat.

Lemma compress_depth rank (fuel : nat) :
  forall uf j i d uf',
    uf_ranked N uf rank -> 1 <= j <= Z.of_nat N -> root_n uf j i (S d) ->
    compress fuel uf j i = Some uf' ->
    forall x r d', root_n uf' x r d' -> exists d0, (d' <= d0)%nat /\ root_n uf x r d0.
Proof using Type.
  induction fuel as [|fuel IH]; intros uf j i d uf' Hwf Hj Hroot Hrun; [done|].
  rewrite compress_S in Hrun.
  inversion Hroot as [|a k r0 d1 Hk Hpos Hrk]; subst. rewrite Hk in Hrun. revert Hrun.
  destruct (Z.eqb_spec k i) as [E|Hne]; simpl; intros Hrun.
  - simplify_eq. intros x r d' H. exists d'. split; [lia|done].
  - destruct d as [|d]; [inversion Hrk; by subst|].
    destruct (compress_write N uf rank j i (S d) Hwf Hj Hroot) as [Hwf' _].
    assert (Hkr : 1 <= k <= Z.of_nat N /\ (rank j < rank k)%nat).
    { destruct Hwf as [_ Hwf0].
      destruct (Hwf0 j Hj) as (p' & Hp' & [Hneg|[Hpr Hlt]]); simplify_eq; [lia|done]. }
    destruct Hkr as [Hkr Hlt].
    assert (Hrk' : root_n (uf_set uf j i) k i (S d)).
    { eapply root_n_avoid; [done|lia|done|done|done]. }
    intros x r d' H.
    destruct (IH _ _ _ _ _ Hwf' Hkr Hrk' Hrun x r d' H) as (d0 & Hd0 & H0).
    destruct (root_n_write_depth uf j i (S d) ltac:(lia) Hroot x r d0 H0)
      as (d2 & Hd2 & H2).
    exists d2. split; [lia|done].
Qed.

Lemma uf_balanced_find uf rank a uf' r :
  uf_ranked N uf rank -> 1 <= a <= Z.of_nat N ->
  find uf a = Some (uf', r) -> uf_balanced uf -> uf_balanced uf'.
Proof using Type.
  intros Hwf Ha Hf Hbal.
  destruct (find_effect N uf rank a uf' r Hwf Ha Hf) as [_ Hframe].
  assert (Hdepth : forall x r0 d', root_n uf' x r0 d' ->
            exists d0, (d' <= d0)%nat /\ root_n uf x r0 d0).
  { unfold find in Hf. destruct Hwf as [Hlen Hwf0].
    destruct (Hwf0 a Ha) as (p & Hp & Hcase). rewrite Hp in Hf.
    destruct (Z.ltb_spec p 0) as [Hneg|Hpos].
    - simplify_eq. intros x r0 d' H. exists d'. split; [lia|done].
    - destruct (find_root_spec N uf rank a (conj Hlen Hwf0) Ha)
        as (r1 & d & Hfr & Hr & Hd & Hroot).
      rewrite Hfr in Hf.
      destruct d as [|d]; [inversion Hroot; subst; simplify_eq; lia|].
      destruct (compress _ _ _ _) as [uf1|] eqn:Hc; [|done]. simplify_eq.
      by apply (compress_depth rank _ _ _ _ _ _ (conj Hlen Hwf0) Ha Hroot Hc). }
  intros x r0 d' p H Hp.
  destruct (Hdepth x r0 d' H) as (d0 & Hd0 & H0).
  assert (Hr0 : is_root uf r0) by by eapply root_n_is_root.
  rewrite (Hframe r0 Hr0) in Hp.
  pose proof (Hbal x r0 d0 p H0 Hp).
  assert (2 ^ Z.of_nat d' <= 2 ^ Z.of_nat d0) by (apply Z.pow_le_mono_r; lia).
  lia.
Qed.

Lemma root_n_link_depth uf w l v :
  1 <= w -> 1 <= l -> w <> l -> is_root uf w -> is_root uf l -> v < 0 ->
  (Z.to_nat w < length uf)%nat -> (Z.to_nat l < length uf)%nat ->
  forall x r d', root_n (uf_set (uf_set uf w v) l w) x r d' ->
    exists r0 d, root_n uf x r0 d /\
      ((r0 = l /\ r = w /\ d' = S d) \/ (r0 <> l /\ r = r0 /\ d' = d)).
Proof.
  intros Hw Hl Hne Hrw Hrl Hv Hlw Hll.
  set (uf' := uf_set (uf_set uf w v) l w).
  assert (Hgw : uf_get uf' w = Some v).
  { unfold uf'. rewrite uf_get_set_other; [|lia|done]. apply uf_get_set_eq; lia. }
  assert (Hgl : uf_get uf' l = Some w).
  { unfold uf'. apply uf_get_set_eq; [lia|]. unfold uf_set. by rewrite length_insert. }
  assert (Hgo : forall x, x <> w -> x <> l -> uf_get uf' x = uf_get uf x).
  { intros x H1 H2. unfold uf'.
    rewrite uf_get_set_other; [|lia|done]. by rewrite uf_get_set_other; [|lia|]. }
  intros x r d' H. induction H as [a p Hp Hneg|a p r d Hp Hpos H IH].
  - assert (a <> l) by (intros ->; simplify_eq; lia).
    destruct (decide (a = w)) as [->|Haw].
    + destruct Hrw as (q & Hq & Hqn). exists w, 0%nat.
      split; [by apply (rn_root _ w q)|]. right. by split_and!.
    + rewrite Hgo in Hp by done. exists a, 0%nat.
      split; [by apply (rn_root _ a p)|]. right. by split_and!.
  - destruct (decide (a = l)) as [->|Hal].
    + assert (p = w) as -> by congruence.
      assert (r = w /\ d = 0%nat) as [-> ->].
      { by apply (root_n_det uf' w w 0 (rn_root _ w v Hgw Hv)). }
      destruct Hrl as (q & Hq & Hqn). exists l, 0%nat.
      split; [by apply (rn_root _ l q)|]. left. by split_and!.
    + assert (a <> w) by (intros ->; simplify_eq; lia).
      rewrite Hgo in Hp by done.
      destruct IH as (r0 & d0 & Hroot0 & Hcase). exists r0, (S d0).
      split; [by apply (rn_step _ a p)|].
      destruct Hcase as [(-> & -> & ->)|(? & -> & ->)]; [left|right]; by split_and!.
Qed.

Lemma uf_balanced_link uf w l pw pl :
  1 <= w -> 1 <= l -> w <> l ->
  uf_get uf w = Some pw -> uf_get uf l = Some pl -> pw < 0 -> pl < 0 -> pw <= pl ->
  uf_balanced uf -> uf_balanced (uf_set (uf_set uf w (pw + pl)) l w).
Proof using Type.
  intros Hw Hl Hne Hgw Hgl Hnw Hnl Hle Hbal x r d' p H Hp.
  assert (Hlw : (Z.to_nat w < length uf)%nat) by (by apply uf_get_Some in Hgw as [_ ?]).
  assert (Hll : (Z.to_nat l < length uf)%nat) by (by apply uf_get_Some in Hgl as [_ ?]).
  destruct (root_n_link_depth uf w l (pw + pl) Hw Hl Hne) with (x := x) (r := r) (d' := d')
    as (r0 & d & H0 & Hcase); try done; [by exists pw|by exists pl|lia|].
  assert (Hw' : uf_get (uf_set (uf_set uf w (pw + pl)) l w) w = Some (pw + pl)).
  { rewrite uf_get_set_other; [|lia|done]. apply uf_get_set_eq; lia. }
  destruct Hcase as [(-> & -> & ->)|(Hr0 & -> & ->)].
  - rewrite Hw' in Hp. simplify_eq.
    pose proof (Hbal x l d pl H0 Hgl).
    rewrite Nat2Z.inj_succ, Z.pow_succ_r by lia. lia.
  - destruct (decide (r0 = w)) as [->|Hrw].
    + rewrite Hw' in Hp. simplify_eq. pose proof (Hbal x w d pw H0 Hgw). lia.
    + rewrite uf_get_set_other in Hp; [|lia|done].
      rewrite uf_get_set_other in Hp; [|lia|done].
      by apply (Hbal x r0 d p).
Qed.

Lemma uf_balanced_union uf a b uf' :
  1 <= a <= Z.of_nat N -> 1 <= b <= Z.of_nat N ->
  union_sets uf a b = Some uf' -> uf_balanced uf -> uf_balanced uf'.
Proof using Type.
  intros Ha Hb Hun Hbal. unfold union_sets in Hun.
  destruct (Z.eqb_spec a b) as [->|Hne]; [by simplify_eq|].
  destruct (uf_get uf a) as [pa|] eqn:Hpa; [|done].
  destruct (uf_get uf b) as [pb|] eqn:Hpb; [|done].
  destruct (Z.ltb_spec pa 0) as [Hna|?]; [|done].
  destruct (Z.ltb_spec pb 0) as [Hnb|?]; [|done]. simpl in Hun.
  destruct (Z.ltb_spec pa pb); simplify_eq.
  - apply uf_balanced_link; try done; lia.
  - apply uf_balanced_link; try done; lia.
Qed.

Lemma uf_reachable_balanced uf : uf_reachable N uf -> uf_balanced uf.
Proof using Type.
  induction 1 as [uf Hr|uf a uf' r Hreach IH Ha Hf
                  |uf a b uf' Hreach IH Ha Hb Hun].
  - unfold reset in Hr. destruct (Nat.leb_spec 1 N); [|done]. simplify_eq.
    intros x r d p Hroot Hp.
    assert (Hall : forall y q, uf_get (replicate (S N) (-1)) y = Some q -> q = -1).
    { intros y q Hq. unfold uf_get in Hq. destruct (y <? 0); [done|].
      by apply lookup_replicate_1 in Hq as [-> _]. }
    destruct Hroot as [a q Hq Hneg|a q r d Hq Hpos Hroot].
    + rewrite (Hall _ _ Hp). simpl. lia.
    + rewrite (Hall _ _ Hq) in Hpos. lia.
  - destruct (uf_reachable_sized N uf Hreach) as [[rank Hwf] _].
    by apply (uf_balanced_find uf rank a uf' r).
  - by apply (uf_balanced_union uf a b uf').
Qed.

(** Property X13.
    The trees stay shallow: in every vector built from [reset(N)] by calls
    of [find] and [union_sets], an element [d] steps below its root has
    [2^d <= N], so the loops of [find] make at most [log2 N] rounds. *)
Theorem UnionFind_depth (uf : list Z) (x r : Z) (d : nat) :
  uf_reachable N uf -> 1 <= x <= Z.of_nat N -> root_n uf x r d ->
  2 ^ Z.of_nat d <= Z.of_nat N.
Proof using Type.
  intros Hreach Hx Hroot.
  pose proof (uf_reachable_balanced uf Hreach) as Hbal.
  destruct (uf_reachable_sized N uf Hreach) as [[rank Hwf] Hsz].
  destruct (root_n_rank N uf rank x r d Hwf Hroot Hx) as [Hr _].
  destruct (root_n_is_root uf x r d Hroot) as (p & Hp & Hneg).
  pose proof (Hbal x r d p Hroot Hp) as H1.
  destruct (Hsz r p Hr Hp Hneg) as (l & [Hnd Hl] & ->).
  assert (length l <= N)%nat.
  { apply (NoDup_range_length N); [done|]. intros y Hy. by apply Hl in Hy as [? _]. }
  lia.
Qed.

End Union_Find_Depth.

Lemma UnionFind_depth_witness : 2 ^ Z.of_nat 1 <= Z.of_nat 2.
Proof.
  apply (UnionFind_depth 2 [-1; 2; -2] 1 2 1).
  - apply (ur_union 2 [-1; -1; -1] 1 2); [|lia|lia|reflexivity].
    apply ur_reset. reflexivity.
  - lia.
  - apply (rn_step _ 1 2); [reflexivity|lia|]. by apply (rn_root _ 2 (-2)).
Defined.

(** ** [Process_Cluster]: the chain selected is a best one *)

Lemma score_step_eq j aj ai :
  score_step j aj ai
  = if Simple_Score aj + Len ai - penalty aj ai >? Simple_Score ai
    then set_Simple (Simple_Score aj + Len ai - penalty aj ai) (Z.of_nat j)
                    (olap aj ai) ai
    else ai.
Proof. reflexivity. Qed.

Lemma penalty_triple aj aj' x x' :
  triple aj = triple aj' -> triple x = triple x' -> penalty aj x = penalty aj' x'.
Proof.
  intros H1 H2. unfold penalty. rewrite (olap_triple aj aj' x x' H1 H2).
  unfold triple, diag in *. injection H1 as E1 E2 E3. injection H2 as F1 F2 F3.
  by rewrite E1, E2, F1, F2.
Qed.

Lemma best_upto_ext A B j x :
  (forall k, (k < j)%nat -> A !! k = B !! k) -> best_upto A j x -> best_upto B j x.
Proof.
  intros Hext (H1 & H2 & H3). split_and!; [done| |].
  - intros k ak Hk Hak. apply (H2 k); [done|]. by rewrite Hext.
  - destruct H3 as [H3|(k & ak & E & Hk & Hak & Hs)]; [by left|right].
    exists k, ak. split_and!; try done; try tauto. by rewrite <- Hext.
Qed.

Lemma best_upto_step A j aj ai :
  A !! j = Some aj -> best_upto A j ai -> best_upto A (S j) (score_step j aj ai).
Proof.
  intros Hj (H1 & H2 & H3). rewrite score_step_eq.
  destruct (Z.gtb_spec (Simple_Score aj + Len ai - penalty aj ai) (Simple_Score ai))
    as [Hgt|Hle].
  - split_and!; simpl.
    + lia.
    + intros k ak Hk Hak.
      change (penalty ak (set_Simple _ _ _ ai)) with (penalty ak ai).
      destruct (decide (k = j)) as [->|Hne]; [simplify_eq; lia|].
      assert (Hkj : (k < j)%nat) by lia.
      specialize (H2 k ak Hkj Hak). lia.
    + right. exists j, aj. split_and!; try done. lia.
  - split_and!; [done| |].
    + intros k ak Hk Hak.
      destruct (decide (k = j)) as [->|Hne]; [simplify_eq; lia|].
      apply (H2 k); [lia|done].
    + destruct H3 as [H3|(k & ak & E & Hk & Hak & Hs & Hadj)]; [by left|right].
      exists k, ak. split_and!; try done. lia.
Qed.

Lemma score_inner_best (fuel : nat) :
  forall A i j ai,
    A !! i = Some ai -> (j + fuel <= i)%nat -> best_upto A j ai ->
    exists ai', score_inner fuel A i j = <[i := ai']> A /\
                best_upto A (j + fuel) ai'.
Proof.
  induction fuel as [|fuel IH]; intros A i j ai Hi Hle Hb; simpl.
  - exists ai. rewrite list_insert_id by done. by rewrite Nat.add_0_r.
  - assert (Hlj : (j < length A)%nat) by (apply lookup_lt_Some in Hi; lia).
    apply lookup_lt_is_Some_2 in Hlj as [aj Hj]. rewrite Hj, Hi.
    assert (Hli : (i < length A)%nat) by by eapply lookup_lt_Some.
    assert (Hext : forall B k, (k < i)%nat -> A !! k = <[i := B]> A !! k).
    { intros B k Hk. by rewrite list_lookup_insert_ne by lia. }
    destruct (IH (<[i := score_step j aj ai]> A) i (S j) (score_step j aj ai))
      as (ai' & Hrun & Hb').
    + by apply list_lookup_insert_eq.
    + lia.
    + eapply best_upto_ext; [|by apply best_upto_step].
      intros k Hk. apply Hext. lia.
    + exists ai'. rewrite Hrun, list_insert_insert_eq. split; [done|].
      replace (j + S fuel)%nat with (S j + fuel)%nat by lia.
      eapply best_upto_ext; [|exact Hb'].
      intros k Hk. symmetry. apply Hext. lia.
Qed.

Lemma score_loop_best (fuel : nat) :
  forall A i,
    (forall p x, (p < i)%nat -> A !! p = Some x -> best_upto A p x) ->
    (length A <= i + fuel)%nat ->
    dp_done (score_loop fuel A i).
Proof.
  induction fuel as [|fuel IH]; intros A i Hs Hlen; simpl.
  - intros p x Hp. apply Hs; [|done]. apply lookup_lt_Some in Hp. lia.
  - destruct (A !! i) as [ai|] eqn:Hi.
    + set (a0 := set_Simple (Len ai) (-1) 0 ai).
      assert (Hli : (i < length A)%nat) by by eapply lookup_lt_Some.
      destruct (score_inner_best i (<[i := a0]> A) i 0 a0) as (ai' & -> & Hb').
      { by apply list_lookup_insert_eq. }
      { lia. }
      { split_and!; simpl; [lia|intros; lia|by left]. }
      rewrite list_insert_insert_eq. apply IH; [|rewrite length_insert; lia].
      intros p x Hp Hx. destruct (decide (p = i)) as [->|Hne].
      * rewrite list_lookup_insert_eq in Hx by done. simplify_eq.
        eapply best_upto_ext; [|exact Hb'].
        intros k Hk. by rewrite !list_lookup_insert_ne by lia.
      * rewrite list_lookup_insert_ne in Hx by done.
        eapply best_upto_ext; [|apply (Hs p x); [lia|done]].
        intros k Hk. by rewrite list_lookup_insert_ne by lia.
    + intros p x Hp. apply Hs; [|done].
      apply lookup_lt_Some in Hp. apply lookup_ge_None in Hi. lia.
Qed.

Lemma dp_upper A i s :
  dp_done A -> chain_to A i s -> forall x, A !! i = Some x -> s <= Simple_Score x.
Proof.
  intros Hdp. induction 1 as [i x Hx|j i aj ai s Hji Hj Hi _ IH]; intros x' Hx'.
  - assert (x' = x) as -> by congruence. by destruct (Hdp i x Hx) as (? & _).
  - assert (x' = ai) as -> by congruence. destruct (Hdp i ai Hi) as (_ & H2 & _).
    specialize (H2 j aj Hji Hj). specialize (IH aj Hj). lia.
Qed.

Lemma dp_done_linked A : dp_done A -> linked A.
Proof. intros H i x Hx. by destruct (H i x Hx) as (_ & _ & ?). Qed.

Lemma lookup_triple A B i x :
  map triple A = map triple B -> A !! i = Some x ->
  exists y, B !! i = Some y /\ triple y = triple x.
Proof.
  intros Heq Hx.
  assert (H : map triple B !! i = Some (triple x)).
  { rewrite <- Heq. by rewrite lookup_map, Hx. }
  rewrite lookup_map in H. destruct (B !! i) as [y|]; [|done].
  exists y. split; [done|]. simpl in H. congruence.
Qed.

Lemma chain_to_ext A B i s :
  map triple A = map triple B -> chain_to A i s -> chain_to B i s.
Proof.
  intros Heq. induction 1 as [i x Hx|j i aj ai s Hji Hj Hi _ IH].
  - destruct (lookup_triple A B i x Heq Hx) as (y & Hy & Ht).
    replace (Len x) with (Len y) by (unfold triple in Ht; congruence).
    by constructor.
  - destruct (lookup_triple A B i ai Heq Hi) as (bi & Hbi & Hti).
    destruct (lookup_triple A B j aj Heq Hj) as (bj & Hbj & Htj).
    replace (Len ai) with (Len bi) by (unfold triple in Hti; congruence).
    rewrite (penalty_triple aj bj ai bi) by done.
    by econstructor.
Qed.

Lemma chain_to_app A B i s : chain_to A i s -> chain_to (A ++ B) i s.
Proof.
  induction 1 as [i x Hx|j i aj ai s Hji Hj Hi _ IH].
  - constructor. by apply lookup_app_l_Some.
  - econstructor; [done| | |done]; by apply lookup_app_l_Some.
Qed.

(** A subsequence of the array, read as a chain, is a chain of the array. *)
Lemma sub_chain (d : list Match_t) :
  forall y A, sublist (rev (y :: d)) A ->
    exists i, A !! i = Some y /\ chain_to A i (chain_value y d).
Proof.
  induction d as [|z d IH]; intros y A Hsub.
  - simpl in Hsub. apply sublist_cons_l in Hsub as (k1 & k2 & -> & _).
    exists (length k1). split; [by apply list_lookup_middle|].
    constructor. by apply list_lookup_middle.
  - change (rev (y :: z :: d)) with (rev (z :: d) ++ [y]) in Hsub.
    apply sublist_app_l in Hsub as (k1 & k2 & -> & H1 & H2).
    destruct (IH z k1 H1) as (j & Hj & Hc).
    apply sublist_cons_l in H2 as (k3 & k4 & -> & _).
    exists (length k1 + length k3)%nat.
    assert (Hy : (k1 ++ k3 ++ y :: k4) !! (length k1 + length k3)%nat = Some y).
    { rewrite lookup_app_r by lia.
      replace (length k1 + length k3 - length k1)%nat with (length k3) by lia.
      by apply list_lookup_middle. }
    split; [done|]. simpl.
    apply (ct_link _ j _ z y); [|by apply lookup_app_l_Some|done|by apply chain_to_app].
    apply lookup_lt_Some in Hj. lia.
Qed.

Lemma best_loop_max (fuel : nat) :
  forall A best i xb,
    A !! best = Some xb ->
    (forall p x, (p < i)%nat -> A !! p = Some x -> Simple_Score x <= Simple_Score xb) ->
    (length A <= i + fuel)%nat ->
    exists xb', A !! best_loop fuel A best i = Some xb' /\
      forall p x, A !! p = Some x -> Simple_Score x <= Simple_Score xb'.
Proof.
  induction fuel as [|fuel IH]; intros A best i xb Hb Hmax Hlen; simpl.
  - exists xb. split; [done|]. intros p x Hp. apply (Hmax p); [|done].
    apply lookup_lt_Some in Hp. lia.
  - destruct (A !! i) as [ai|] eqn:Hi.
    + rewrite Hb. destruct (Z.gtb_spec (Simple_Score ai) (Simple_Score xb)) as [Hgt|Hle].
      * apply (IH A i (S i) ai); [done| |lia].
        intros p x Hp Hx. destruct (decide (p = i)) as [->|Hne]; [simplify_eq; lia|].
        assert (Hpi : (p < i)%nat) by lia.
        specialize (Hmax p x Hpi Hx). lia.
      * apply (IH A best (S i) xb); [done| |lia].
        intros p x Hp Hx. destruct (decide (p = i)) as [->|Hne]; [simplify_eq; lia|].
        apply (Hmax p); [lia|done].
    + exists xb. split; [done|]. intros p x Hp. apply (Hmax p); [|done].
      apply lookup_lt_Some in Hp. apply lookup_ge_None in Hi. lia.
Qed.

Lemma linked_mark A n ai :
  linked A -> A !! n = Some ai -> linked (<[n := set_Good true ai]> A).
Proof.
  intros Hl Hn i x Hx.
  assert (Hln : (n < length A)%nat) by by eapply lookup_lt_Some.
  assert (Hx0 : exists x0, A !! i = Some x0 /\ triple x = triple x0 /\
                  Simple_From x = Simple_From x0 /\
                  Simple_Score x = Simple_Score x0 /\
                  Simple_Adj x = Simple_Adj x0).
  { destruct (decide (i = n)) as [->|Hne].
    - rewrite list_lookup_insert_eq in Hx by done. simplify_eq. by exists ai.
    - rewrite list_lookup_insert_ne in Hx by done. by exists x. }
  destruct Hx0 as (x0 & Hi & Ht & HF & HS & HA).
  assert (HL : Len x = Len x0) by (unfold triple in Ht; congruence).
  destruct (Hl i x0 Hi) as [(H1 & H2 & H3)|(k & ak & H1 & H2 & H3 & H4 & H5)].
  - left. split_and!; congruence.
  - right. destruct (decide (k = n)) as [->|Hne].
    + exists n, (set_Good true ai). split_and!; try done; try congruence.
      * by apply list_lookup_insert_eq.
      * assert (ak = ai) as -> by congruence.
        rewrite HS, H4, HL. simpl.
        by rewrite (penalty_triple (set_Good true ai) ai x x0).
      * assert (ak = ai) as -> by congruence.
        rewrite HA, H5. by apply olap_triple.
    + exists k, ak. split_and!; try done; try congruence.
      * by rewrite list_lookup_insert_ne.
      * rewrite HS, H4, HL. by rewrite (penalty_triple ak ak x x0).
      * rewrite HA, H5. by apply olap_triple.
Qed.

Lemma explained_adj A j x : explained A j x -> 0 <= Simple_Adj x.
Proof.
  intros [(_ & _ & ->)|(k & ak & _ & _ & _ & _ & ->)]; [done|]. unfold olap. lia.
Qed.

Lemma filter_none {T} (f : T -> bool) (l : list T) :
  (forall x, x ∈ l -> f x = false) -> List.filter f l = [].
Proof.
  induction l as [|a l IH]; intros H; simpl; [done|].
  rewrite (H a) by apply list_elem_of_here.
  apply IH. intros x Hx. apply H. by apply list_elem_of_further.
Qed.

Lemma chain_value_head x x' c :
  triple x = triple x' -> chain_value x c = chain_value x' c.
Proof.
  intros Ht. destruct c as [|y c]; simpl.
  - unfold triple in Ht. congruence.
  - rewrite (penalty_triple y y x x') by done.
    unfold triple in Ht. congruence.
Qed.

(** The walk from index [i]: it writes at or below [i] only, the matches
    it marks are the chain of [Simple_From] links from [A[i]], whose value
    is [Simple_Score], and [total], [hi], [lo] are taken over them. *)
Lemma walk_members (fuel : nat) :
  forall A i total hi lo A' t' h' l',
    linked A ->
    (forall p y, Z.of_nat p <= i -> A !! p = Some y -> Good y = false) ->
    walk fuel A i total hi lo = Some (A', t', h', l') ->
    let k := Z.to_nat (i + 1) in
    let ms := List.filter Good (take k A') in
    drop k A' = drop k A /\
    t' = walk_total_of ms total /\ h' = walk_hi_of ms hi /\ l' = walk_lo_of ms lo /\
    (0 <= i -> exists ai c,
        A !! Z.to_nat i = Some ai /\ rev ms = set_Good true ai :: c /\
        chain_value ai c = Simple_Score ai).
Proof.
  induction fuel as [|fuel IH]; intros A i total hi lo A' t' h' l' Hl Hlow Hrun.
  - simpl in Hrun. destruct (Z.ltb_spec i 0) as [Hneg|Hpos]; [|done].
    simplify_eq. replace (Z.to_nat (i + 1)) with 0%nat by lia. simpl.
    split_and!; try done. lia.
  - cbn [walk] in Hrun. destruct (Z.ltb_spec i 0) as [Hneg|Hpos].
    { simplify_eq. replace (Z.to_nat (i + 1)) with 0%nat by lia. simpl.
      split_and!; try done. lia. }
    set (n := Z.to_nat i) in *.
    destruct (A !! n) as [ai|] eqn:Hi; [|done].
    assert (Hln : (n < length A)%nat) by by eapply lookup_lt_Some.
    replace (Z.to_nat (i + 1)) with (S n) by lia.
    set (ai' := set_Good true ai) in *.
    set (A1 := <[n := ai']> A) in *.
    set (j := Simple_From ai) in *.
    assert (Hj : j = -1 /\ Simple_Score ai = Len ai \/
                 exists kj aj, j = Z.of_nat kj /\ (kj < n)%nat /\ A !! kj = Some aj /\
                   Simple_Score ai = Simple_Score aj + Len ai - penalty aj ai).
    { destruct (Hl n ai Hi) as [(? & ? & _)|(k0 & ak & ? & ? & ? & ? & _)];
        [by left|right]. by exists k0, ak. }
    assert (Hjn : (Z.to_nat (j + 1) <= n)%nat)
      by (destruct Hj as [[-> _]|(kj & aj & -> & ? & _)]; lia).
    assert (Hlow1 : forall p y, Z.of_nat p <= j -> A1 !! p = Some y -> Good y = false).
    { intros p y Hp Hy. unfold A1 in Hy.
      rewrite list_lookup_insert_ne in Hy by lia. apply (Hlow p); [lia|done]. }
    destruct (IH A1 j _ _ _ A' t' h' l' (linked_mark A n ai Hl Hi) Hlow1 Hrun)
      as (Hdrop & Ht & Hh & Hlo & Hchain).
    set (kj := Z.to_nat (j + 1)) in *.
    set (ms1 := List.filter Good (take kj A')) in *.
    assert (Hdrop' : drop (S n) A' = drop (S n) A).
    { replace (S n) with (kj + (S n - kj))%nat by lia.
      rewrite <- !drop_drop, Hdrop. rewrite !drop_drop.
      unfold A1. apply drop_insert_lt. lia. }
    assert (Hn' : A' !! n = Some ai').
    { replace n with (kj + (n - kj))%nat by lia.
      rewrite <- lookup_drop, Hdrop, lookup_drop.
      replace (kj + (n - kj))%nat with n by lia.
      unfold A1. by apply list_lookup_insert_eq. }
    assert (Hms : List.filter Good (take (S n) A') = ms1 ++ [ai']).
    { rewrite (take_S_r A' n ai' Hn'), List.filter_app. simpl.
      f_equal. replace n with (kj + (n - kj))%nat at 1 by lia.
      rewrite <- take_take_drop, List.filter_app, Hdrop.
      rewrite (filter_none Good (take _ (drop kj A1))); [by rewrite app_nil_r|].
      intros x Hx. apply elem_of_take in Hx as (p & Hp & Hpn).
      rewrite lookup_drop in Hp. unfold A1 in Hp.
      rewrite list_lookup_insert_ne in Hp by lia.
      apply (Hlow (kj + p)%nat); [lia|done]. }
    cbv zeta. rewrite Hms. split; [done|].
    unfold walk_total_of, walk_hi_of, walk_lo_of in *. rewrite !foldr_snoc.
    split; [done|]. split.
    { rewrite Hh. f_equal. simpl.
      destruct (Z.gtb_spec (Start1 ai + Len ai) hi); lia. }
    split.
    { rewrite Hlo. f_equal. simpl.
      destruct (Z.ltb_spec (Start1 ai) lo); lia. }
    intros _. exists ai, (rev ms1). split; [done|]. split; [by rewrite rev_unit|].
    destruct Hj as [[Hj1 Hj2]|(kj0 & aj & Hj1 & Hj2 & Hj3 & Hj4)].
    + assert (Hnil : ms1 = []).
      { unfold ms1, kj. rewrite Hj1. by simpl. }
      rewrite Hnil. simpl. lia.
    + destruct Hchain as (aj1 & c & Hj5 & Hrev & Hval); [lia|].
      rewrite Hj1, Nat2Z.id in Hj5. unfold A1 in Hj5.
      rewrite list_lookup_insert_ne in Hj5 by lia.
      assert (aj1 = aj) as -> by congruence.
      rewrite Hrev. simpl. rewrite <- (chain_value_head aj (set_Good true aj) c) by done.
      rewrite Hval, Hj4. by rewrite (penalty_triple (set_Good true aj) aj ai ai).
Qed.

Lemma select_chain_members (A : list Match_t) :
  A <> [] -> Forall (fun m => Good m = false) A ->
  exists A1 total hi lo xb c,
    select_chain A = Some (A1, total, hi, lo) /\
    map triple A1 = map triple A /\
    rev (List.filter Good A1) = xb :: c /\
    (forall i s, chain_to A i s -> s <= chain_value xb c) /\
    total = walk_total_of (List.filter Good A1) 0 /\
    hi = walk_hi_of (List.filter Good A1) LONG_MIN /\
    lo = walk_lo_of (List.filter Good A1) LONG_MAX.
Proof.
  intros Hne HG.
  destruct (select_chain_total A Hne) as (A1 & t & h & l & Hsel & Htr & _).
  exists A1, t, h, l. unfold select_chain in Hsel.
  destruct (score_loop_scored A) as [Hb _].
  assert (Hdp : dp_done (score_loop (length A) A 0)).
  { apply score_loop_best; [|lia]. intros p x Hp. lia. }
  set (As := score_loop (length A) A 0) in *.
  assert (HlenS : length As = length A) by (symmetry; by eapply Forall2_length).
  assert (HtrS : map triple A = map triple As).
  { clear -Hb. induction Hb as [|x y ? ? [Hxy _]]; simpl; [done|]. by f_equal. }
  assert (HGS : forall p y, As !! p = Some y -> Good y = false).
  { intros p y Hy. destruct (Forall2_lookup_r _ _ _ _ _ Hb Hy) as (x & Hx & _ & HGx).
    rewrite HGx. rewrite Forall_forall in HG. apply HG.
    by eapply list_elem_of_lookup_2. }
  destruct (As !! 0%nat) as [a0|] eqn:H0;
    [|apply lookup_ge_None in H0; destruct A; [done|simpl in *; lia]].
  destruct (best_loop_max (length A - 1) As 0 1 a0 H0) as (xb & Hxb & Hmax).
  { intros p x Hp Hx. assert (p = 0%nat) as -> by lia. simplify_eq. lia. }
  { lia. }
  set (best := best_loop (length A - 1) As 0 1) in *.
  destruct (walk_members _ _ _ _ _ _ _ _ _ _ (dp_done_linked As Hdp)
              (fun p y _ Hy => HGS p y Hy) Hsel)
    as (Hdrop & Ht & Hh & Hl & Hchain).
  replace (Z.to_nat (Z.of_nat best + 1)) with (S best) in * by lia.
  assert (Hall : List.filter Good A1 = List.filter Good (take (S best) A1)).
  { rewrite <- (take_drop (S best) A1) at 1. rewrite List.filter_app, Hdrop.
    rewrite (filter_none Good (drop _ As)); [by rewrite app_nil_r|].
    intros x Hx. apply list_elem_of_lookup_1 in Hx as (p & Hp).
    rewrite lookup_drop in Hp. by eapply HGS. }
  rewrite Hall.
  destruct Hchain as (ab & c & Hab & Hrev & Hval); [lia|].
  rewrite Nat2Z.id in Hab. assert (ab = xb) as -> by congruence.
  exists (set_Good true xb), c. split_and!; try done.
  intros i s Hc.
  rewrite <- (chain_value_head xb (set_Good true xb) c) by done. rewrite Hval.
  apply (chain_to_ext A As) in Hc; [|done].
  assert (Hi : exists x, As !! i = Some x) by (inversion Hc; eauto).
  destruct Hi as (x & Hx).
  pose proof (dp_upper As i s Hdp Hc x Hx). specialize (Hmax i x Hx). lia.
Qed.

(** Property X14.
    In each round [Process_Cluster] selects a chain of largest value: the
    matches it marks, in array order, are a subsequence of the cluster, and no
    subsequence of the cluster read as a chain has a larger value (lengths
    minus the overlap and diagonal penalties of neighbours). *)
Theorem select_chain_optimal (A : list Match_t) :
  A <> [] -> Forall (fun m => Good m = false) A ->
  exists A1 total hi lo xb c,
    select_chain A = Some (A1, total, hi, lo) /\
    rev (List.filter Good A1) = xb :: c /\
    sublist (map triple (List.filter Good A1)) (map triple A) /\
    forall y d, sublist (rev (y :: d)) A -> chain_value y d <= chain_value xb c.
Proof.
  intros Hne HG.
  destruct (select_chain_members A Hne HG)
    as (A1 & t & h & l & xb & c & Hsel & Htr & Hrev & Hmax & _).
  exists A1, t, h, l, xb, c. split_and!; try done.
  - rewrite <- Htr. apply sublist_map_filter.
  - intros y d Hsub. destruct (sub_chain d y A Hsub) as (i & _ & Hc).
    by apply (Hmax i).
Qed.

(** Property X15.
    The score of the chain selected in a round: [total] is the sum of the
    lengths of the marked matches, [hi] the largest end and [lo] the
    smallest start on the reference axis, starting from [LONG_MIN] and
    [LONG_MAX]. *)
Theorem select_chain_score (A : list Match_t) :
  A <> [] -> Forall (fun m => Good m = false) A ->
  exists A1 total hi lo,
    select_chain A = Some (A1, total, hi, lo) /\
    let ms := List.filter Good A1 in
    ms <> [] /\
    total = foldr (fun m s => s + Len m) 0 ms /\
    hi = foldr (fun m h => Z.max (Start1 m + Len m) h) LONG_MIN ms /\
    lo = foldr (fun m l => Z.min (Start1 m) l) LONG_MAX ms.
Proof.
  intros Hne HG.
  destruct (select_chain_members A Hne HG)
    as (A1 & t & h & l & xb & c & Hsel & Htr & Hrev & _ & Ht & Hh & Hl).
  exists A1, t, h, l. split; [done|]. cbv zeta. split_and!; try done.
  intros Hnil. by rewrite Hnil in Hrev.
Qed.

Lemma select_chain_optimal_witness :
  exists A1 total hi lo xb c,
    select_chain [new_Match 0 0 10; new_Match 20 20 10] = Some (A1, total, hi, lo) /\
    rev (List.filter Good A1) = xb :: c /\
    sublist (map triple (List.filter Good A1))
            (map triple [new_Match 0 0 10; new_Match 20 20 10]) /\
    forall y d, sublist (rev (y :: d)) [new_Match 0 0 10; new_Match 20 20 10] ->
      chain_value y d <= chain_value xb c.
Proof.
  apply (select_chain_optimal [new_Match 0 0 10; new_Match 20 20 10]).
  - discriminate.
  - constructor; [reflexivity|]. constructor; [reflexivity|]. constructor.
Defined.

Lemma select_chain_score_witness :
  exists A1 total hi lo,
    select_chain [new_Match 0 0 10; new_Match 20 20 10] = Some (A1, total, hi, lo) /\
    let ms := List.filter Good A1 in
    ms <> [] /\
    total = foldr (fun m s => s + Len m) 0 ms /\
    hi = foldr (fun m h => Z.max (Start1 m + Len m) h) LONG_MIN ms /\
    lo = foldr (fun m l => Z.min (Start1 m) l) LONG_MAX ms.
Proof.
  apply (select_chain_score [new_Match 0 0 10; new_Match 20 20 10]).
  - discriminate.
  - constructor; [reflexivity|]. constructor; [reflexivity|]. constructor.
Defined.

(** ** The lines of the output *)

Lemma labels_from_hash n : labels_from "#" n = replicate n "#"%string.
Proof. by destruct n. Qed.

Lemma labels_from_more label n m :
  labels_from label (S n) ++ replicate m "#"%string = labels_from label (S n + m).
Proof. simpl. by rewrite replicate_add. Qed.

Lemma labels_cons r out :
  labels (r :: out)
  = match label_of r with Some l => l :: labels out | None => labels out end.
Proof. done. Qed.

Lemma labels_app out out' : labels (out ++ out') = labels out ++ labels out'.
Proof. apply omap_app. Qed.

Lemma print_loop_labels (fuel : nat) :
  forall A i prev, labels (print_loop fuel A i prev) = [].
Proof.
  induction fuel as [|fuel IH]; intros A i prev; simpl; [done|].
  destruct (A !! i) as [ai|]; [|done].
  destruct (Good ai); [|apply IH].
  rewrite labels_cons, IH. unfold print_match. by destruct (prev =? -1).
Qed.

Lemma cluster_loop_labels cfg (fuel : nat) :
  forall A label print_ct ct out,
    cluster_loop fuel cfg A label print_ct = Some (ct, out) ->
    print_ct <= ct /\ labels out = labels_from label (Z.to_nat (ct - print_ct)).
Proof.
  induction fuel as [|fuel IH]; intros A label print_ct ct out Hrun; [done|].
  cbn [cluster_loop] in Hrun.
  destruct (select_chain A) as [[[[A1 t] h] l]|]; [|done].
  destruct (chain_score cfg t h l >=? Min_Output_Score cfg);
    destruct (0 <? length _)%nat.
  - destruct (cluster_loop fuel cfg _ "#" (print_ct + 1)) as [[ct' out']|] eqn:Hrec;
      [|done]. simplify_eq. destruct (IH _ _ _ _ _ Hrec) as (H1 & H2).
    split; [lia|]. rewrite labels_app, labels_cons. cbn [label_of].
    rewrite print_loop_labels, H2, labels_from_hash. simpl.
    replace (Z.to_nat (ct - print_ct)) with (S (Z.to_nat (ct - (print_ct + 1)))) by lia.
    done.
  - simplify_eq. split; [lia|]. rewrite labels_cons. cbn [label_of].
    rewrite print_loop_labels.
    by replace (Z.to_nat (print_ct + 1 - print_ct)) with 1%nat by lia.
  - destruct (cluster_loop fuel cfg _ label print_ct) as [[ct' out']|] eqn:Hrec;
      [|done]. simplify_eq. by apply (IH _ _ _ _ _ Hrec).
  - simplify_eq. split; [lia|]. by rewrite Z.sub_diag.
Qed.

(** Property X16.
    [Process_Cluster] returns the number of chains it printed: as many as
    there are label lines in its output, the first with the label it was
    given and the others with ["#"]. *)
Theorem Process_Cluster_count cfg (A : list Match_t) (label : string) :
  A <> [] ->
  exists ct out,
    Process_Cluster cfg A label = Some (ct, out) /\
    0 <= ct /\ Z.of_nat (length (labels out)) = ct /\
    labels out = labels_from label (Z.to_nat ct).
Proof.
  intros Hne.
  destruct (cluster_loop_total cfg (length A) A label 0 Hne (Nat.le_refl _))
    as (ct & out & Hrun).
  exists ct, out. split; [done|].
  destruct (cluster_loop_labels cfg _ _ _ _ _ _ Hrun) as (Hct & Hl).
  rewrite Z.sub_0_r in Hl. split; [done|]. split; [|done].
  rewrite Hl. destruct (Z.to_nat ct) as [|n] eqn:E; simpl; [lia|].
  rewrite length_replicate. lia.
Qed.

Lemma Process_Cluster_count_witness :
  exists ct out,
    Process_Cluster (mkConfig 5 1000 10 DEFAULT_SEPARATION_FACTOR false)
      [new_Match 0 0 10; new_Match 100 50 300] "L" = Some (ct, out) /\
    0 <= ct /\ Z.of_nat (length (labels out)) = ct /\
    labels out = labels_from "L" (Z.to_nat ct).
Proof.
  apply (Process_Cluster_count (mkConfig 5 1000 10 DEFAULT_SEPARATION_FACTOR false)
           [new_Match 0 0 10; new_Match 100 50 300] "L").
  discriminate.
Defined.

Lemma clusters_loop_labels cfg (fuel : nat) :
  forall A i label print_ct ct out,
    0 <= print_ct -> (0 < print_ct -> label = "#"%string) ->
    clusters_loop fuel cfg A i label print_ct = Some (ct, out) ->
    print_ct <= ct /\ labels out = labels_from label (Z.to_nat (ct - print_ct)).
Proof.
  induction fuel as [|fuel IH]; intros A i label print_ct ct out H0 Hlab Hrun.
  - simpl in Hrun. destruct (A !! i); [done|]. simplify_eq.
    split; [lia|]. by rewrite Z.sub_diag.
  - cbn [clusters_loop] in Hrun. destruct (A !! i) as [ai|] eqn:Hi.
    2:{ simplify_eq. split; [lia|]. by rewrite Z.sub_diag. }
    set (slice := take _ (drop i A)) in *.
    destruct (Process_Cluster cfg slice label) as [[ct1 out1]|] eqn:Hpc; [|done].
    destruct (clusters_loop fuel cfg A _ _ _) as [[ct2 out2]|] eqn:Hrec; [|done].
    simplify_eq. unfold Process_Cluster in Hpc.
    destruct (cluster_loop_labels cfg _ _ _ _ _ _ Hpc) as (Hc1 & Hl1).
    rewrite Z.sub_0_r in Hl1.
    apply IH in Hrec as (Hc2 & Hl2); [|lia|].
    2:{ intros Hpos. destruct (Z.gtb_spec (print_ct + ct1) 0); [done|lia]. }
    split; [lia|]. rewrite labels_app, Hl1, Hl2.
    destruct (Z.to_nat ct1) as [|n1] eqn:E1.
    + assert (ct1 = 0) as -> by lia. rewrite Z.add_0_r. simpl.
      destruct (Z.gtb_spec print_ct 0) as [Hpos|_]; [|done].
      by rewrite Hlab by lia.
    + destruct (Z.gtb_spec (print_ct + ct1) 0) as [_|?]; [|lia].
      rewrite labels_from_hash, labels_from_more. f_equal. lia.
Qed.

(** Property X17.
    The header of a query is printed once, as the first label line; every
    other label line is ["#"]. *)
Theorem Process_Matches_labels cfg (A : list Match_t) (label : string) :
  exists out n,
    Process_Matches cfg A label = Some out /\
    labels out = label :: replicate n "#"%string.
Proof.
  unfold Process_Matches. destruct A as [|a A].
  { by exists [Label_line label], 0%nat. }
  cbn [length Nat.eqb].
  destruct (Query_Clusters_total cfg (a :: A)) as (A4 & ->); [done|].
  destruct (clusters_loop_spec cfg (length A4) A4 0 label 0)
    as (ct & out & Hrun & Hct & Hzero & _); [lia|lia|].
  rewrite Hrun.
  destruct (clusters_loop_labels cfg _ _ _ _ _ _ _ (Z.le_refl 0)
              ltac:(intros; lia) Hrun) as (_ & Hl).
  rewrite Z.sub_0_r in Hl.
  destruct (Z.eqb_spec ct 0) as [->|Hne].
  - exists (out ++ [Label_line label]), 0%nat. split; [done|].
    rewrite Hzero by done. done.
  - exists out, (Z.to_nat ct - 1)%nat. split; [done|]. rewrite Hl.
    destruct (Z.to_nat ct) as [|n] eqn:E; [lia|]. simpl. f_equal. f_equal. lia.
Qed.

(** *** Chains are printed whole *)

Lemma chains_only_app out out' :
  chains_only out -> chains_only out' -> chains_only (out ++ out').
Proof.
  induction 1 as [|l s1 s2 len nexts rest Hn _ IH]; intros H'; [done|].
  simpl. rewrite <- app_assoc. constructor; [done|by apply IH].
Qed.

Lemma print_loop_nexts (fuel : nat) :
  forall A i prev, prev <> -1 -> Forall is_next (print_loop fuel A i prev).
Proof.
  induction fuel as [|fuel IH]; intros A i prev Hprev; simpl; [done|].
  destruct (A !! i) as [ai|]; [|done].
  destruct (Good ai); [|by apply IH].
  constructor; [|apply IH; lia].
  unfold print_match. by destruct (Z.eqb_spec prev (-1)).
Qed.

Lemma print_loop_first (fuel : nat) :
  forall A i,
    (exists p x, (i <= p < i + fuel)%nat /\ A !! p = Some x /\ Good x = true) ->
    exists s1 s2 len nexts,
      print_loop fuel A i (-1) = First_line s1 s2 len :: nexts /\
      Forall is_next nexts.
Proof.
  induction fuel as [|fuel IH]; intros A i (p & x & Hp & Hx & HG); [lia|].
  simpl. destruct (A !! i) as [ai|] eqn:Hi.
  - destruct (Good ai) eqn:HGi.
    + eexists _, _, _, _. split; [done|]. apply print_loop_nexts. lia.
    + apply IH. exists p, x. split; [|done].
      destruct (decide (p = i)) as [->|?]; [congruence|lia].
  - apply lookup_ge_None in Hi. apply lookup_lt_Some in Hx. lia.
Qed.

Lemma filter_short_exists {T} (f : T -> bool) (l : list T) :
  (length (List.filter f l) < length l)%nat ->
  exists p x, l !! p = Some x /\ f x = false.
Proof.
  induction l as [|a l IH]; simpl; [lia|].
  destruct (f a) eqn:Ha; simpl; intros Hlen.
  - destruct IH as (p & x & Hp & Hx); [lia|]. by exists (S p), x.
  - by exists 0%nat, a.
Qed.

Lemma select_chain_marks (A A1 : list Match_t) t h l :
  select_chain A = Some (A1, t, h, l) ->
  exists p x, (p < length A1)%nat /\ A1 !! p = Some x /\ Good x = true.
Proof.
  intros Hsel. destruct A as [|a A]; [done|].
  destruct (select_chain_total (a :: A)) as (A1' & t' & h' & l' & Hsel' & Htr & Hlt);
    [done|].
  rewrite Hsel in Hsel'. simplify_eq.
  assert (Hlen : length A1' = length (a :: A)).
  { rewrite <- (length_map triple A1'), Htr. by rewrite length_map. }
  rewrite pack_filter, <- Hlen in Hlt.
  destruct (filter_short_exists _ _ Hlt) as (p & x & Hp & Hx).
  exists p, x. split_and!; [by eapply lookup_lt_Some|done|].
  by apply negb_false_iff.
Qed.

Lemma cluster_loop_blocks cfg (fuel : nat) :
  forall A label print_ct ct out,
    cluster_loop fuel cfg A label print_ct = Some (ct, out) -> chains_only out.
Proof.
  induction fuel as [|fuel IH]; intros A label print_ct ct out Hrun; [done|].
  cbn [cluster_loop] in Hrun.
  destruct (select_chain A) as [[[[A1 t] h] l]|] eqn:Hsel; [|done].
  assert (Hprint : exists s1 s2 len nexts,
             print_loop (length A1) A1 0 (-1) = First_line s1 s2 len :: nexts /\
             Forall is_next nexts).
  { apply print_loop_first.
    destruct (select_chain_marks _ _ _ _ _ Hsel) as (p & x & Hp & Hx & HG).
    exists p, x. split; [lia|done]. }
  destruct Hprint as (s1 & s2 & len & nexts & Hpr & Hn).
  destruct (chain_score cfg t h l >=? Min_Output_Score cfg);
    destruct (0 <? length _)%nat.
  - destruct (cluster_loop fuel cfg _ "#" (print_ct + 1)) as [[ct' out']|] eqn:Hrec;
      [|done]. simplify_eq. rewrite Hpr. simpl.
    constructor; [done|]. by eapply IH.
  - simplify_eq. rewrite Hpr. rewrite <- (app_nil_r nexts). by repeat constructor.
  - destruct (cluster_loop fuel cfg _ label print_ct) as [[ct' out']|] eqn:Hrec;
      [|done]. simplify_eq. by eapply IH.
  - simplify_eq. constructor.
Qed.

Lemma clusters_loop_blocks cfg (fuel : nat) :
  forall A i label print_ct ct out,
    clusters_loop fuel cfg A i label print_ct = Some (ct, out) -> chains_only out.
Proof.
  induction fuel as [|fuel IH]; intros A i label print_ct ct out Hrun.
  - simpl in Hrun. destruct (A !! i); [done|]. simplify_eq. constructor.
  - cbn [clusters_loop] in Hrun. destruct (A !! i) as [ai|] eqn:Hi.
    2:{ simplify_eq. constructor. }
    set (slice := take _ (drop i A)) in *.
    destruct (Process_Cluster cfg slice label) as [[ct1 out1]|] eqn:Hpc; [|done].
    destruct (clusters_loop fuel cfg A _ _ _) as [[ct2 out2]|] eqn:Hrec; [|done].
    simplify_eq. apply chains_only_app; [|by eapply IH].
    unfold Process_Cluster in Hpc. by eapply cluster_loop_blocks.
Qed.

(** Property X18.
    The output of a query is the label line alone, or a sequence of whole
    chains: each label line is followed by the first record of a chain, and
    only further records of that chain come before the next label line. *)
Theorem Process_Matches_blocks cfg (A : list Match_t) (label : string) :
  exists out,
    Process_Matches cfg A label = Some out /\
    (out = [Label_line label] \/ (out <> [] /\ chains_only out)).
Proof.
  unfold Process_Matches. destruct A as [|a A].
  { exists [Label_line label]. by split; [|left]. }
  cbn [length Nat.eqb].
  destruct (Query_Clusters_total cfg (a :: A)) as (A4 & ->); [done|].
  destruct (clusters_loop_spec cfg (length A4) A4 0 label 0)
    as (ct & out & Hrun & Hct & Hzero & Hpos); [lia|lia|].
  rewrite Hrun. eexists. split; [done|].
  destruct (Z.eqb_spec ct 0) as [->|Hne].
  - left. by rewrite Hzero.
  - right. destruct Hpos as (rest & ->); [done|lia|]. split; [done|].
    by eapply clusters_loop_blocks.
Qed.

(** *** The adjustment and gap columns *)

Lemma columns_ok_app last out out' :
  columns_ok last out -> starts_with_label out' -> columns_ok None out' ->
  columns_ok last (out ++ out').
Proof.
  intros H Hl H'. induction H; simpl; try (constructor; auto; fail).
  destruct out' as [|[l| |] rest]; try done; [constructor|].
  inversion H'; subst. by constructor.
Qed.

Lemma columns_ok_columns last out :
  columns_ok last out ->
  forall k r1 r2, out !! k = Some r1 -> out !! S k = Some r2 -> columns r1 r2.
Proof.
  induction 1 as [last|last l rest H IH|s1 s2 len rest H IH
                  |e1 e2 s1 s2 len adj g1 g2 rest Ha Hg1 Hg2 H IH];
    intros k r1 r2 H1 H2; [done| | |].
  - destruct k as [|k]; [|by eapply IH]. simpl in *. simplify_eq.
    inversion H; subst; simpl in *; by simplify_eq.
  - destruct k as [|k]; [|by eapply IH]. simpl in *. simplify_eq.
    inversion H; subst; simpl in *; by simplify_eq.
  - destruct k as [|k]; [|by eapply IH]. simpl in *. simplify_eq.
    inversion H; subst; simpl in *; by simplify_eq.
Qed.

Lemma print_loop_columns A :
  (forall p x, A !! p = Some x -> 0 <= Simple_Adj x) ->
  forall fuel i prev,
    (prev = -1 \/ exists n ap, prev = Z.of_nat n /\ A !! n = Some ap) ->
    columns_ok (prev_end A prev) (print_loop fuel A i prev).
Proof.
  intros Hadj. induction fuel as [|fuel IH]; intros i prev Hprev; simpl.
  - constructor.
  - destruct (A !! i) as [ai|] eqn:Hi; [|constructor].
    destruct (Good ai) eqn:HG; [|by apply IH].
    assert (Hnext : Z.of_nat i = -1 \/
                    exists n ap, Z.of_nat i = Z.of_nat n /\ A !! n = Some ap)
      by (right; by exists i, ai).
    specialize (IH (S i) (Z.of_nat i) Hnext).
    assert (Hend : prev_end A (Z.of_nat i)
                   = Some (Start1 ai + Len ai, Start2 ai + Len ai)).
    { unfold prev_end. destruct (Z.eqb_spec (Z.of_nat i) (-1)); [lia|].
      by rewrite Nat2Z.id, Hi. }
    rewrite Hend in IH.
    destruct Hprev as [->|(n & ap & -> & Hap)].
    + unfold print_match, prev_end. simpl. by constructor.
    + unfold print_match, prev_end.
      destruct (Z.eqb_spec (Z.of_nat n) (-1)); [lia|].
      rewrite Nat2Z.id, Hap. simpl.
      pose proof (Hadj i ai Hi) as Hpos.
      constructor; [|lia|lia|].
      * destruct (Z.eqb_spec (Simple_Adj ai) 0); [done|lia].
      * replace (Start1 ai + Simple_Adj ai + (Len ai - Simple_Adj ai))
          with (Start1 ai + Len ai) by lia.
        replace (Start2 ai + Simple_Adj ai + (Len ai - Simple_Adj ai))
          with (Start2 ai + Len ai) by lia.
        done.
Qed.

Lemma select_chain_adj (A A1 : list Match_t) t h l :
  select_chain A = Some (A1, t, h, l) ->
  forall p x, A1 !! p = Some x -> 0 <= Simple_Adj x.
Proof.
  intros Hsel p x Hx. destruct A as [|a A]; [done|].
  unfold select_chain in Hsel.
  destruct (score_loop_scored (a :: A)) as [Hb Hs].
  assert (Hdp : dp_done (score_loop (length (a :: A)) (a :: A) 0)).
  { apply score_loop_best; [|lia]. intros q y Hq. lia. }
  set (As := score_loop (length (a :: A)) (a :: A) 0) in *.
  assert (HlenS : length As = length (a :: A)) by (symmetry; by eapply Forall2_length).
  pose proof (best_loop_lt (length (a :: A) - 1) As 0 1) as Hbest.
  set (best := best_loop (length (a :: A) - 1) As 0 1) in *.
  destruct (walk_total (length (a :: A)) As (Z.of_nat best) 0 LONG_MIN LONG_MAX)
    as (A1' & t' & h' & l' & Hrun & Hm & _); [done|simpl in *; lia|simpl in *; lia|].
  rewrite Hsel in Hrun. simplify_eq.
  destruct (Forall2_lookup_r _ _ _ _ _ Hm Hx) as (x0 & Hx0 & Hmark).
  destruct (Hdp p x0 Hx0) as (_ & _ & Hex).
  apply explained_adj in Hex. by destruct Hmark as [->| ->].
Qed.

Lemma cluster_loop_columns cfg (fuel : nat) :
  forall A label print_ct ct out,
    cluster_loop fuel cfg A label print_ct = Some (ct, out) ->
    starts_with_label out /\ columns_ok None out.
Proof.
  induction fuel as [|fuel IH]; intros A label print_ct ct out Hrun; [done|].
  cbn [cluster_loop] in Hrun.
  destruct (select_chain A) as [[[[A1 t] h] l]|] eqn:Hsel; [|done].
  assert (Hprint : columns_ok None (print_loop (length A1) A1 0 (-1))).
  { apply (print_loop_columns A1 (select_chain_adj _ _ _ _ _ Hsel) (length A1) 0%nat (-1)).
    by left. }
  destruct (chain_score cfg t h l >=? Min_Output_Score cfg);
    destruct (0 <? length _)%nat.
  - destruct (cluster_loop fuel cfg _ "#" (print_ct + 1)) as [[ct' out']|] eqn:Hrec;
      [|done]. simplify_eq. destruct (IH _ _ _ _ _ Hrec) as [Hl' Hw'].
    split; [done|]. simpl. constructor. by apply columns_ok_app.
  - simplify_eq. split; [done|]. by constructor.
  - destruct (cluster_loop fuel cfg _ label print_ct) as [[ct' out']|] eqn:Hrec;
      [|done]. simplify_eq. by destruct (IH _ _ _ _ _ Hrec).
  - simplify_eq. split; [done|constructor].
Qed.

Lemma clusters_loop_columns cfg (fuel : nat) :
  forall A i label print_ct ct out,
    clusters_loop fuel cfg A i label print_ct = Some (ct, out) ->
    starts_with_label out /\ columns_ok None out.
Proof.
  induction fuel as [|fuel IH]; intros A i label print_ct ct out Hrun.
  - simpl in Hrun. destruct (A !! i); [done|]. simplify_eq. split; [done|constructor].
  - cbn [clusters_loop] in Hrun. destruct (A !! i) as [ai|] eqn:Hi.
    2:{ simplify_eq. split; [done|constructor]. }
    set (slice := take _ (drop i A)) in *.
    destruct (Process_Cluster cfg slice label) as [[ct1 out1]|] eqn:Hpc; [|done].
    destruct (clusters_loop fuel cfg A _ _ _) as [[ct2 out2]|] eqn:Hrec; [|done].
    simplify_eq. unfold Process_Cluster in Hpc.
    destruct (cluster_loop_columns cfg _ _ _ _ _ _ Hpc) as [Hl1 Hw1].
    destruct (IH _ _ _ _ _ _ Hrec) as [Hl2 Hw2].
    split; [|by apply columns_ok_app].
    destruct out1 as [|[]]; try done.
Qed.

(** Property X19.
    In every later record of a chain the adjustment column is [none] or a
    negative number, and the two gap columns are the distances from the end
    of the record printed just before it to its own adjusted start, on the
    reference and on the query axis. *)
Theorem Process_Matches_columns cfg (A : list Match_t) (label : string) :
  exists out,
    Process_Matches cfg A label = Some out /\
    forall k r1 r2, out !! k = Some r1 -> out !! S k = Some r2 -> columns r1 r2.
Proof.
  unfold Process_Matches. destruct A as [|a A].
  { exists [Label_line label]. split; [done|].
    apply (columns_ok_columns None). repeat constructor. }
  cbn [length Nat.eqb].
  destruct (Query_Clusters_total cfg (a :: A)) as (A4 & ->); [done|].
  destruct (clusters_loop_spec cfg (length A4) A4 0 label 0)
    as (ct & out & Hrun & _); [lia|lia|].
  rewrite Hrun. eexists. split; [done|].
  apply (columns_ok_columns None).
  destruct (clusters_loop_columns cfg _ _ _ _ _ _ _ Hrun) as [Hl Hw].
  destruct (ct =? 0); [|done].
  apply columns_ok_app; [done|done|repeat constructor].
Qed.

(** *** Every record is a surviving match, printed once *)

Lemma sublist_concat_map {T U} (f : T -> list U) (l1 l2 : list T) :
  sublist l1 l2 -> sublist (concat (map f l1)) (concat (map f l2)).
Proof.
  induction 1 as [|x l1 l2 _ IH|x l1 l2 _ IH]; simpl; [constructor| |].
  - by apply sublist_app.
  - by apply sublist_inserts_l.
Qed.

Lemma clusters_loop_sources cfg (fuel : nat) :
  forall A i label print_ct ct out,
    clusters_loop fuel cfg A i label print_ct = Some (ct, out) ->
    omap source_of out ⊆+ map triple (drop i A).
Proof.
  induction fuel as [|fuel IH]; intros A i label print_ct ct out Hrun.
  - simpl in Hrun. destruct (A !! i); [done|]. simplify_eq. apply submseteq_nil_l.
  - cbn [clusters_loop] in Hrun. destruct (A !! i) as [ai|] eqn:Hi.
    2:{ simplify_eq. apply submseteq_nil_l. }
    set (j := run_end (length A - S i) A (cluster_id ai) (S i)) in *.
    set (slice := take (j - i) (drop i A)) in *.
    destruct (Process_Cluster cfg slice label) as [[ct1 out1]|] eqn:Hpc; [|done].
    destruct (clusters_loop fuel cfg A _ _ _) as [[ct2 out2]|] eqn:Hrec; [|done].
    simplify_eq.
    assert (Hslice : slice <> []).
    { intros Heq. unfold Process_Cluster in Hpc. by rewrite Heq in Hpc. }
    destruct (cluster_loop_accounts cfg (length slice) slice label 0 Hslice)
      as (ct' & out' & chains & H1 & _ & Hperm & Hsrc & _); [lia|].
    unfold Process_Cluster in Hpc. rewrite Hpc in H1. simplify_eq.
    rewrite omap_app, <- (take_drop (j - i) (drop i A)), map_app.
    apply submseteq_app.
    + rewrite Hsrc. fold slice. rewrite <- Hperm.
      apply sublist_submseteq, sublist_concat_map, filter_sublist.
    + rewrite drop_drop. by eapply IH.
Qed.

(** Property X20.
    Every record [Process_Matches] prints is, with its adjustment undone,
    a match that survived the filter, and no surviving match is printed
    twice: the records are a sub-multiset of the filtered matches. *)
Theorem Process_Matches_sources cfg (A : list Match_t) (label : string) :
  exists F out,
    Filter_Matches (qsort By_Start2 A) = Some F /\
    Process_Matches cfg A label = Some out /\
    omap source_of out ⊆+ map triple F.
Proof.
  unfold Process_Matches. destruct A as [|a A].
  { exists [], [Label_line label]. by split_and!. }
  cbn [length Nat.eqb]. unfold Query_Clusters.
  assert (Hpos : (1 <= length (a :: A))%nat) by (simpl; lia).
  destruct (reset_spec (length (a :: A)) Hpos) as (uf0 & -> & Hwf0 & _).
  destruct (Filter_Matches_sorted (qsort By_Start2 (a :: A)) (qsort_sorted (a :: A)))
    as (F & HF & _ & Hlen & _). rewrite qsort_length in Hlen.
  rewrite HF.
  destruct (Build_Clusters_safe (length (a :: A)) cfg F uf0 Hlen Hwf0)
    as (F' & uf' & -> & HF').
  set (A4 := qsort By_Cluster F').
  destruct (clusters_loop_spec cfg (length A4) A4 0 label 0)
    as (ct & out & Hrun & _); [lia|lia|].
  rewrite Hrun. exists F. eexists. split; [done|]. split; [done|].
  assert (Hsub : omap source_of out ⊆+ map triple F).
  { pose proof (clusters_loop_sources cfg _ _ _ _ _ _ _ Hrun) as H.
    rewrite drop_0 in H.
    assert (Htr : map triple F' = map triple F).
    { clear -HF'. induction HF' as [|x y ? ? [c ->]]; simpl; [done|]. by f_equal. }
    rewrite <- Htr. etrans; [exact H|].
    apply Permutation_submseteq, Permutation_map, qsort_perm. }
  destruct (ct =? 0); [|done].
  rewrite omap_app. simpl. by rewrite app_nil_r.
Qed.

(** ** The loop over the clusters *)

Lemma By_Cluster_flip x y : By_Cluster y x = - By_Cluster x y.
Proof.
  unfold By_Cluster.
  repeat match goal with
  | |- context [?a <? ?b] => destruct (Z.ltb_spec a b)
  | |- context [?a >? ?b] => rewrite (Z.gtb_ltb a b)
  end; lia.
Qed.

Lemma By_Cluster_trans x y z :
  By_Cluster x y <= 0 -> By_Cluster y z <= 0 -> By_Cluster x z <= 0.
Proof.
  unfold By_Cluster. intros H1 H2.
  repeat match goal with
  | |- context [?a <? ?b] => destruct (Z.ltb_spec a b)
  | |- context [?a >? ?b] => rewrite (Z.gtb_ltb a b)
  | H : context [?a <? ?b] |- _ => destruct (Z.ltb_spec a b)
  | H : context [?a >? ?b] |- _ => rewrite (Z.gtb_ltb a b) in H
  end; lia.
Qed.

Lemma By_Cluster_le x y :
  By_Cluster x y <= 0 ->
  cluster_id x <= cluster_id y /\
  (cluster_id x = cluster_id y -> Start2 x <= Start2 y).
Proof.
  unfold By_Cluster. intros H.
  repeat match goal with
  | H : context [?a <? ?b] |- _ => destruct (Z.ltb_spec a b)
  | H : context [?a >? ?b] |- _ => rewrite (Z.gtb_ltb a b) in H
  end; lia.
Qed.

Lemma qsort_insert_cluster_sorted x l :
  cluster_sorted l -> cluster_sorted (qsort_insert By_Cluster x l).
Proof.
  unfold cluster_sorted. induction l as [|y l IH]; intros Hs; simpl.
  - apply ordpairs_cons. split; [constructor|apply ordpairs_nil].
  - apply ordpairs_cons in Hs as [Hy Hl].
    destruct (Z.leb_spec (By_Cluster x y) 0) as [Hle|Hgt].
    + apply ordpairs_cons. split; [|by apply ordpairs_cons].
      constructor; [lia|]. eapply Forall_impl; [exact Hy|].
      intros z Hz. simpl in Hz. apply (By_Cluster_trans x y z); [lia|exact Hz].
    + apply ordpairs_cons. split; [|by apply IH].
      assert (Hyx : By_Cluster y x <= 0) by (rewrite By_Cluster_flip; lia).
      eapply Permutation_Forall; [symmetry; apply qsort_insert_perm|].
      by constructor.
Qed.

Lemma qsort_cluster_sorted l : cluster_sorted (qsort By_Cluster l).
Proof.
  unfold qsort. induction l as [|x l IH]; simpl; [apply ordpairs_nil|].
  by apply qsort_insert_cluster_sorted.
Qed.

Lemma run_end_spec (fuel : nat) :
  forall A ci j,
    (j <= length A)%nat ->
    let e := run_end fuel A ci j in
    (j <= e <= length A)%nat /\
    (forall p x, (j <= p < e)%nat -> A !! p = Some x -> cluster_id x = ci) /\
    ((length A <= j + fuel)%nat ->
     forall x, A !! e = Some x -> cluster_id x <> ci).
Proof.
  induction fuel as [|fuel IH]; intros A ci j Hj; simpl.
  - split; [lia|]. split; [intros; lia|]. intros Hlen x Hx.
    apply lookup_lt_Some in Hx. lia.
  - destruct (A !! j) as [aj|] eqn:Haj.
    + destruct (Z.eqb_spec ci (cluster_id aj)) as [->|Hne].
      * assert (Hj' : (S j <= length A)%nat) by (apply lookup_lt_Some in Haj; lia).
        destruct (IH A (cluster_id aj) (S j) Hj') as (H1 & H2 & H3).
        split; [lia|]. split.
        -- intros p x Hp Hx. destruct (decide (p = j)) as [->|?]; [congruence|].
           apply (H2 p); [lia|done].
        -- intros Hlen. apply H3. lia.
      * split; [lia|]. split; [intros; lia|]. intros _ x Hx. congruence.
    + split; [lia|]. split; [intros; lia|]. intros _ x Hx. congruence.
Qed.

Lemma elem_of_slice (A : list Match_t) (i n : nat) x :
  x ∈ take n (drop i A) <-> exists p, (i <= p < i + n)%nat /\ A !! p = Some x.
Proof.
  rewrite elem_of_take. split.
  - intros (q & Hq & Hlt). rewrite lookup_drop in Hq. exists (i + q)%nat.
    split; [lia|done].
  - intros (p & Hp & Hx). exists (p - i)%nat. rewrite lookup_drop.
    replace (i + (p - i))%nat with p by lia. split; [done|lia].
Qed.

Lemma cluster_runs_spec (fuel : nat) :
  forall A i,
    cluster_sorted A -> (length A <= i + fuel)%nat ->
    let runs := cluster_runs fuel A i in
    concat runs = drop i A /\
    Forall one_cluster runs /\
    ordpairs (fun r1 r2 => forall x y, x ∈ r1 -> y ∈ r2 ->
                cluster_id x < cluster_id y) runs /\
    (forall r y, r ∈ runs -> y ∈ r -> exists q, (i <= q)%nat /\ A !! q = Some y).
Proof.
  induction fuel as [|fuel IH]; intros A i Hs Hlen.
  - simpl. rewrite (proj2 (lookup_ge_None A i)) by lia.
    rewrite drop_ge by lia. split_and!; [done|constructor|apply ordpairs_nil|].
    intros r y Hr. by apply elem_of_nil in Hr.
  - cbn [cluster_runs]. destruct (A !! i) as [ai|] eqn:Hi.
    2:{ apply lookup_ge_None in Hi. rewrite drop_ge by lia.
        split_and!; [done|constructor|apply ordpairs_nil|].
        intros r y Hr. by apply elem_of_nil in Hr. }
    assert (Hli : (i < length A)%nat) by by eapply lookup_lt_Some.
    destruct (run_end_spec (length A - S i) A (cluster_id ai) (S i))
      as (He & Hrun & Hstop); [lia|].
    set (e := run_end (length A - S i) A (cluster_id ai) (S i)) in *.
    destruct (IH A (i + (e - i))%nat Hs) as (Hcat & Hall & Hord & Hin); [lia|].
    replace (i + (e - i))%nat with e in * by lia.
    set (rest := cluster_runs fuel A e) in *.
    assert (Hids : forall p x, (i <= p < e)%nat -> A !! p = Some x ->
                     cluster_id x = cluster_id ai).
    { intros p x Hp Hx. destruct (decide (p = i)) as [->|?]; [congruence|].
      apply (Hrun p); [lia|done]. }
    assert (Hlater : forall q y, (e <= q)%nat -> A !! q = Some y ->
                       cluster_id ai < cluster_id y).
    { intros q y Hq Hy.
      assert (Hle : (e < length A)%nat) by (apply lookup_lt_Some in Hy; lia).
      apply lookup_lt_is_Some_2 in Hle as [ae Hae].
      assert (cluster_id ae <> cluster_id ai) by (apply Hstop; [lia|done]).
      assert (cluster_id ai <= cluster_id ae).
      { apply By_Cluster_le. apply (Hs i e); [lia|done|done]. }
      assert (cluster_id ae <= cluster_id y).
      { destruct (decide (q = e)) as [->|?]; [by simplify_eq|].
        apply By_Cluster_le. apply (Hs e q); [lia|done|done]. }
      lia. }
    cbv zeta. split_and!.
    + cbn [concat]. rewrite Hcat.
      rewrite <- (take_drop (e - i) (drop i A)) at 2. rewrite drop_drop.
      by replace (i + (e - i))%nat with e by lia.
    + constructor; [|done]. split_and!.
      * rewrite (drop_S _ _ _ Hi). destruct (e - i)%nat eqn:E; [lia|]. done.
      * intros a b x y Hab Hx Hy.
        assert (Hxa : (a < e - i)%nat).
        { apply lookup_lt_Some in Hx. rewrite length_take in Hx. lia. }
        assert (Hyb : (b < e - i)%nat).
        { apply lookup_lt_Some in Hy. rewrite length_take in Hy. lia. }
        rewrite lookup_take_lt, lookup_drop in Hx by done.
        rewrite lookup_take_lt, lookup_drop in Hy by done.
        apply By_Cluster_le.
        -- apply (Hs (i + a)%nat (i + b)%nat); [lia|done|done].
        -- rewrite (Hids (i + a)%nat x), (Hids (i + b)%nat y); [done|lia|done|lia|done].
      * intros x y Hx Hy.
        apply elem_of_slice in Hx as (p & Hp & Hx).
        apply elem_of_slice in Hy as (q & Hq & Hy).
        rewrite (Hids p x), (Hids q y); [done|lia|done|lia|done].
    + apply ordpairs_cons. split; [|done].
      apply Forall_forall. intros r Hr x y Hx Hy.
      apply elem_of_slice in Hx as (p & Hp & Hx).
      destruct (Hin r y Hr Hy) as (q & Hq & Hyq).
      rewrite (Hids p x); [|lia|done]. by apply (Hlater q).
    + intros r y Hr Hy. apply elem_of_cons in Hr as [->|Hr].
      * apply elem_of_slice in Hy as (p & Hp & Hy). exists p. split; [lia|done].
      * destruct (Hin r y Hr Hy) as (q & Hq & Hyq). exists q. split; [lia|done].
Qed.

(** Property X21.
    After the second sort the clusters lie one after the other: the slices
    the loop hands to [Process_Cluster] put together are the whole array,
    each slice is one cluster (a single cluster id, sorted by [Start2]), and
    the ids of later slices are larger, so no cluster is handed over in two
    parts. *)
Theorem clusters_are_runs cfg (A : list Match_t) :
  A <> [] ->
  exists A4,
    Query_Clusters cfg A = Some A4 /\
    concat (cluster_runs (length A4) A4 0) = A4 /\
    Forall one_cluster (cluster_runs (length A4) A4 0) /\
    ordpairs (fun r1 r2 => forall x y, x ∈ r1 -> y ∈ r2 ->
                cluster_id x < cluster_id y)
             (cluster_runs (length A4) A4 0).
Proof.
  intros Hne. destruct (Query_Clusters_total cfg A Hne) as (A4 & HQ).
  exists A4. split; [done|].
  assert (Hs : cluster_sorted A4).
  { unfold Query_Clusters in HQ.
    destruct (reset _); [|done]. destruct (Filter_Matches _); [|done].
    destruct (Build_Clusters _ _ _) as [[F' uf']|]; [|done].
    simplify_eq. apply qsort_cluster_sorted. }
  destruct (cluster_runs_spec (length A4) A4 0 Hs) as (H1 & H2 & H3 & _); [lia|].
  by rewrite drop_0 in H1.
Qed.

Lemma clusters_are_runs_witness :
  exists A4,
    Query_Clusters default_config [new_Match 0 0 10; new_Match 5000 9000 10] = Some A4 /\
    concat (cluster_runs (length A4) A4 0) = A4 /\
    Forall one_cluster (cluster_runs (length A4) A4 0) /\
    ordpairs (fun r1 r2 => forall x y, x ∈ r1 -> y ∈ r2 ->
                cluster_id x < cluster_id y)
             (cluster_runs (length A4) A4 0).
Proof.
  apply (clusters_are_runs default_config [new_Match 0 0 10; new_Match 5000 9000 10]).
  discriminate.
Defined.

(** ** Cluster ids beyond the bit-field

    [cluster_id] has 30 bits.  With more than [2^30] matches left after the
    filter, two matches that no chain connects can get the same id: the
    matches of [spread n] under a maximum separation of 0 are clusters of
    their own, and the ids of two of them that are [2^30] positions apart are
    equal. *)

Lemma spread_lookup n k x :
  spread n !! k = Some x ->
  (k < n)%nat /\ x = new_Match (Z.of_nat n - Z.of_nat k) (Z.of_nat k) 0.
Proof.
  unfold spread. rewrite lookup_map. intros H.
  destruct (seq 0 n !! k) as [k'|] eqn:E; [|done].
  apply lookup_seq in E as [-> Hk]. simpl in H. by simplify_eq.
Qed.

Lemma spread_length n : length (spread n) = n.
Proof. unfold spread. by rewrite length_map, length_seq. Qed.

Lemma to_bits30_wrap (x : Z) : to_bits30 (x + 2 ^ 30) = to_bits30 x.
Proof.
  unfold to_bits30. replace (x + 2 ^ 30 + 2 ^ 29) with (x + 2 ^ 29 + 1 * 2 ^ 30) by lia.
  by rewrite Z_mod_plus_full.
Qed.

Lemma qsort_sorted_id (l : list Match_t) :
  ordpairs (fun x y => By_Start2 x y <= 0) l -> qsort By_Start2 l = l.
Proof.
  induction l as [|x l IH]; [done|]. intros H.
  apply ordpairs_cons in H as [Hx Hl]. unfold qsort. cbn [foldr].
  fold (qsort By_Start2 l). rewrite IH by done.
  destruct l as [|y l]; [done|]. cbn [qsort_insert].
  inversion Hx; subst. destruct (Z.leb_spec (By_Start2 x y) 0); [done|lia].
Qed.

Lemma filter_Good_all (A : list Match_t) :
  List.filter Good (map (set_Good true) A) = map (set_Good true) A.
Proof. induction A as [|a A IH]; [done|]. simpl. by rewrite IH. Qed.

Lemma clear_Good_id (A : list Match_t) :
  Forall (fun m => Good m = false) A -> map (set_Good false) (map (set_Good true) A) = A.
Proof.
  induction 1 as [|a A Ha _ IH]; [done|]. simpl. rewrite IH. f_equal.
  destruct a. simpl in *. by subst.
Qed.

Lemma Filter_Matches_spread (n : nat) :
  Z.of_nat n < 2 ^ 31 ->
  Filter_Matches (qsort By_Start2 (spread n)) = Some (spread n).
Proof.
  intros Hn. rewrite qsort_sorted_id.
  2:{ intros a b x y Hab Hx Hy.
      apply spread_lookup in Hx as [_ ->]. apply spread_lookup in Hy as [_ ->].
      unfold By_Start2. simpl. destruct (Z.ltb_spec (Z.of_nat a) (Z.of_nat b)); lia. }
  unfold Filter_Matches. rewrite filter_loop_unrelated.
  - rewrite pack_filter, filter_Good_all, clear_Good_id; [done|].
    apply Forall_lookup. intros k x Hx. by apply spread_lookup in Hx as [_ ->].
  - apply sorted2_map; [done|]. intros a b x y Hab Hx Hy.
    apply spread_lookup in Hx as [_ ->]. apply spread_lookup in Hy as [_ ->].
    simpl. lia.
  - apply Forall_valid_map; [done|]. apply Forall_lookup. intros k x Hx.
    apply spread_lookup in Hx as [Hk ->]. unfold valid. simpl. lia.
  - apply ordpairs_map. intros a b x y Hab Hx Hy.
    apply spread_lookup in Hx as [_ ->]. apply spread_lookup in Hy as [_ ->].
    unfold unrelated, diag. simpl. lia.
  - apply Forall_fmap, Forall_forall. by intros.
Qed.

(** Matches that are farther apart than the maximum separation: the
    clustering loops join nothing. *)
Lemma join_loop_far cfg (A : list Match_t) :
  (forall i j ai aj, (i < j)%nat -> A !! i = Some ai -> A !! j = Some aj ->
     Max_Separation cfg < Start2 aj - (Start2 ai + Len ai)) ->
  forall fuel uf i, join_loop fuel cfg A uf i = Some uf.
Proof.
  intros Hfar. induction fuel as [|fuel IH]; intros uf i; simpl; [done|].
  destruct (A !! i) as [ai|] eqn:Hi; [|done].
  assert (Hin : join_inner (length A - S i) cfg A uf i (Start2 ai + Len ai)
                  (Start2 ai - Start1 ai) (S i) = Some uf).
  { destruct (length A - S i)%nat; simpl; [done|].
    destruct (A !! S i) as [aj|] eqn:Hj; [|done].
    specialize (Hfar i (S i) ai aj ltac:(lia) Hi Hj).
    rewrite Z.gtb_ltb. destruct (Z.ltb_spec (Max_Separation cfg)
                                   (Start2 aj - (Start2 ai + Len ai))); [done|lia]. }
  rewrite Hin. apply IH.
Qed.

Lemma cluster_ids_wrap cfg (n p q : nat) :
  Max_Separation cfg = 0 -> Z.of_nat n < 2 ^ 31 ->
  (q < n)%nat -> Z.of_nat q = Z.of_nat p + 2 ^ 30 ->
  exists uf0 F' uf' x y,
    reset n = Some uf0 /\
    Filter_Matches (qsort By_Start2 (spread n)) = Some (spread n) /\
    Build_Clusters cfg (spread n) uf0 = Some (F', uf') /\
    F' !! p = Some x /\ F' !! q = Some y /\
    cluster_id x = cluster_id y /\ ~ connected cfg (spread n) p q.
Proof.
  intros HM Hn Hq Hpq.
  destruct (reset_spec n ltac:(lia)) as (uf0 & Hreset & Hwf0 & Hroots).
  destruct (assign_loop_spec n (length (spread n)) (spread n) uf0 0 Hwf0
              ltac:(rewrite spread_length; lia)) as (F' & uf' & Hrun & _ & _ & Hspec).
  assert (Hid : forall k, (k < n)%nat ->
            exists x, F' !! k = Some x /\ cluster_id x = to_bits30 (node k)).
  { intros k Hk.
    destruct (lookup_lt_is_Some_2 (spread n) k ltac:(rewrite spread_length; lia))
      as [x Hx].
    specialize (Hspec k x Hx). rewrite spread_length in Hspec.
    destruct (decide _); [|lia]. destruct Hspec as (r & Hr & _ & HF').
    assert (r = node k) as ->.
    { eapply root_of_det; [|exact Hr]. apply root_of_root, Hroots. unfold node. lia. }
    by eexists. }
  destruct (Hid p ltac:(lia)) as (x & Hx & Hcx).
  destruct (Hid q Hq) as (y & Hy & Hcy).
  exists uf0, F', uf', x, y. split_and!; try done.
  - by apply Filter_Matches_spread.
  - unfold Build_Clusters. rewrite join_loop_far; [done|].
    intros i j ai aj Hij Hi Hj.
    apply spread_lookup in Hi as [_ ->]. apply spread_lookup in Hj as [_ ->].
    rewrite HM. simpl. lia.
  - rewrite Hcx, Hcy. unfold node. rewrite !Nat2Z.inj_succ, Hpq.
    replace (Z.succ (Z.of_nat p + 2 ^ 30)) with (Z.succ (Z.of_nat p) + 2 ^ 30) by lia.
    by rewrite to_bits30_wrap.
  - intros Hc. apply crst_empty in Hc; [lia|].
    intros a b (ap & aq & Ha & Hb & Hab & Hsep & _).
    apply spread_lookup in Ha as [_ ->]. apply spread_lookup in Hb as [_ ->].
    simpl in Hsep. lia.
Qed.

(** ** Nothing long enough is lost after the filter *)

Lemma long_enough_triple cfg x y :
  triple x = triple y -> long_enough cfg x -> long_enough cfg y.
Proof. unfold long_enough, triple. intros [= _ _ <-]. done. Qed.

Lemma Forall_long_enough_triple cfg A B :
  map triple A = map triple B ->
  Forall (long_enough cfg) A -> Forall (long_enough cfg) B.
Proof.
  intros Heq H. apply Forall_lookup. intros i y Hy.
  destruct (lookup_triple B A i y) as (x & Hx & Ht); [done|done|].
  apply (long_enough_triple cfg x y); [done|].
  rewrite Forall_lookup in H. by apply (H i).
Qed.

Lemma walk_total_ge (ms : list Match_t) (t : Z) :
  Forall (fun m => 0 <= Len m) ms -> t <= walk_total_of ms t.
Proof.
  induction 1 as [|m ms Hm _ IH]; simpl; [lia|].
  unfold walk_total_of in *. simpl. lia.
Qed.

Lemma chain_score_long_enough cfg (ms : list Match_t) :
  ms <> [] -> Forall (long_enough cfg) ms ->
  Min_Output_Score cfg
  <= chain_score cfg (walk_total_of ms 0) (walk_hi_of ms LONG_MIN)
                 (walk_lo_of ms LONG_MAX).
Proof.
  intros Hne Hall. destruct ms as [|m ms]; [done|].
  inversion Hall as [|? ? [Hm0 Hm] Hrest]; subst.
  unfold chain_score. destruct (Use_Extents cfg).
  - unfold walk_hi_of, walk_lo_of. simpl. lia.
  - unfold walk_total_of. simpl.
    assert (0 <= foldr (fun m0 s => s + Len m0) 0 ms).
    { apply (walk_total_ge ms 0). eapply Forall_impl; [exact Hrest|].
      by intros ? [? _]. }
    lia.
Qed.

Lemma selected_chains_emitted cfg (fuel : nat) :
  forall A chains,
    A <> [] -> Forall (fun m => Good m = false) A ->
    Forall (long_enough cfg) A ->
    selected_chains fuel A = Some chains ->
    List.filter (emitted cfg) chains = chains.
Proof.
  induction fuel as [|fuel IH]; intros A chains Hne Hclean Hlong Hrun; [done|].
  cbn [selected_chains] in Hrun.
  destruct (select_chain_members A Hne Hclean)
    as (A1 & t & h & l & xb & c & Hsel & Htr & Hrev & _ & Ht & Hh & Hl).
  rewrite Hsel in Hrun.
  set (A2 := pack (fun m => negb (Good m)) A1) in *.
  assert (Hlong1 : Forall (long_enough cfg) A1).
  { by apply (Forall_long_enough_triple cfg A). }
  assert (Hms : Forall (long_enough cfg) (List.filter Good A1)).
  { apply List.Forall_forall. intros m Hm. apply List.filter_In in Hm as [Hm _].
    rewrite List.Forall_forall in Hlong1. auto. }
  assert (Hemit : emitted cfg (List.filter Good A1, t, h, l) = true).
  { unfold emitted. apply Z.geb_le. rewrite Ht, Hh, Hl.
    apply chain_score_long_enough; [|done]. intros Hnil. by rewrite Hnil in Hrev. }
  destruct (Nat.ltb_spec 0 (length A2)) as [Hpos|Hpos].
  - destruct (selected_chains fuel A2) as [rest|] eqn:Hrec; [|done]. simplify_eq.
    cbn [List.filter]. rewrite Hemit. f_equal.
    apply (IH A2); [| | |done].
    + intros Heq. rewrite Heq in Hpos. simpl in Hpos. lia.
    + unfold A2. rewrite pack_filter. apply List.Forall_forall. intros m Hm.
      apply List.filter_In in Hm as [_ Hm]. by apply negb_true_iff.
    + unfold A2. rewrite pack_filter. apply List.Forall_forall. intros m Hm.
      apply List.filter_In in Hm as [Hm _].
      rewrite List.Forall_forall in Hlong1. auto.
  - simplify_eq. cbn [List.filter]. by rewrite Hemit.
Qed.

Lemma clusters_loop_all_sources cfg (fuel : nat) :
  forall A i label print_ct ct out,
    Forall (fun m => Good m = false) A -> Forall (long_enough cfg) A ->
    clusters_loop fuel cfg A i label print_ct = Some (ct, out) ->
    omap source_of out ≡ₚ map triple (drop i A).
Proof.
  induction fuel as [|fuel IH]; intros A i label print_ct ct out Hclean Hlong Hrun.
  - simpl in Hrun. destruct (A !! i) eqn:Hi; [done|]. simplify_eq.
    apply lookup_ge_None in Hi. by rewrite drop_ge by lia.
  - cbn [clusters_loop] in Hrun. destruct (A !! i) as [ai|] eqn:Hi.
    2:{ simplify_eq. apply lookup_ge_None in Hi. by rewrite drop_ge by lia. }
    set (j := run_end (length A - S i) A (cluster_id ai) (S i)) in *.
    set (slice := take (j - i) (drop i A)) in *.
    destruct (Process_Cluster cfg slice label) as [[ct1 out1]|] eqn:Hpc; [|done].
    destruct (clusters_loop fuel cfg A _ _ _) as [[ct2 out2]|] eqn:Hrec; [|done].
    simplify_eq.
    assert (Hslice : slice <> []).
    { intros Heq. unfold Process_Cluster in Hpc. by rewrite Heq in Hpc. }
    destruct (cluster_loop_accounts cfg (length slice) slice label 0 Hslice)
      as (ct' & out' & chains & H1 & Hch & Hperm & Hsrc & _); [lia|].
    unfold Process_Cluster in Hpc. rewrite Hpc in H1. simplify_eq.
    assert (Hall : List.filter (emitted cfg) chains = chains).
    { apply (selected_chains_emitted cfg (length slice) slice chains); try done;
        by apply Forall_take, Forall_drop. }
    rewrite Hall in Hsrc.
    rewrite omap_app, <- (take_drop (j - i) (drop i A)), map_app.
    apply Permutation_app.
    + rewrite Hsrc. by fold slice.
    + rewrite drop_drop. by eapply IH.
Qed.

(** Property X22.
    When every match of a query has a length that is not negative and
    reaches [Min_Output_Score], every chain is printed: the records, with
    their adjustments undone, are exactly the matches that survived the
    filter, each one once. *)
Theorem Process_Matches_prints_all cfg (A : list Match_t) (label : string) :
  A <> [] -> Forall (long_enough cfg) A ->
  exists F out,
    Filter_Matches (qsort By_Start2 A) = Some F /\
    Process_Matches cfg A label = Some out /\
    omap source_of out ≡ₚ map triple F.
Proof.
  intros Hne Hlong. unfold Process_Matches. destruct A as [|a A]; [done|].
  cbn [length Nat.eqb].
  destruct (Query_Clusters_total cfg (a :: A)) as (A4 & HQ); [done|].
  pose proof (Query_Clusters_clean cfg _ _ HQ) as Hclean.
  rewrite HQ. unfold Query_Clusters in HQ.
  destruct (reset _) as [uf0|] eqn:Hreset; [|done].
  destruct (Filter_Matches _) as [F|] eqn:HF; [|done].
  destruct (Build_Clusters cfg F uf0) as [[F' uf']|] eqn:HB; [|done].
  simplify_eq.
  assert (HlongF : Forall (long_enough cfg) F).
  { pose proof HF as HF0. unfold Filter_Matches in HF0.
    destruct (filter_loop _ _ _) as [A'|] eqn:Hloop; [|done]. simplify_eq.
    assert (H0 : Forall2 grown (qsort By_Start2 (a :: A))
                   (map (set_Good true) (qsort By_Start2 (a :: A)))).
    { apply Forall2_fmap_r, Forall_Forall2_diag, Forall_forall.
      intros x _. unfold grown. simpl. lia. }
    pose proof (filter_loop_grown _ _ _ _ _ H0 Hloop) as H1.
    assert (HA' : Forall (long_enough cfg) A').
    { apply Forall_lookup. intros p y Hy.
      destruct (Forall2_lookup_r _ _ _ _ _ H1 Hy) as (x & Hx & _ & _ & Hlen).
      assert (Hxl : long_enough cfg x).
      { apply list_elem_of_lookup_2 in Hx.
        rewrite (qsort_perm By_Start2 (a :: A)) in Hx.
        rewrite Forall_forall in Hlong. by apply Hlong. }
      destruct Hxl. unfold long_enough. lia. }
    rewrite pack_filter. apply List.Forall_map, List.Forall_forall.
    intros m Hm. apply List.filter_In in Hm as [Hm _].
    rewrite List.Forall_forall in HA'. by apply (HA' m). }
  assert (HF' : map triple F' = map triple F).
  { destruct (Filter_Matches_sorted _ (qsort_sorted (a :: A)))
      as (F0 & HF0 & _ & Hlen & _). rewrite qsort_length in Hlen.
    rewrite HF in HF0. simplify_eq.
    assert (Hpos : (1 <= length (a :: A))%nat) by (simpl; lia).
    destruct (reset_spec (length (a :: A)) Hpos) as (uf1 & Hr1 & Hwf0 & _).
    rewrite Hreset in Hr1. simplify_eq.
    destruct (Build_Clusters_safe (length (a :: A)) cfg F0 uf1 Hlen Hwf0)
      as (F1 & uf2 & HB1 & Hsame).
    rewrite HB in HB1. simplify_eq.
    clear -Hsame. induction Hsame as [|x y ? ? [c ->]]; simpl; [done|]. by f_equal. }
  set (A4 := qsort By_Cluster F') in *.
  assert (HlongA4 : Forall (long_enough cfg) A4).
  { eapply Permutation_Forall; [symmetry; apply qsort_perm|].
    by apply (Forall_long_enough_triple cfg F). }
  destruct (clusters_loop_spec cfg (length A4) A4 0 label 0)
    as (ct & out & Hrun & _); [lia|lia|].
  rewrite Hrun. exists F. eexists. split; [done|]. split; [done|].
  pose proof (clusters_loop_all_sources cfg _ _ _ _ _ _ _ Hclean HlongA4 Hrun) as H.
  rewrite drop_0 in H.
  assert (Hperm : omap source_of out ≡ₚ map triple F).
  { rewrite H, <- HF'. apply Permutation_map, qsort_perm. }
  destruct (ct =? 0); [|done].
  rewrite omap_app. simpl. by rewrite app_nil_r.
Qed.

Lemma Process_Matches_prints_all_witness :
  exists F out,
    Filter_Matches (qsort By_Start2 [new_Match 0 0 300; new_Match 5000 9000 250])
      = Some F /\
    Process_Matches default_config [new_Match 0 0 300; new_Match 5000 9000 250] "L"
      = Some out /\
    omap source_of out ≡ₚ map triple F.
Proof.
  apply (Process_Matches_prints_all default_config
           [new_Match 0 0 300; new_Match 5000 9000 250] "L").
  - discriminate.
  - unfold long_enough, default_config, DEFAULT_MIN_OUTPUT_SCORE.
    constructor; [simpl; lia|]. constructor; [simpl; lia|]. constructor.
Defined.

(** ** [main] *)

Lemma skip_loop_stuck (fuel : nat) c s :
  not_header c = true -> skip_loop fuel c s = None.
Proof.
  intros Hc. revert s. induction fuel as [|fuel IH]; intros s; simpl; rewrite Hc; [done|].
  apply IH.
Qed.

(** Property X23.
    When the input is not empty and does not begin with ['>'], [main] never
    returns: its first loop tests a character it does not read again. *)
Theorem main_never_ends sscanf cfg Check_Labels (input : string) (c : ascii) :
  peek input = Some c -> c <> ">"%char ->
  forall fuel, main sscanf cfg Check_Labels fuel input = Unfinished.
Proof.
  intros Hc Hne fuel. unfold main. rewrite Hc, skip_loop_stuck; [done|].
  simpl. by destruct (Ascii.eqb_spec c ">"%char).
Qed.

Lemma getline_le (s : string) :
  (String.length (snd (getline s)) <= String.length s)%nat.
Proof.
  induction s as [|c s IH]; simpl; [done|].
  destruct (Ascii.eqb c "010"%char); simpl; [lia|].
  destruct (getline s) as [l r]. simpl in *. lia.
Qed.

Lemma getline_lt (c : ascii) (s : string) :
  (String.length (snd (getline (String c s))) <= String.length s)%nat.
Proof.
  simpl. destruct (Ascii.eqb c "010"%char); simpl; [lia|].
  pose proof (getline_le s). by destruct (getline s) as [l r].
Qed.

Lemma getline_header (c : ascii) (s : string) :
  is_header (fst (getline (String c s))) = Ascii.eqb c ">"%char.
Proof.
  simpl. destruct (Ascii.eqb_spec c "010"%char) as [->|Hne]; simpl; [done|].
  by destruct (getline s) as [l r].
Qed.

Lemma lines_of_fuel (f1 : nat) :
  forall f2 s, (String.length s <= f1)%nat -> (String.length s <= f2)%nat ->
    lines_of f1 s = lines_of f2 s.
Proof.
  induction f1 as [|f1 IH]; intros f2 s H1 H2.
  - destruct s; [|simpl in H1; lia]. by destruct f2.
  - destruct s as [|c s]; [by destruct f2|].
    destruct f2 as [|f2]; [simpl in H2; lia|].
    cbn [lines_of]. pose proof (getline_lt c s) as Hlt.
    destruct (getline (String c s)) as [l r]. simpl in Hlt, H1, H2.
    f_equal. apply IH; lia.
Qed.

Lemma lines_of_cons (f : nat) (c : ascii) (s : string) :
  lines_of (S f) (String c s)
  = fst (getline (String c s)) :: lines_of f (snd (getline (String c s))).
Proof. cbn [lines_of]. by destruct (getline (String c s)). Qed.

Lemma not_header_peek (s : string) :
  not_header (peek s) = false ->
  s = EmptyString \/ exists s', s = String ">"%char s'.
Proof.
  destruct s as [|c s]; [by left|]. simpl. intros H. right. exists s.
  apply negb_false_iff in H. by destruct (Ascii.eqb_spec c ">"%char) as [->|].
Qed.

Lemma filter_hash_replicate n :
  List.filter (fun l => negb (l =? "#")%string) (replicate n "#"%string) = [].
Proof. induction n as [|n IH]; [done|]. simpl. exact IH. Qed.

Lemma c_str_header (s : string) :
  (c_str (String ">"%char s) =? "#")%string = false.
Proof. reflexivity. Qed.

Section Main_Properties.

Variable sscanf : string -> option (Z * Z * Z).
Variable cfg : config.

Lemma read_matches_spec (fuel : nat) :
  forall s A, (String.length s <= fuel)%nat ->
    exists s2 A',
      read_matches sscanf fuel s A = Some (s2, A') /\
      not_header (peek s2) = false /\
      (String.length s2 <= String.length s)%nat /\
      forall lf, (String.length s <= lf)%nat ->
        List.filter is_header (lines_of lf s) = List.filter is_header (lines_of lf s2).
Proof using Type.
  induction fuel as [|fuel IH]; intros s A Hlen.
  - destruct s; [|simpl in Hlen; lia]. by exists EmptyString, A.
  - destruct (not_header (peek s)) eqn:Hh.
    2:{ exists s, A. cbn [read_matches]. by rewrite Hh. }
    destruct s as [|c s]; [done|].
    pose proof (getline_lt c s) as Hlt. pose proof (getline_header c s) as Hhd.
    destruct (getline (String c s)) as [line s1] eqn:Hg.
    simpl in Hlt, Hhd, Hlen.
    destruct (IH s1 (match sscanf (c_str line) with
                     | Some (S1, S2, L) => A ++ [new_Match S1 S2 L]
                     | None => A
                     end)) as (s2 & A' & Hrun & Hp & Hl2 & Hlines); [lia|].
    exists s2, A'. split.
    { cbn [read_matches]. by rewrite Hh, Hg. }
    split; [done|]. split; [simpl; lia|].
    intros lf Hlf. simpl in Hlf. destruct lf as [|lf]; [lia|].
    rewrite lines_of_cons, Hg. cbn [fst snd List.filter]. rewrite Hhd.
    simpl in Hh. apply negb_true_iff in Hh. rewrite Hh.
    rewrite Hlines by lia. apply (f_equal (List.filter is_header)).
    apply lines_of_fuel; lia.
Qed.

(** One query with a header that is not ["#"]: its header is the one label
    printed that is not ["#"]. *)
Lemma Process_Matches_header (A : list Match_t) (label : string) :
  (label =? "#")%string = false ->
  exists out,
    Process_Matches cfg A label = Some out /\ headers_printed out = [label].
Proof using Type.
  intros Hlab. unfold Process_Matches, headers_printed. destruct A as [|a A].
  { exists [Label_line label]. split; [done|]. simpl. by rewrite Hlab. }
  cbn [length Nat.eqb].
  destruct (Query_Clusters_total cfg (a :: A)) as (A4 & ->); [done|].
  destruct (clusters_loop_spec cfg (length A4) A4 0 label 0)
    as (ct & out & Hrun & Hct & Hzero & _); [lia|lia|].
  rewrite Hrun.
  destruct (clusters_loop_labels cfg _ _ _ _ _ _ _ (Z.le_refl 0)
              ltac:(intros; lia) Hrun) as (_ & Hl).
  rewrite Z.sub_0_r in Hl.
  destruct (Z.eqb_spec ct 0) as [->|Hne].
  - exists (out ++ [Label_line label]). split; [done|].
    rewrite Hzero by done. simpl. by rewrite Hlab.
  - exists out. split; [done|]. rewrite Hl.
    destruct (Z.to_nat ct) as [|n] eqn:E; [lia|]. simpl.
    by rewrite Hlab, filter_hash_replicate.
Qed.

Lemma query_loop_spec (fuel : nat) :
  forall s ct, (String.length (String ">"%char s) <= fuel)%nat ->
    exists out,
      query_loop sscanf cfg false fuel (String ">"%char s) ct = Finished out /\
      headers_printed out
      = map c_str (List.filter is_header (lines_of fuel (String ">"%char s))).
Proof using Type.
  induction fuel as [|fuel IH]; intros s ct Hlen; [simpl in Hlen; lia|].
  pose proof (getline_lt ">"%char s) as Hlt.
  pose proof (getline_header ">"%char s) as Hhd.
  assert (Hline : exists h, fst (getline (String ">"%char s)) = String ">"%char h).
  { simpl. destruct (getline s) as [l r]. by exists l. }
  destruct (getline (String ">"%char s)) as [header s1] eqn:Hg.
  simpl in Hlt, Hhd, Hlen. destruct Hline as (h & Hh). simpl in Hh. subst header.
  destruct (read_matches_spec (String.length s1) s1 [] (Nat.le_refl _))
    as (s2 & A & Hread & Hp & Hl2 & Hlines).
  destruct (Process_Matches_header A (c_str (String ">"%char h)) (c_str_header h))
    as (out & Hpm & Hout).
  assert (Hl : List.filter is_header (lines_of (S fuel) (String ">"%char s))
               = String ">"%char h :: List.filter is_header (lines_of fuel s2)).
  { rewrite lines_of_cons, Hg. cbn [fst snd List.filter]. rewrite Hhd.
    by rewrite Hlines by lia. }
  rewrite Hl. cbn [query_loop]. rewrite Hg. cbn [andb]. rewrite Hread, Hpm.
  destruct (not_header_peek s2 Hp) as [->|(s2' & ->)].
  - exists out. split; [done|]. rewrite Hout. by destruct fuel.
  - cbn [peek]. simpl in Hl2.
    destruct (IH s2' ct) as (rest & -> & Hrest); [simpl; lia|].
    exists (out ++ rest). split; [done|].
    unfold headers_printed in *. rewrite labels_app, List.filter_app, Hout, Hrest.
    done.
Qed.

(** Property X24.
    With label checking off, [main] returns for every input that is empty
    or begins with ['>'], and each header line of the input is printed once,
    in input order: the label lines of the output other than ["#"] are the
    header lines. *)
Theorem main_headers (input : string) :
  not_header (peek input) = false ->
  exists out,
    main sscanf cfg false (String.length input) input = Finished out /\
    headers_printed out = map c_str (List.filter is_header (lines input)).
Proof using Type.
  intros Hp. unfold main.
  assert (Hskip : skip_loop (String.length input) (peek input) input = Some input).
  { destruct (String.length input); simpl; by rewrite Hp. }
  rewrite Hskip.
  destruct (not_header_peek input Hp) as [->|(s & ->)].
  - by exists [].
  - cbn [peek]. apply query_loop_spec. lia.
Qed.

End Main_Properties.

Lemma main_never_ends_witness :
  main (fun _ => None) default_config false 5 "x" = Unfinished.
Proof.
  apply (main_never_ends (fun _ => None) default_config false "x" "x"%char);
    [reflexivity|discriminate].
Defined.

Lemma main_headers_witness :
  exists out,
    main (fun _ => None) default_config false (String.length ">q") ">q" = Finished out /\
    headers_printed out = map c_str (List.filter is_header (lines ">q")).
Proof.
  apply (main_headers (fun _ => None) default_config ">q"). reflexivity.
Defined.
